(** * Twitter-Feed: the sorted feed, the reader/writer lock, the lock-free
    queue and the task coordinator, embedded from the Go sources.

    - package [feed]:  [NewFeed], [Add], [Remove], [Contains],
      [reverseFeed], [ShowFeed];
    - package [lock]:  [NewRWMutex], [Lock], [Unlock], [RLock], [RUnlock];
    - package [queue]: [NewQueue], [Enqueue], [Dequeue];
    - package [main]:  [producer], [consumer], [main] and the four tasks. *)

From Stdlib Require Import ZArith Lia Bool List String Ascii.
From Stdlib Require Import Floats.SpecFloat.
From stdpp Require Import base option list.

Local Open Scope Z_scope.

(* ===================================================================== *)
(** * float64 *)
(* ===================================================================== *)

(** Go's [float64] is IEEE 754 binary64.  Its values are the [spec_float]s
    (zeros, infinities, NaN, sign/mantissa/exponent triples); the Go
    operators [<] and [==] are [SFltb] and [SFeqb]. *)
Module F64.

Definition float64 : Type := spec_float.

(** [math.Inf(1)], [math.Inf(-1)] *)
Definition Inf (sign : Z) : float64 := S754_infinity (sign <? 0).
Definition pinf : float64 := Eval cbv in Inf 1.
Definition ninf : float64 := Eval cbv in Inf (-1).

Definition ltb (x y : float64) : bool := SFltb x y.
Definition eqb (x y : float64) : bool := SFeqb x y.

(** Neither an infinity nor a NaN. *)
Definition finite (x : float64) : bool :=
  match x with
  | S754_zero _ | S754_finite _ _ _ => true
  | S754_infinity _ | S754_nan => false
  end.

(** The binary64 value of an integer literal (round to nearest even), as
    [strconv.ParseFloat] and the Go compiler produce it. *)
Definition of_Z (z : Z) : float64 := binary_normalize 53 1024 z 0 false.

(** A rank in a lexicographically ordered triple of integers that
    [SFcompare] follows on every value but NaN. *)
Definition rank (x : float64) : Z * Z * Z :=
  match x with
  | S754_infinity true => (-2, 0, 0)
  | S754_finite true m e => (-1, - e, Zneg m)
  | S754_zero _ | S754_nan => (0, 0, 0)
  | S754_finite false m e => (1, e, Zpos m)
  | S754_infinity false => (2, 0, 0)
  end.

Definition lex_lt (a b : Z * Z * Z) : Prop :=
  let '(a1, a2, a3) := a in
  let '(b1, b2, b3) := b in
  a1 < b1 \/ (a1 = b1 /\ (a2 < b2 \/ (a2 = b2 /\ a3 < b3))).

Definition is_nan (x : float64) : bool :=
  match x with S754_nan => true | _ => false end.

End F64.

(* ===================================================================== *)
(** * package feed *)
(* ===================================================================== *)

(** A Go [[]byte]. *)
Definition bytes : Type := list Byte.byte.

(** What a Go call yields.  [None]: the call does not return normally, by
    a run-time panic (a nil pointer dereference, an index out of range) or,
    in a function that is given a bound on its iterations, because the
    bound is used up. *)
Definition result (A : Type) : Type := option A.

(** Go slices of [[]byte] elements: a slice is a window on a backing array
    that other slices may share. *)
Module Slices.
Local Open Scope nat_scope.

(** The backing arrays allocated so far; the address of an array is its
    index, its cells are its elements. *)
Abbreviation heap := (list (list bytes)).

(** A slice value: the array and the index of its first element, its
    length and its capacity. *)
Record slice : Type := { array : nat; off : nat; len : nat; cap : nat }.

Definition cells (h : heap) (s : slice) : list bytes :=
  match h !! array s with Some cs => cs | None => [] end.

(** The elements of [s], in order. *)
Definition contents (h : heap) (s : slice) : list bytes :=
  take (len s) (drop (off s) (cells h s)).

(** [make([][]byte, 0)] *)
Definition make0 (h : heap) : heap * slice :=
  (h ++ [[]], {| array := length h; off := 0; len := 0; cap := 0 |}).

(** [s[1:]] where [len(s) > 0] *)
Definition from_1 (s : slice) : slice :=
  {| array := array s; off := S (off s); len := len s - 1; cap := cap s - 1 |}.

(** [s[0]]; a panic when [len(s) == 0]. *)
Definition index_0 (h : heap) (s : slice) : result bytes :=
  if Nat.eqb (len s) 0 then None else cells h s !! off s.

Section Append.
(** The capacity the runtime picks for a new backing array, given the old
    capacity and the length needed; never less than the length needed. *)
Variable growslice : nat -> nat -> nat.

(** [append(s, x)]: while the capacity allows, [x] is written into the
    backing array of [s] behind its last element; otherwise the elements
    move to a new array. *)
Definition append (h : heap) (s : slice) (x : bytes) : heap * slice :=
  if len s <? cap s then
    (<[array s := <[off s + len s := x]> (cells h s)]> h,
     {| array := array s; off := off s; len := S (len s); cap := cap s |})
  else
    let newcap := Nat.max (S (len s)) (growslice (cap s) (S (len s))) in
    (h ++ [contents h s ++ x :: replicate (newcap - S (len s)) []],
     {| array := length h; off := 0; len := S (len s); cap := newcap |}).
End Append.

(** The window of [s] lies within an allocated array. *)
Definition valid (h : heap) (s : slice) : Prop :=
  exists cs, h !! array s = Some cs /\ off s + cap s <= length cs /\ len s <= cap s.

(** From [h] to [h']: no array is lost or resized, the arrays other than
    [a] are as they were, and so are the first [k] cells of array [a]. *)
Definition frame (h h' : heap) (a k : nat) : Prop :=
  length h <= length h' /\
  forall b cs, h !! b = Some cs ->
    exists cs', h' !! b = Some cs' /\ length cs' = length cs /\
                (b <> a -> cs' = cs) /\ take k cs' = take k cs.

End Slices.

Module Feed.
Import F64.

(** [*post]: [nil], or a pointer to a [post{body, timestamp, next}].  Posts
    are allocated by [newPost] only and linked at one place, so the cells
    reachable from [start] form a finite chain. *)
Inductive post : Type :=
| nil_post
| newPost (body : string) (timestamp : float64) (next : post).

(** [feed.start]; the [lock] field is the subject of [Module Lock], every
    method below runs between a lock and its unlock. *)
Record feed : Type := { start : post }.

Record postBodyTimestamp : Type :=
  { Body : string; Timestamp : float64 }.

Definition NewFeed : feed :=
  {| start := newPost "null" (Inf (-1)) (newPost "" (Inf 1) nil_post) |}.

(** The loop of [Add] from [curr] on and the two assignments after it; the
    value is the chain [pred.next] refers to afterwards. *)
Fixpoint add_from (curr : post) (body : string) (ts : float64) : result post :=
  match curr with
  | nil_post => None
  | newPost b t n =>
      if ltb t ts then newPost b t <$> add_from n body ts
      else Some (newPost body ts curr)
  end.

Definition Add (f : feed) (body : string) (ts : float64) : result feed :=
  match start f with
  | nil_post => None
  | newPost b t n => (fun n' => {| start := newPost b t n' |}) <$> add_from n body ts
  end.

(** The loop of [Remove] from [curr] on and the test after it: the chain
    [pred.next] refers to afterwards, and the returned flag. *)
Fixpoint remove_from (curr : post) (ts : float64) : result (post * bool) :=
  match curr with
  | nil_post => None
  | newPost b t n =>
      if ltb t ts then (fun r => (newPost b t r.1, r.2)) <$> remove_from n ts
      else if eqb t ts then Some (n, true)
      else Some (curr, false)
  end.

Definition Remove (f : feed) (ts : float64) : result (feed * bool) :=
  match start f with
  | nil_post => None
  | newPost b t n =>
      (fun r => ({| start := newPost b t r.1 |}, r.2)) <$> remove_from n ts
  end.

Fixpoint contains_from (curr : post) (ts : float64) : result bool :=
  match curr with
  | nil_post => None
  | newPost b t n =>
      if ltb t ts then contains_from n ts else Some (eqb t ts)
  end.

Definition Contains (f : feed) (ts : float64) : result bool :=
  match start f with
  | nil_post => None
  | newPost _ _ n => contains_from n ts
  end.

Section ShowFeed.
Import Slices.
(** [json.Marshal] on a [postBodyTimestamp] (its error is dropped), and
    the growth policy of [append]. *)
Variable Marshal : postBodyTimestamp -> bytes.
Variable growslice : nat -> nat -> nat.

(** [reverseFeed]: [append(reverseFeed(input[1:]), input[0])] unless
    [len(input) == 0].  The recursion is as deep as [input] is long plus
    one; [fuel] bounds it.  [input[0]] is read after the call returns
    (Go leaves the order open; the call does not write to the elements of
    [input], [reverseFeed_rev]). *)
Fixpoint reverseFeed (fuel : nat) (h : heap) (input : slice)
  : result (heap * slice) :=
  match fuel with
  | O => None
  | S fuel' =>
      if Nat.eqb (len input) 0 then Some (h, input)
      else
        match reverseFeed fuel' h (from_1 input) with
        | None => None
        | Some (h1, r) =>
            match index_0 h1 input with
            | None => None
            | Some x => Some (append growslice h1 r x)
            end
        end
  end.

(** The loop of [ShowFeed] from [post] on, appending to [feedArray]. *)
Fixpoint show_from (p : post) (h : heap) (feedArray : slice)
  : result (heap * slice) :=
  match p with
  | nil_post => None
  | newPost b t n =>
      if negb (eqb t (Inf 1))
      then
        let postByte := Marshal {| Body := b; Timestamp := t |} in
        let hs := append growslice h feedArray postByte in
        show_from n hs.1 hs.2
      else Some (h, feedArray)
  end.

(** [ShowFeed] on the arrays [h]: the arrays afterwards and the slice
    returned. *)
Definition ShowFeed_in (f : feed) (h : heap) : result (heap * slice) :=
  let hs := make0 h in
  match start f with
  | nil_post => None
  | newPost _ _ n =>
      match show_from n hs.1 hs.2 with
      | None => None
      | Some (h1, feedArray) => reverseFeed (S (len feedArray)) h1 feedArray
      end
  end.

(** The elements of the slice [ShowFeed] returns. *)
Definition ShowFeed (f : feed) : result (list bytes) :=
  match ShowFeed_in f [] with
  | None => None
  | Some (h, s) => Some (contents h s)
  end.
End ShowFeed.

(** ** The list a feed stores *)

(** The chain of the posts [ps] (body, timestamp), ended by [last]. *)
Fixpoint link (ps : list (string * float64)) (last : post) : post :=
  match ps with
  | [] => last
  | p :: rest => newPost p.1 p.2 (link rest last)
  end.

(** The feed whose head is the -inf sentinel, followed by [ps], followed by
    [last]. *)
Definition feed_of (ps : list (string * float64)) (last : post) : feed :=
  {| start := newPost "null" ninf (link ps last) |}.

Definition end_sentinel : post := newPost "" pinf nil_post.

(** Each timestamp is strictly below its successor's. *)
Fixpoint increasing (l : list float64) : bool :=
  match l with
  | x :: ((y :: _) as rest) => ltb x y && increasing rest
  | _ => true
  end.

Fixpoint decreasing (l : list float64) : bool :=
  match l with
  | x :: ((y :: _) as rest) => ltb y x && decreasing rest
  | _ => true
  end.

(** The invariant of the data model: head sentinel, finite posts in
    strictly increasing order, +inf sentinel, nil. *)
Definition sorted_feed (f : feed) (ps : list (string * float64)) : Prop :=
  f = feed_of ps end_sentinel /\
  forallb finite ps.*2 = true /\
  increasing ps.*2 = true.

(** No two timestamps of [l] are [==]. *)
Fixpoint distinct (l : list float64) : bool :=
  match l with
  | [] => true
  | x :: rest => forallb (fun y => negb (eqb x y)) rest && distinct rest
  end.

(** [Add] after [Add]. *)
Fixpoint AddAll (adds : list (string * float64)) (f : feed) : result feed :=
  match adds with
  | [] => Some f
  | a :: rest => Add f a.1 a.2 ≫= AddAll rest
  end.

(** What the walks of [Add] and [Remove] do to the stored list, and what
    the walk of [Contains] finds in it. *)
Fixpoint ins (b : string) (ts : float64) (ps : list (string * float64))
  : list (string * float64) :=
  match ps with
  | [] => [(b, ts)]
  | p :: rest => if ltb p.2 ts then p :: ins b ts rest else (b, ts) :: ps
  end.

Fixpoint del (ts : float64) (ps : list (string * float64))
  : list (string * float64) :=
  match ps with
  | [] => []
  | p :: rest =>
      if ltb p.2 ts then p :: del ts rest
      else if eqb p.2 ts then rest else ps
  end.

Fixpoint found (ts : float64) (ps : list (string * float64)) : bool :=
  match ps with
  | [] => false
  | p :: rest => if ltb p.2 ts then found ts rest else eqb p.2 ts
  end.

(** A post with a timestamp [==] to [ts] is stored. *)
Definition stored (ts : float64) (ps : list (string * float64)) : bool :=
  existsb (fun p => eqb p.2 ts) ps.

(** ** Sequences of calls *)

Inductive op : Type :=
| OpAdd (body : string) (ts : float64)
| OpRemove (ts : float64).

Definition op_ts (o : op) : float64 :=
  match o with OpAdd _ t => t | OpRemove t => t end.

(** The calls of [ops] in order; each with the flag the caller gets
    ([Add] has none: [addPostTask] reports [true]). *)
Fixpoint run (ops : list op) (f : feed) : result (feed * list (op * bool)) :=
  match ops with
  | [] => Some (f, [])
  | OpAdd b t :: rest =>
      f1 ← Add f b t;
      r ← run rest f1;
      Some (r.1, (OpAdd b t, true) :: r.2)
  | OpRemove t :: rest =>
      fr ← Remove f t;
      r ← run rest fr.1;
      Some (r.1, (OpRemove t, fr.2) :: r.2)
  end.

(** No [Add] is given a timestamp that a stored post has at that moment;
    [present] are the timestamps stored before [ops]. *)
Fixpoint no_duplicate_adds (ops : list op) (present : list float64) : bool :=
  match ops with
  | [] => true
  | OpAdd _ t :: rest =>
      forallb (fun u => negb (eqb u t)) present
      && no_duplicate_adds rest (t :: present)
  | OpRemove t :: rest =>
      no_duplicate_adds rest (List.filter (fun u => negb (eqb u t)) present)
  end.

(** [present] lists, up to [==], the timestamps stored in [ps]. *)
Definition tracks (present : list float64) (ps : list (string * float64)) : Prop :=
  forall t, forallb (fun u => negb (eqb u t)) present = negb (stored t ps).

(** The timestamps given to [Add], in order. *)
Fixpoint added (ops : list op) : list float64 :=
  match ops with
  | [] => []
  | OpAdd _ t :: rest => t :: added rest
  | OpRemove _ :: rest => added rest
  end.

(** In the trace there is an [Add] of [t] after which no [Add] of [t] and
    no [Remove] of [t] that returned [true] follows. *)
Definition quiet (t : float64) (e : op * bool) : Prop :=
  match e.1 with
  | OpAdd _ u => eqb u t = false
  | OpRemove u => eqb u t = true -> e.2 = false
  end.

Definition last_add_stands (trace : list (op * bool)) (t : float64) : Prop :=
  exists pre b u suf,
    trace = pre ++ (OpAdd b u, true) :: suf /\ eqb u t = true /\
    Forall (quiet t) suf.

End Feed.

(* ===================================================================== *)
(** * package lock *)
(* ===================================================================== *)

(** A 64-bit signed integer ([int], [int64]) after an arithmetic
    operation: the result wraps around. *)
Definition wrap64 (z : Z) : Z := (z + 2 ^ 63) mod 2 ^ 64 - 2 ^ 63.

(** The four methods of [rwmutex], run by any number of goroutines.  Each
    goroutine executes its method statement by statement; a scheduler picks
    which goroutine moves next. *)
Module Lock.

Inductive method : Type := MLock | MUnlock | MRLock | MRUnlock.

(** The statement a goroutine is at. *)
Inductive pc : Type :=
| Idle            (* in no method, holding nothing *)
| Lock_L          (* Lock:    rw.cond.L.Lock() *)
| Lock_test       (* Lock:    for rw.readCount != 0 *)
| Lock_parked     (* Lock:    in rw.cond.Wait(), not notified *)
| Lock_woken      (* Lock:    in rw.cond.Wait(), notified, taking L again *)
| Writing         (* Lock returned, Unlock not called *)
| Unlock_signal   (* Unlock:  rw.cond.Signal() *)
| Unlock_L        (* Unlock:  rw.cond.L.Unlock() *)
| RLock_L         (* RLock:   rw.cond.L.Lock() *)
| RLock_test      (* RLock:   for rw.readCount > 64 *)
| RLock_parked    (* RLock:   in rw.cond.Wait(), not notified *)
| RLock_woken     (* RLock:   in rw.cond.Wait(), notified, taking L again *)
| RLock_incr      (* RLock:   rw.readCount++ *)
| RLock_unlock    (* RLock:   rw.cond.L.Unlock() *)
| Reading         (* RLock returned, RUnlock not called *)
| RUnlock_L       (* RUnlock: rw.cond.L.Lock() *)
| RUnlock_decr    (* RUnlock: rw.readCount-- *)
| RUnlock_if0     (* RUnlock: if rw.readCount == 0 { Signal } *)
| RUnlock_if64    (* RUnlock: if rw.readCount <= 64 { Signal } *)
| RUnlock_unlock. (* RUnlock: rw.cond.L.Unlock() *)

(** [rwmutex{cond, readCount}] with [cond] spelled out as its mutex [L]
    (locked or not) and its list of parked goroutines, oldest first;
    [gs] gives the statement each goroutine is at. *)
Record state : Type :=
  { L : bool; notify : list nat; readCount : Z; gs : list pc }.

(** [NewRWMutex], with [n] goroutines that have not called anything. *)
Definition NewRWMutex (n : nat) : state :=
  {| L := false; notify := []; readCount := 0; gs := replicate n Idle |}.

Definition goto (g : nat) (p : pc) (s : state) : state :=
  {| L := L s; notify := notify s; readCount := readCount s;
     gs := <[g := p]> (gs s) |}.

Definition set_L (b : bool) (s : state) : state :=
  {| L := b; notify := notify s; readCount := readCount s; gs := gs s |}.

Definition set_readCount (z : Z) (s : state) : state :=
  {| L := L s; notify := notify s; readCount := z; gs := gs s |}.

(** [cond.Wait()] up to parking: join the notify list, unlock [L]. *)
Definition park (g : nat) (s : state) : state :=
  {| L := false; notify := notify s ++ [g]; readCount := readCount s;
     gs := gs s |}.

(** [cond.Signal()]: the goroutine parked longest, if any, is notified. *)
Definition Signal (s : state) : state :=
  match notify s with
  | [] => s
  | w :: rest =>
      {| L := L s; notify := rest; readCount := readCount s;
         gs := match gs s !! w with
               | Some Lock_parked => <[w := Lock_woken]> (gs s)
               | Some RLock_parked => <[w := RLock_woken]> (gs s)
               | _ => gs s
               end |}
  end.

Inductive event : Type :=
| Call (g : nat) (m : method)   (* goroutine [g] enters method [m] *)
| Run (g : nat).                (* goroutine [g] executes its statement *)

(** One move; [None] when the goroutine cannot move (it is blocked on [L],
    parked, or the call is not allowed where it is: [Unlock] and [RUnlock]
    are for the holder of the matching lock only). *)
Definition step (e : event) (s : state) : option state :=
  match e with
  | Call g m =>
      match gs s !! g, m with
      | Some Idle, MLock => Some (goto g Lock_L s)
      | Some Idle, MRLock => Some (goto g RLock_L s)
      | Some Writing, MUnlock => Some (goto g Unlock_signal s)
      | Some Reading, MRUnlock => Some (goto g RUnlock_L s)
      | _, _ => None
      end
  | Run g =>
      match gs s !! g with
      | Some Lock_L | Some Lock_woken =>
          if L s then None else Some (goto g Lock_test (set_L true s))
      | Some Lock_test =>
          if negb (readCount s =? 0) then Some (goto g Lock_parked (park g s))
          else Some (goto g Writing s)
      | Some Unlock_signal => Some (goto g Unlock_L (Signal s))
      | Some Unlock_L => Some (goto g Idle (set_L false s))
      | Some RLock_L | Some RLock_woken =>
          if L s then None else Some (goto g RLock_test (set_L true s))
      | Some RLock_test =>
          if readCount s >? 64 then Some (goto g RLock_parked (park g s))
          else Some (goto g RLock_incr s)
      | Some RLock_incr =>
          Some (goto g RLock_unlock (set_readCount (wrap64 (readCount s + 1)) s))
      | Some RLock_unlock => Some (goto g Reading (set_L false s))
      | Some RUnlock_L =>
          if L s then None else Some (goto g RUnlock_decr (set_L true s))
      | Some RUnlock_decr =>
          Some (goto g RUnlock_if0 (set_readCount (wrap64 (readCount s - 1)) s))
      | Some RUnlock_if0 =>
          Some (goto g RUnlock_if64 (if readCount s =? 0 then Signal s else s))
      | Some RUnlock_if64 =>
          Some (goto g RUnlock_unlock (if readCount s <=? 64 then Signal s else s))
      | Some RUnlock_unlock => Some (goto g Idle (set_L false s))
      | Some Idle | Some Lock_parked | Some Writing | Some RLock_parked
      | Some Reading | None => None
      end
  end.

Fixpoint run (evs : list event) (s : state) : option state :=
  match evs with
  | [] => Some s
  | e :: rest => step e s ≫= run rest
  end.

(** A state some schedule of some calls of [n] goroutines leads to. *)
Definition reachable (n : nat) (s : state) : Prop :=
  exists evs, run evs (NewRWMutex n) = Some s.

Definition is_Reading (p : pc) : bool :=
  match p with Reading => true | _ => false end.

(** The goroutines between the return of [RLock] and the call of the
    matching [RUnlock]. *)
Definition readers_inside (s : state) : nat :=
  length (List.filter is_Reading (gs s)).

(** ** Counting goroutines *)

Definition count (P : pc -> bool) (l : list pc) : Z :=
  Z.of_nat (length (List.filter P l)).

(** The goroutine holds the mutex [L] of the condition variable. *)
Definition holds_L (p : pc) : bool :=
  match p with
  | Lock_test | Writing | Unlock_signal | Unlock_L
  | RLock_test | RLock_incr | RLock_unlock
  | RUnlock_decr | RUnlock_if0 | RUnlock_if64 | RUnlock_unlock => true
  | _ => false
  end.

(** The goroutine has incremented [readCount] and not yet decremented it. *)
Definition counted (p : pc) : bool :=
  match p with
  | RLock_unlock | Reading | RUnlock_L | RUnlock_decr => true
  | _ => false
  end.

(** The goroutine has passed the test of [RLock] and is about to
    increment. *)
Definition at_incr (p : pc) : bool :=
  match p with RLock_incr => true | _ => false end.

Definition holds_L_elsewhere (p : pc) : bool := holds_L p && negb (at_incr p).

(** What every reachable state satisfies: at most one goroutine holds
    [L], and [L] is locked exactly then; [readCount] counts the goroutines
    between their increment and their decrement; a goroutine about to
    increment has seen [readCount <= 64]. *)
Record invariant (s : state) : Prop :=
  { inv_L : count holds_L (gs s) = if L s then 1 else 0;
    inv_readCount : readCount s = count counted (gs s);
    inv_incr : 0 < count at_incr (gs s) -> readCount s <= 64;
    inv_cap : readCount s <= 65 }.

(** The goroutine has returned from [Lock] and not yet from [Unlock]. *)
Definition in_write (p : pc) : bool :=
  match p with Writing | Unlock_signal | Unlock_L => true | _ => false end.

Definition holds_L_reading (p : pc) : bool := holds_L p && negb (in_write p).

Definition is_Writing (p : pc) : bool :=
  match p with Writing => true | _ => false end.

(** The goroutines between the return of [Lock] and the call of the
    matching [Unlock]. *)
Definition writers_inside (s : state) : nat :=
  length (List.filter is_Writing (gs s)).

(** Goroutine [g] calls [RLock] and runs it to its return, alone. *)
Definition rlock_alone (g : nat) : list event :=
  [Call g MRLock; Run g; Run g; Run g; Run g].

End Lock.

(* ===================================================================== *)
(** * package queue *)
(* ===================================================================== *)

(** The queue as one goroutine at a time sees it: the loads, stores and
    compare-and-swaps of [Enqueue] and [Dequeue] in program order on a
    store of tasks.  [head] and [tail] alias tasks of the store. *)
Module Queue.
Import F64.

(** [task{byteTask, next}]; a [*task] is nil ([None]) or an address. *)
Record task : Type := { byteTask : bytes; next : option nat }.

(** The tasks allocated so far (the address of a task is its index) and
    the two pointers of [queue]. *)
Record queue : Type := { store : list task; head : nat; tail : nat }.

Record Data : Type :=
  { Command : string; Id : Z; Body : string; Timestamp : float64;
    Value : string }.

(** [new(task)]: both fields zero. *)
Definition NewQueue : queue :=
  {| store := [{| byteTask := []; next := None |}]; head := 0; tail := 0 |}.

(** [atomic.CompareAndSwapPointer(&q.tail, old, new)] *)
Definition CAS_tail (old new : nat) (q : queue) : queue * bool :=
  if Nat.eqb (tail q) old
  then ({| store := store q; head := head q; tail := new |}, true)
  else (q, false).

(** [atomic.CompareAndSwapPointer(&q.head, old, new)] *)
Definition CAS_head (old new : nat) (q : queue) : queue * bool :=
  if Nat.eqb (head q) old
  then ({| store := store q; head := new; tail := tail q |}, true)
  else (q, false).

Definition ptr_eqb (a b : option nat) : bool :=
  match a, b with
  | None, None => true
  | Some x, Some y => Nat.eqb x y
  | _, _ => false
  end.

(** [atomic.CompareAndSwapPointer(&t.next, old, new)] for the task at
    address [a]; no result if [a] is not an allocated task. *)
Definition CAS_next (a : nat) (old new : option nat) (q : queue)
  : option (queue * bool) :=
  t ← store q !! a;
  if ptr_eqb (next t) old
  then Some ({| store := <[a := {| byteTask := byteTask t; next := new |}]> (store q);
                head := head q; tail := tail q |}, true)
  else Some (q, false).

(** The loop of [Enqueue] and the compare-and-swap after it; [n] is the
    address of [newTask].  [fuel] bounds the iterations; [None] when it
    runs out, or on a dereference of an address that is not allocated. *)
Fixpoint Enqueue_loop (fuel : nat) (n : nat) (q : queue) : option queue :=
  match fuel with
  | O => None
  | S fuel' =>
      let expectTail := tail q in
      t ← store q !! expectTail;
      let expectTailNext := next t in
      if negb (Nat.eqb (tail q) expectTail) then Enqueue_loop fuel' n q
      else
        match expectTailNext with
        | Some tn => Enqueue_loop fuel' n (CAS_tail expectTail tn q).1
        | None =>
            match CAS_next (tail q) expectTailNext (Some n) q with
            | None => None
            | Some (q', success) =>
                if success then Some (CAS_tail expectTail n q').1
                else Enqueue_loop fuel' n q'
            end
        end
  end.

(** [Enqueue]: allocate [newTask(byteTask, nil)], then the loop.  Run by
    one goroutine, every iteration but the last moves [tail] one task
    ahead, so one iteration per allocated task is enough fuel. *)
Definition Enqueue (byteTask : bytes) (q : queue) : option queue :=
  let n := length (store q) in
  let q1 := {| store := store q ++ [{| byteTask := byteTask; next := None |}];
               head := head q; tail := tail q |} in
  Enqueue_loop (S (length (store q1))) n q1.

Section Dequeue.
(** [json.Marshal] on a [Data] (its error is dropped). *)
Variable Marshal : Data -> bytes.

Definition sentinel : bytes :=
  Marshal {| Command := ""; Id := 0; Body := ""; Timestamp := of_Z 0;
             Value := "sentinel" |}.

(** The loop of [Dequeue]: the returned bytes and the queue. *)
Fixpoint Dequeue_loop (fuel : nat) (q : queue) : option (bytes * queue) :=
  match fuel with
  | O => None
  | S fuel' =>
      let expectSentinel := head q in
      s ← store q !! expectSentinel;
      let expectRemoved := next s in
      let expectTail := tail q in
      if negb (Nat.eqb (head q) expectSentinel) then Dequeue_loop fuel' q
      else
        match expectRemoved with
        | None => Some (sentinel, q)
        | Some r =>
            if Nat.eqb expectTail expectSentinel
            then Dequeue_loop fuel' (CAS_tail expectTail r q).1
            else
              removed ← store q !! r;
              let dequeued := byteTask removed in
              let c := CAS_head expectSentinel r q in
              if c.2 then Some (dequeued, c.1)
              else Dequeue_loop fuel' c.1
        end
  end.

Definition Dequeue (q : queue) : option (bytes * queue) :=
  Dequeue_loop (S (length (store q))) q.

(** ** Sequences of calls by one goroutine *)

Inductive call : Type := Enq (payload : bytes) | Deq.

(** The calls in order; the values the [Dequeue]s returned. *)
Fixpoint run (calls : list call) (q : queue) : option (queue * list bytes) :=
  match calls with
  | [] => Some (q, [])
  | Enq p :: rest => Enqueue p q ≫= run rest
  | Deq :: rest =>
      '(d, q1) ← Dequeue q;
      '(q2, ds) ← run rest q1;
      Some (q2, d :: ds)
  end.

(** ** The functional FIFO of the specification *)

(** The pending payloads, oldest first.  [Dequeue] yields the oldest, or
    the empty marker. *)
Definition fifo_enqueue (p : bytes) (pending : list bytes) : list bytes :=
  pending ++ [p].

Definition fifo_dequeue (pending : list bytes) : bytes * list bytes :=
  match pending with
  | [] => (sentinel, [])
  | p :: rest => (p, rest)
  end.

Fixpoint fifo_run (calls : list call) (pending : list bytes)
  : list bytes * list bytes :=
  match calls with
  | [] => (pending, [])
  | Enq p :: rest => fifo_run rest (fifo_enqueue p pending)
  | Deq :: rest =>
      let d := fifo_dequeue pending in
      let r := fifo_run rest d.2 in
      (r.1, d.1 :: r.2)
  end.
End Dequeue.

(** The payloads given to [Enqueue], in order. *)
Fixpoint enqueued (calls : list call) : list bytes :=
  match calls with
  | [] => []
  | Enq p :: rest => p :: enqueued rest
  | Deq :: rest => enqueued rest
  end.

(** The payloads handed out by the [Dequeue]s that found the FIFO
    non-empty, in order. *)
Fixpoint served (calls : list call) (pending : list bytes) : list bytes :=
  match calls with
  | [] => []
  | Enq p :: rest => served rest (pending ++ [p])
  | Deq :: rest =>
      match pending with
      | [] => served rest []
      | p :: pending' => p :: served rest pending'
      end
  end.

Definition bytes_eqb (a b : bytes) : bool :=
  if List.list_eq_dec Byte.byte_eq_dec a b then true else false.

(** The returned values that are not, byte for byte, the empty marker. *)
Definition not_marker (marker : bytes) (outs : list bytes) : list bytes :=
  List.filter (fun d => negb (bytes_eqb d marker)) outs.

(** ** What a queue holds *)

(** From the task at [a], the [next] pointers lead through tasks carrying
    [items] to the task at [last], whose [next] is nil. *)
Fixpoint chain (st : list task) (a : nat) (items : list bytes) (last : nat) : Prop :=
  match items with
  | [] => a = last /\ exists b, st !! a = Some {| byteTask := b; next := None |}
  | x :: rest =>
      exists b a', st !! a = Some {| byteTask := b; next := Some a' |} /\
                   (exists n', st !! a' = Some {| byteTask := x; next := n' |}) /\
                   chain st a' rest last
  end.

(** [head] is a sentinel followed by the tasks of [items]; [tail] is the
    last task. *)
Definition holds (q : queue) (items : list bytes) : Prop :=
  chain (store q) (head q) items (tail q).

(** [tail] lags: it is the task in front of the last one, as an
    [Enqueue] leaves it between its two compare-and-swaps. *)
Definition lagging (q : queue) (items : list bytes) : Prop :=
  exists last b,
    chain (store q) (head q) items last /\
    store q !! tail q = Some {| byteTask := b; next := Some last |}.

End Queue.

(* ===================================================================== *)
(** * package main *)
(* ===================================================================== *)

Module Twitter.
Import F64.

(** A Go [error] that is not nil. *)
Definition error : Type := string.

Record ClientMessage : Type :=
  { Command : string; Id : Z; Body : string; Timestamp : float64;
    Value : string }.

Record PostData : Type := { PostBody : string; PostTimestamp : float64 }.

(** What a print statement of the program writes. *)
Inductive line : Type :=
| usage_line                                  (* the text of printUsage *)
| error_line (err : error)                    (* fmt.Println("error: ", err) *)
| success_line (Success : bool) (id : Z)      (* a ServerSuccessMessage *)
| feed_line (id : Z) (Feed : list PostData).  (* a ServerFeedMessage *)

(** [os.Stdout] and [os.Stderr]: the lines written so far. *)
Record streams : Type := { Stdout : list line; Stderr : list line }.

(** [fmt.Println], [fmt.Printf]: both write to [os.Stdout]. *)
Definition Println (l : line) (out : streams) : streams :=
  {| Stdout := Stdout out ++ [l]; Stderr := Stderr out |}.

Definition printUsage (out : streams) : streams := Println usage_line out.

(** Nothing was written to the error stream and the usage text was not
    printed. *)
Definition plain (o : streams) : Prop :=
  Stderr o = [] /\ ~ In usage_line (Stdout o).

Section Program.
(** The standard library: [json.Unmarshal] into a zero [ClientMessage]
    and into a zero [PostData] (the value left in the target, and the
    error), [json.Marshal] on the two records it is given,
    [strconv.ParseInt(s, 10, 64)] with its error dropped. *)
Variable UnmarshalClient : bytes -> ClientMessage * option error.
Variable UnmarshalPost : bytes -> PostData * option error.
Variable MarshalPost : Feed.postBodyTimestamp -> bytes.
Variable MarshalData : Queue.Data -> bytes.
Variable ParseInt : string -> Z.
(** The runtime: the capacity [append] gives a new backing array. *)
Variable growslice : nat -> nat -> nat.

Definition addPostTask (feed : Feed.feed) (task : ClientMessage) (out : streams)
  : result (Feed.feed * streams) :=
  f ← Feed.Add feed (Body task) (Timestamp task);
  Some (f, Println (success_line true (Id task)) out).

Definition removePostTask (feed : Feed.feed) (task : ClientMessage) (out : streams)
  : result (Feed.feed * streams) :=
  match Feed.Remove feed (Timestamp task) with
  | None => None
  | Some (f, removedBool) => Some (f, Println (success_line removedBool (Id task)) out)
  end.

Definition containsPostTask (feed : Feed.feed) (task : ClientMessage) (out : streams)
  : result (Feed.feed * streams) :=
  containsBool ← Feed.Contains feed (Timestamp task);
  Some (feed, Println (success_line containsBool (Id task)) out).

(** The loop of [showFeedTask] over [postByteArray]. *)
Fixpoint decode_posts (postByteArray : list bytes) (feedArray : list PostData)
  (out : streams) : list PostData * streams :=
  match postByteArray with
  | [] => (feedArray, out)
  | post :: rest =>
      let '(pd, err) := UnmarshalPost post in
      let out1 := match err with
                  | Some e => Println (error_line e) out
                  | None => out
                  end in
      decode_posts rest (feedArray ++ [pd]) out1
  end.

Definition showFeedTask (feed : Feed.feed) (task : ClientMessage) (out : streams)
  : result (Feed.feed * streams) :=
  postByteArray ← Feed.ShowFeed MarshalPost growslice feed;
  let '(feedArray, out1) := decode_posts postByteArray [] out in
  Some (feed, Println (feed_line (Id task) feedArray) out1).

(** The chain of [if task.Command == ...] of [consumer]. *)
Definition perform (feed : Feed.feed) (task : ClientMessage) (out : streams)
  : result (Feed.feed * streams) :=
  if String.eqb (Command task) "ADD" then addPostTask feed task out
  else if String.eqb (Command task) "REMOVE" then removePostTask feed task out
  else if String.eqb (Command task) "CONTAINS" then containsPostTask feed task out
  else if String.eqb (Command task) "FEED" then showFeedTask feed task out
  else Some (feed, out).

(** ** Sequential mode: the loop in the first branch of [main] *)
Fixpoint sequential (stdin : list string) (feed : Feed.feed) (out : streams)
  : result (Feed.feed * streams) :=
  match stdin with
  | [] => Some (feed, out)
  | task :: rest =>
      let taskJSONBytes := list_byte_of_string task in
      let '(cm, err) := UnmarshalClient taskJSONBytes in
      let out1 := match err with
                  | Some e => Println (error_line e) out
                  | None => out
                  end in
      if String.eqb (Command cm) "ADD" then
        addPostTask feed cm out1 ≫= (fun r => sequential rest r.1 r.2)
      else if String.eqb (Command cm) "REMOVE" then
        removePostTask feed cm out1 ≫= (fun r => sequential rest r.1 r.2)
      else if String.eqb (Command cm) "CONTAINS" then
        containsPostTask feed cm out1 ≫= (fun r => sequential rest r.1 r.2)
      else if String.eqb (Command cm) "FEED" then
        showFeedTask feed cm out1 ≫= (fun r => sequential rest r.1 r.2)
      else if String.eqb (Command cm) "DONE" then Some (feed, out1)
      else sequential rest feed out1
  end.

(** ** Concurrent mode *)

(** What the producer and the consumers share: the queue, the feed, the
    two fields of [SharedContext] that carry data, and the streams.
    (The mutex, the condition variable and the wait group only delay
    goroutines.) *)
Record shared : Type :=
  { queue : Queue.queue; feed : Feed.feed; numOfTasks : Z; doneBool : bool;
    out : streams }.

Definition set_out (o : streams) (sh : shared) : shared :=
  {| queue := queue sh; feed := feed sh; numOfTasks := numOfTasks sh;
     doneBool := doneBool sh; out := o |}.

Definition set_queue (q : Queue.queue) (sh : shared) : shared :=
  {| queue := q; feed := feed sh; numOfTasks := numOfTasks sh;
     doneBool := doneBool sh; out := out sh |}.

(** [atomic.AddInt64(ctx.numOfTasks, delta)] *)
Definition AddInt64 (delta : Z) (sh : shared) : shared :=
  {| queue := queue sh; feed := feed sh;
     numOfTasks := wrap64 (numOfTasks sh + delta);
     doneBool := doneBool sh; out := out sh |}.

Definition set_doneBool (b : bool) (sh : shared) : shared :=
  {| queue := queue sh; feed := feed sh; numOfTasks := numOfTasks sh;
     doneBool := b; out := out sh |}.

Definition set_feed (f : Feed.feed) (sh : shared) : shared :=
  {| queue := queue sh; feed := f; numOfTasks := numOfTasks sh;
     doneBool := doneBool sh; out := out sh |}.

(** The loop of [producer] over the lines the scanner yields. *)
Fixpoint producer (stdin : list string) (sh : shared) : result shared :=
  match stdin with
  | [] => Some sh
  | task :: rest =>
      let taskJSONBytes := list_byte_of_string task in
      let '(cm, err) := UnmarshalClient taskJSONBytes in
      let sh1 := match err with
                 | Some e => set_out (Println (error_line e) (out sh)) sh
                 | None => sh
                 end in
      if negb (String.eqb (Command cm) "DONE") then
        q ← Queue.Enqueue taskJSONBytes (queue sh1);
        producer rest (AddInt64 1 (set_queue q sh1))
      else Some (set_doneBool true sh1)
  end.

(** The loop [for i := int64(0); i < block; i++] of [consumer], with
    [i] iterations to go. *)
Fixpoint drain (i : nat) (sh : shared) (blockOfTasks : list ClientMessage)
  : result (shared * list ClientMessage) :=
  match i with
  | O => Some (sh, blockOfTasks)
  | S i' =>
      match Queue.Dequeue MarshalData (queue sh) with
      | None => None
      | Some (d, q) =>
          let sh1 := set_queue q sh in
          let '(cm, err) := UnmarshalClient d in
          match err with
          | Some e => Some (set_out (Println (error_line e) (out sh1)) sh1, blockOfTasks)
          | None =>
              if String.eqb (Value cm) "sentinel" then Some (sh1, blockOfTasks)
              else drain i' (AddInt64 (-1) sh1) (blockOfTasks ++ [cm])
          end
      end
  end.

(** [for _, task := range(blockOfTasks)] *)
Fixpoint perform_all (blockOfTasks : list ClientMessage) (sh : shared)
  : result shared :=
  match blockOfTasks with
  | [] => Some sh
  | task :: rest =>
      match perform (feed sh) task (out sh) with
      | None => None
      | Some (f, o) => perform_all rest (set_out o (set_feed f sh))
      end
  end.

(** One turn of the outer loop of [consumer] from the end of its wait
    on, with no other goroutine moving meanwhile: the shared state
    afterwards and the flag [exit]. *)
Definition consumer_turn (block : Z) (sh : shared) : result (shared * bool) :=
  match drain (Z.to_nat block) sh [] with
  | None => None
  | Some (sh1, blockOfTasks) =>
      let exit := doneBool sh1 && (numOfTasks sh1 =? 0) in
      sh2 ← perform_all blockOfTasks sh1;
      Some (sh2, exit)
  end.

(** The loop [for true] of [consumer], run by a goroutine while no other
    goroutine moves; [fuel] bounds its turns.  A goroutine that finds
    [numOfTasks == 0] and [doneBool] unset waits on the condition variable,
    and with nobody to signal it does not return. *)
Fixpoint consumer (fuel : nat) (block : Z) (sh : shared) : result shared :=
  match fuel with
  | O => None
  | S fuel' =>
      if (numOfTasks sh =? 0) && negb (doneBool sh) then None
      else
        match consumer_turn block sh with
        | None => None
        | Some (sh1, exit) => if exit then Some sh1 else consumer fuel' block sh1
        end
  end.

(** The tasks of a block, run on a feed and the streams alone. *)
Fixpoint perform_each (blockOfTasks : list ClientMessage)
  (fo : Feed.feed * streams) : result (Feed.feed * streams) :=
  match blockOfTasks with
  | [] => Some fo
  | task :: rest =>
      match perform fo.1 task fo.2 with
      | None => None
      | Some fo1 => perform_each rest fo1
      end
  end.

(** The diagnostics the decode errors of [lines] give rise to. *)
Definition decode_errors (lines : list string) : list line :=
  flat_map (fun l => match (UnmarshalClient (list_byte_of_string l)).2 with
                     | Some e => [error_line e]
                     | None => []
                     end) lines.

(** A payload the drain loop stops at: decoding reports an error, or the
    decoded value field is "sentinel". *)
Definition stops_drain (d : bytes) : bool :=
  match (UnmarshalClient d).2 with
  | Some _ => true
  | None => String.eqb (Value (UnmarshalClient d).1) "sentinel"
  end.

(** ** [main] *)

(** What [main] does: the sequential loop and its result, or the spawn
    of [threads] consumers with block size [block] before [producer]. *)
Inductive mode : Type :=
| Sequential (r : result (Feed.feed * streams))
| Concurrent (threads block : Z) (start : shared).

Definition main (Args : list string) (stdin : list string) : mode :=
  let feed := Feed.NewFeed in
  let queue := Queue.NewQueue in
  if negb (Nat.eqb (length Args) 3) then
    Sequential (sequential stdin feed {| Stdout := []; Stderr := [] |})
  else
    let threads := ParseInt (nth 1 Args ""%string) in
    let block := ParseInt (nth 2 Args ""%string) in
    Concurrent threads block
      {| queue := queue; feed := feed; numOfTasks := 0; doneBool := false;
         out := {| Stdout := []; Stderr := [] |} |}.
End Program.

End Twitter.

(* ===================================================================== *)
(** * Sample inputs *)
(* ===================================================================== *)

(** Input lines for the examples, and what the standard library yields on
    them.  The sample functions are meant for these inputs only; on any
    other input they answer with a syntax error or with no bytes. *)
Module Samples.
Import F64 Twitter.
Local Open Scope string_scope.

Definition dq : string := String "034"%char EmptyString.
Definition quoted (s : string) : string := dq ++ s ++ dq.

Fixpoint members (fields : list (string * string)) : string :=
  match fields with
  | [] => EmptyString
  | [(k, v)] => quoted k ++ ":" ++ v
  | (k, v) :: rest => quoted k ++ ":" ++ v ++ "," ++ members rest
  end.

(** The JSON text of an object. *)
Definition object (fields : list (string * string)) : string :=
  "{" ++ members fields ++ "}".

(** A well-formed ADD request. *)
Definition line_add : string :=
  object [("command", quoted "ADD"); ("id", "1"); ("body", quoted "hi");
          ("timestamp", "10")].

(** An ADD request cut off after the command: not JSON. *)
Definition line_truncated : string :=
  "{" ++ quoted "command" ++ ":" ++ quoted "ADD".

(** An ADD request without body and timestamp. *)
Definition line_no_fields : string :=
  object [("command", quoted "ADD"); ("id", "2")].

(** An ADD request that carries a value field. *)
Definition line_spoof : string :=
  object [("command", quoted "ADD"); ("id", "3"); ("body", quoted "x");
          ("timestamp", "5"); ("value", quoted "sentinel")].

Definition line_done : string := object [("command", quoted "DONE")].

(** [json.Marshal(Data{Value: "sentinel"})]: every field of [Data] is
    written, in the order of the struct. *)
Definition sentinel_text : string :=
  object [("command", quoted ""); ("id", "0"); ("body", quoted "");
          ("timestamp", "0"); ("value", quoted "sentinel")].

Definition zero_message : ClientMessage :=
  {| Command := ""; Id := 0; Body := ""; Timestamp := of_Z 0; Value := "" |}.

(** [json.Unmarshal] into a zero [ClientMessage]: a missing key leaves
    the field zero; on text that is not JSON the target is left as it is
    and a syntax error is returned. *)
Definition UnmarshalClient (data : bytes) : ClientMessage * option error :=
  let text := string_of_list_byte data in
  if text =? line_add then
    ({| Command := "ADD"; Id := 1; Body := "hi"; Timestamp := of_Z 10;
        Value := "" |}, None)
  else if text =? line_no_fields then
    ({| Command := "ADD"; Id := 2; Body := ""; Timestamp := of_Z 0;
        Value := "" |}, None)
  else if text =? line_spoof then
    ({| Command := "ADD"; Id := 3; Body := "x"; Timestamp := of_Z 5;
        Value := "sentinel" |}, None)
  else if text =? line_done then
    ({| Command := "DONE"; Id := 0; Body := ""; Timestamp := of_Z 0;
        Value := "" |}, None)
  else if text =? sentinel_text then
    ({| Command := ""; Id := 0; Body := ""; Timestamp := of_Z 0;
        Value := "sentinel" |}, None)
  else (zero_message, Some "unexpected end of JSON input").

Definition MarshalData (d : Queue.Data) : bytes :=
  if (Queue.Value d =? "sentinel") && (Queue.Command d =? "")
     && (Queue.Body d =? "") && (Queue.Id d =? 0)%Z
     && SFeqb (Queue.Timestamp d) (of_Z 0)
  then list_byte_of_string sentinel_text
  else [].

(** No example asks for the feed. *)
Definition MarshalPost (p : Feed.postBodyTimestamp) : bytes := [].

Definition UnmarshalPost (data : bytes) : PostData * option error :=
  ({| PostBody := ""; PostTimestamp := of_Z 0 |},
   Some "unexpected end of JSON input").

(** [strconv.ParseInt(s, 10, 64)] on one decimal digit. *)
Definition ParseInt (s : string) : Z :=
  match s with
  | String c EmptyString =>
      let d := Z.of_nat (nat_of_ascii c) - 48 in
      if (0 <=? d)%Z && (d <=? 9)%Z then d else 0%Z
  | _ => 0%Z
  end.

(** New backing arrays of twice the capacity. *)
Definition growslice (oldcap needed : nat) : nat := (2 * oldcap)%nat.

(** [json.Marshal(postBodyTimestamp{"hi", 10})]: the keys are the names
    of the fields. *)
Definition post_text : string :=
  object [("Body", quoted "hi"); ("Timestamp", "10")].

Definition MarshalPost_hi (p : Feed.postBodyTimestamp) : bytes :=
  if (Feed.Body p =? "hi") && SFeqb (Feed.Timestamp p) (of_Z 10)
  then list_byte_of_string post_text
  else [].

(** [json.Unmarshal] into a zero [PostData]: keys match the tags of the
    fields whatever their case. *)
Definition UnmarshalPost_hi (data : bytes) : PostData * option error :=
  if string_of_list_byte data =? post_text
  then ({| PostBody := "hi"; PostTimestamp := of_Z 10 |}, None)
  else ({| PostBody := ""; PostTimestamp := of_Z 0 |},
        Some "unexpected end of JSON input").

Definition add_message : ClientMessage :=
  {| Command := "ADD"; Id := 1; Body := "hi"; Timestamp := of_Z 10; Value := "" |}.

Definition feed_message : ClientMessage :=
  {| Command := "FEED"; Id := 4; Body := ""; Timestamp := of_Z 0; Value := "" |}.

Definition done_message : ClientMessage :=
  {| Command := "DONE"; Id := 0; Body := ""; Timestamp := of_Z 0; Value := "" |}.

Definition marker_message : ClientMessage :=
  {| Command := ""; Id := 0; Body := ""; Timestamp := of_Z 0; Value := "sentinel" |}.

Definition silent : streams := {| Stdout := []; Stderr := [] |}.

(** A new queue after one [Enqueue] of [payload]. *)
Definition queue_of_one (payload : string) : Queue.queue :=
  {| Queue.store := [ {| Queue.byteTask := []; Queue.next := Some 1%nat |};
                      {| Queue.byteTask := list_byte_of_string payload;
                         Queue.next := None |} ];
     Queue.head := 0; Queue.tail := 1 |}.

(** The shared state after the producer has read [payload] and DONE. *)
Definition after_producer (payload : string) : shared :=
  {| queue := queue_of_one payload; feed := Feed.NewFeed; numOfTasks := 1;
     doneBool := true; out := silent |}.

(** The shared state [main] starts the goroutines with. *)
Definition start : shared :=
  {| queue := Queue.NewQueue; feed := Feed.NewFeed; numOfTasks := 0;
     doneBool := false; out := {| Stdout := []; Stderr := [] |} |}.

End Samples.

(* ===================================================================== *)
(** * Facts: the order of float64 *)
(* ===================================================================== *)

Section F64_order.
Import F64.

Lemma ltb_rank (x y : float64) :
  is_nan x = false -> is_nan y = false ->
  ltb x y = true <-> lex_lt (rank x) (rank y).
Proof.
  intros Hx Hy.
  destruct x as [sx|sx| |sx mx ex], y as [sy|sy| |sy my ey];
    try discriminate; try destruct sx; try destruct sy;
    unfold ltb, SFltb, SFcompare, lex_lt, rank;
    try (split; [intros; try discriminate; lia | intros; try reflexivity; lia]).
  all: change (Pos.compare_cont Eq mx my) with (Pos.compare mx my).
  all: destruct (Z.compare_spec ex ey); destruct (Pos.compare_spec mx my);
    simpl; split; intros; try reflexivity; try discriminate; lia.
Qed.

Lemma eqb_rank (x y : float64) :
  is_nan x = false -> is_nan y = false ->
  eqb x y = true <-> rank x = rank y.
Proof.
  intros Hx Hy.
  destruct x as [sx|sx| |sx mx ex], y as [sy|sy| |sy my ey];
    try discriminate; try destruct sx; try destruct sy;
    unfold eqb, SFeqb, SFcompare, rank;
    try (split; intros; try reflexivity; discriminate).
  all: change (Pos.compare_cont Eq mx my) with (Pos.compare mx my).
  all: destruct (Z.compare_spec ex ey); destruct (Pos.compare_spec mx my);
    simpl; split; intros H1; try reflexivity; try discriminate;
    try (f_equal; [f_equal; lia | lia]);
    injection H1; intros; lia.
Qed.

Lemma finite_not_nan x : finite x = true -> is_nan x = false.
Proof. destruct x; simpl; congruence. Qed.

Lemma ltb_nan_l x y : ltb x y = true -> is_nan x = false.
Proof. destruct x; try reflexivity. discriminate. Qed.

Lemma ltb_nan_r x y : ltb x y = true -> is_nan y = false.
Proof. destruct y; try reflexivity. destruct x as [| [|] | |]; discriminate. Qed.

Lemma eqb_nan_l x y : eqb x y = true -> is_nan x = false.
Proof. destruct x; try reflexivity. discriminate. Qed.

Lemma eqb_nan_r x y : eqb x y = true -> is_nan y = false.
Proof. destruct y; try reflexivity. destruct x as [| [|] | |]; discriminate. Qed.

Lemma lex_lt_trans a b c : lex_lt a b -> lex_lt b c -> lex_lt a c.
Proof.
  destruct a as [[a1 a2] a3], b as [[b1 b2] b3], c as [[c1 c2] c3].
  unfold lex_lt. lia.
Qed.

Lemma lex_lt_irrefl a : ~ lex_lt a a.
Proof. destruct a as [[a1 a2] a3]. unfold lex_lt. lia. Qed.

Lemma lex_lt_total a b : lex_lt a b \/ a = b \/ lex_lt b a.
Proof.
  destruct a as [[a1 a2] a3], b as [[b1 b2] b3]. unfold lex_lt.
  destruct (Z.lt_total a1 b1) as [?|[?|?]]; [lia| |lia].
  destruct (Z.lt_total a2 b2) as [?|[?|?]]; [lia| |lia].
  destruct (Z.lt_total a3 b3) as [?|[?|?]]; [lia| |lia].
  right; left. congruence.
Qed.

Lemma ltb_trans x y z : ltb x y = true -> ltb y z = true -> ltb x z = true.
Proof.
  intros Hxy Hyz.
  pose proof (ltb_nan_l _ _ Hxy). pose proof (ltb_nan_r _ _ Hxy).
  pose proof (ltb_nan_r _ _ Hyz).
  apply ltb_rank in Hxy, Hyz; try assumption.
  apply ltb_rank; try assumption. eapply lex_lt_trans; eassumption.
Qed.

Lemma ltb_irrefl x : ltb x x = false.
Proof.
  destruct (ltb x x) eqn:E; [|reflexivity].
  pose proof (ltb_nan_l _ _ E). apply ltb_rank in E; try assumption.
  destruct (lex_lt_irrefl _ E).
Qed.

(** Trichotomy off NaN. *)
Lemma ltb_total x y :
  is_nan x = false -> is_nan y = false ->
  ltb x y = false -> eqb x y = false -> ltb y x = true.
Proof.
  intros Hx Hy Hlt Heq. apply ltb_rank; try assumption.
  destruct (lex_lt_total (rank x) (rank y)) as [H|[H|H]]; [| |assumption].
  - apply ltb_rank in H; try assumption. congruence.
  - apply eqb_rank in H; try assumption. congruence.
Qed.

Lemma ltb_asym x y : ltb x y = true -> ltb y x = false.
Proof.
  intros H. destruct (ltb y x) eqn:E; [|reflexivity].
  pose proof (ltb_trans _ _ _ H E) as Hxx. rewrite ltb_irrefl in Hxx. discriminate.
Qed.

Lemma ltb_not_eqb x y : ltb x y = true -> eqb x y = false.
Proof.
  unfold ltb, eqb, SFltb, SFeqb. destruct (SFcompare x y) as [[| |]|]; congruence.
Qed.

Lemma eqb_not_ltb x y : eqb x y = true -> ltb x y = false.
Proof.
  unfold ltb, eqb, SFltb, SFeqb. destruct (SFcompare x y) as [[| |]|]; congruence.
Qed.

Lemma eqb_sym x y : eqb x y = eqb y x.
Proof.
  destruct (is_nan x) eqn:Hx.
  { destruct x; try discriminate. destruct y as [| [|] | |]; reflexivity. }
  destruct (is_nan y) eqn:Hy.
  { destruct y; try discriminate. destruct x as [| [|] | |]; reflexivity. }
  apply eq_true_iff_eq. rewrite !eqb_rank by assumption. split; congruence.
Qed.

Lemma eqb_refl x : is_nan x = false -> eqb x x = true.
Proof. intros H. apply eqb_rank; auto. Qed.

(** [==] values are interchangeable under [<] and [==]. *)
Lemma eqb_ltb_l x y z : eqb x y = true -> ltb x z = ltb y z.
Proof.
  intros H. pose proof (eqb_nan_l _ _ H) as Hx. pose proof (eqb_nan_r _ _ H) as Hy.
  apply eqb_rank in H; try assumption.
  destruct (is_nan z) eqn:Hz.
  { destruct z; try discriminate. destruct x as [| [|] | |], y as [| [|] | |]; reflexivity. }
  apply eq_true_iff_eq. rewrite !ltb_rank by assumption. rewrite H. tauto.
Qed.

Lemma eqb_ltb_r x y z : eqb x y = true -> ltb z x = ltb z y.
Proof.
  intros H. pose proof (eqb_nan_l _ _ H) as Hx. pose proof (eqb_nan_r _ _ H) as Hy.
  apply eqb_rank in H; try assumption.
  destruct (is_nan z) eqn:Hz.
  { destruct z; try discriminate. reflexivity. }
  apply eq_true_iff_eq. rewrite !ltb_rank by assumption. rewrite H. tauto.
Qed.

Lemma eqb_eqb_l x y z : eqb x y = true -> eqb x z = eqb y z.
Proof.
  intros H. pose proof (eqb_nan_l _ _ H) as Hx. pose proof (eqb_nan_r _ _ H) as Hy.
  apply eqb_rank in H; try assumption.
  destruct (is_nan z) eqn:Hz.
  { destruct z; try discriminate. destruct x as [| [|] | |], y as [| [|] | |]; reflexivity. }
  apply eq_true_iff_eq. rewrite !eqb_rank by assumption. rewrite H. tauto.
Qed.

Lemma finite_ltb_pinf x : finite x = true -> ltb x pinf = true.
Proof. destruct x as [| | |[|] ? ?]; simpl; try discriminate; reflexivity. Qed.

Lemma ninf_ltb_finite x : finite x = true -> ltb ninf x = true.
Proof. destruct x as [| | |[|] ? ?]; simpl; try discriminate; reflexivity. Qed.

Lemma finite_eqb_pinf x : finite x = true -> eqb x pinf = false.
Proof. destruct x as [| | |[|] ? ?]; simpl; try discriminate; reflexivity. Qed.

Lemma pinf_ltb x : ltb pinf x = false.
Proof. destruct x as [|[|]| |[|] ? ?]; reflexivity. Qed.

End F64_order.

(* ===================================================================== *)
(** * Facts: slices *)
(* ===================================================================== *)

Section Slice_facts.
Import Slices.
Local Open Scope nat_scope.
Variable growslice : nat -> nat -> nat.

Lemma frame_refl h a k : frame h h a k.
Proof. split; [lia|]. intros b cs H. exists cs. auto. Qed.

Lemma contents_window h s cs :
  h !! array s = Some cs ->
  contents h s = drop (off s) (take (off s + len s) cs).
Proof.
  intros H. unfold contents, cells. rewrite H. apply take_drop_commute.
Qed.

Lemma make0_valid h : valid (make0 h).1 (make0 h).2 /\ contents (make0 h).1 (make0 h).2 = [].
Proof.
  split.
  - exists []. simpl. split; [apply list_lookup_middle; reflexivity|]. simpl. lia.
  - reflexivity.
Qed.

(** [append] yields a valid slice with one more element; it reuses the
    array and the offset of [s], or the array is new. *)
Lemma append_spec h s x :
  valid h s ->
  valid (append growslice h s x).1 (append growslice h s x).2 /\
  contents (append growslice h s x).1 (append growslice h s x).2
  = contents h s ++ [x] /\
  (array (append growslice h s x).2 = array s /\
   off (append growslice h s x).2 = off s /\
   len (append growslice h s x).2 = S (len s)
   \/ length h <= array (append growslice h s x).2).
Proof.
  intros (cs & Hcs & Hcap & Hlen). unfold append.
  pose proof (lookup_lt_Some _ _ _ Hcs) as Hlt.
  destruct (Nat.ltb_spec (len s) (cap s)) as [Hroom|Hfull]; cbn [fst snd].
  - unfold cells. rewrite Hcs.
    assert (<[array s := <[off s + len s := x]> cs]> h !! array s
            = Some (<[off s + len s := x]> cs)) as Hnew
      by (apply list_lookup_insert_eq; exact Hlt).
    split; [|split].
    + eexists. cbn [array off len cap]. split; [exact Hnew|].
      rewrite length_insert. lia.
    + unfold contents, cells. cbn [array off len cap]. rewrite Hnew, Hcs.
      rewrite (take_S_r _ _ x).
      * f_equal. rewrite !take_drop_commute. f_equal. apply take_insert_ge. lia.
      * rewrite lookup_drop. apply list_lookup_insert_eq. lia.
    + left. cbn [array off len]. auto.
  - assert (length (contents h s) = len s) as Hl.
    { unfold contents, cells. rewrite Hcs.
      rewrite length_take, length_drop. lia. }
    split; [|split].
    + eexists. cbn [array off len cap].
      split; [apply list_lookup_middle; reflexivity|].
      rewrite length_app. cbn [length]. rewrite length_replicate, Hl. lia.
    + unfold contents at 1, cells. cbn [array off len cap].
      rewrite list_lookup_middle by reflexivity. rewrite drop_0.
      match goal with |- take _ (_ ++ x :: ?pad) = _ =>
        change (contents h s ++ x :: pad) with (contents h s ++ [x] ++ pad)
      end.
      rewrite app_assoc. apply take_app_length'.
      rewrite length_app, Hl. simpl. lia.
    + right. cbn [array]. lia.
Qed.

(** What [append] leaves alone, seen from an earlier heap [h0]: it writes
    behind the elements of [s], or to an array [h0] does not have. *)
Lemma append_frame h0 h s x a k :
  frame h0 h a k ->
  (array s = a -> k <= off s + len s) ->
  (array s <> a -> length h0 <= array s) ->
  frame h0 (append growslice h s x).1 a k.
Proof.
  intros [Hlen Hold] Hbehind Hfresh. unfold append.
  destruct (Nat.ltb_spec (len s) (cap s)) as [Hroom|Hfull]; cbn [fst].
  - split; [rewrite length_insert; exact Hlen|].
    intros b cs0 Hb. destruct (Hold b cs0 Hb) as (cs1 & Hb1 & Hl1 & Hne1 & Htk1).
    pose proof (lookup_lt_Some _ _ _ Hb) as Hblt.
    destruct (decide (array s = b)) as [E|E].
    + assert (array s = a) as Ea by (destruct (decide (array s = a)); [assumption|]; specialize (Hfresh n); lia).
      exists (<[off s + len s := x]> cs1). subst b.
      unfold cells. rewrite Hb1.
      split; [apply list_lookup_insert_eq; apply (lookup_lt_Some _ _ _ Hb1)|].
      split; [rewrite length_insert; exact Hl1|].
      split; [intros Hn; congruence|].
      rewrite take_insert_ge by (apply Hbehind, Ea). exact Htk1.
    + exists cs1. rewrite list_lookup_insert_ne by exact E. auto.
  - split; [rewrite length_app; simpl; lia|].
    intros b cs0 Hb. destruct (Hold b cs0 Hb) as (cs1 & Hb1 & Hrest).
    exists cs1. split; [apply lookup_app_l_Some, Hb1|exact Hrest].
Qed.

End Slice_facts.

(* ===================================================================== *)
(** * Facts: the feed *)
(* ===================================================================== *)

Section Feed_facts.
Import F64 Feed.

Lemma add_from_link ps b ts :
  add_from (link ps end_sentinel) b ts = Some (link (ins b ts ps) end_sentinel).
Proof.
  induction ps as [|p rest IH]; simpl.
  - rewrite pinf_ltb. reflexivity.
  - destruct (ltb p.2 ts); [rewrite IH|]; reflexivity.
Qed.

Lemma Add_feed_of ps b ts :
  Add (feed_of ps end_sentinel) b ts = Some (feed_of (ins b ts ps) end_sentinel).
Proof. unfold Add, feed_of; simpl. rewrite add_from_link. reflexivity. Qed.

Lemma remove_from_link ps ts :
  finite ts = true ->
  remove_from (link ps end_sentinel) ts
  = Some (link (del ts ps) end_sentinel, found ts ps).
Proof.
  intros Hts. induction ps as [|p rest IH]; simpl.
  - rewrite pinf_ltb. rewrite eqb_sym, finite_eqb_pinf by assumption. reflexivity.
  - destruct (ltb p.2 ts); [rewrite IH; reflexivity|].
    destruct (eqb p.2 ts); reflexivity.
Qed.

Lemma Remove_feed_of ps ts :
  finite ts = true ->
  Remove (feed_of ps end_sentinel) ts
  = Some (feed_of (del ts ps) end_sentinel, found ts ps).
Proof.
  intros Hts. unfold Remove, feed_of; simpl.
  rewrite remove_from_link by assumption. reflexivity.
Qed.

Lemma contains_from_link ps ts :
  finite ts = true ->
  contains_from (link ps end_sentinel) ts = Some (found ts ps).
Proof.
  intros Hts. induction ps as [|p rest IH]; simpl.
  - rewrite pinf_ltb. rewrite eqb_sym, finite_eqb_pinf by assumption. reflexivity.
  - destruct (ltb p.2 ts); [apply IH | reflexivity].
Qed.

(** ** Order *)

Lemma increasing_cons x l :
  increasing (x :: l) = true ->
  increasing l = true /\ forallb (ltb x) l = true.
Proof.
  revert x. induction l as [|y l IH]; intros x H; [split; reflexivity|].
  simpl in H. apply andb_true_iff in H as [Hxy Hl].
  split; [exact Hl|]. simpl. rewrite Hxy. simpl.
  destruct (IH y Hl) as [_ Hall].
  rewrite forallb_forall in Hall |- *. intros z Hz.
  eapply ltb_trans; [exact Hxy | apply Hall, Hz].
Qed.

Lemma increasing_intro x l :
  increasing l = true -> match l with [] => True | y :: _ => ltb x y = true end ->
  increasing (x :: l) = true.
Proof. destruct l; simpl; intros H1 H2; [reflexivity|]. rewrite H2, H1. reflexivity. Qed.

Lemma ins_head b ts ps :
  match ins b ts ps with
  | [] => False
  | q :: _ => q = (b, ts) \/ (exists rest, ps = q :: rest /\ ltb q.2 ts = true)
  end.
Proof.
  destruct ps as [|p rest]; simpl; [left; reflexivity|].
  destruct (ltb p.2 ts) eqn:E; [right; eauto | left; reflexivity].
Qed.

Lemma ins_increasing b ts ps :
  is_nan ts = false -> forallb finite ps.*2 = true ->
  stored ts ps = false ->
  increasing ps.*2 = true -> increasing (ins b ts ps).*2 = true.
Proof.
  intros Hts. induction ps as [|p rest IH]; intros Hfin Hfresh Hinc; [reflexivity|].
  simpl in Hfin, Hfresh. apply andb_true_iff in Hfin as [Hp Hfin].
  apply orb_false_iff in Hfresh as [Hne Hfresh].
  simpl. destruct (ltb p.2 ts) eqn:E.
  - change ((p :: ins b ts rest).*2) with (p.2 :: (ins b ts rest).*2).
    change ((p :: rest).*2) with (p.2 :: rest.*2) in Hinc.
    apply increasing_intro.
    + apply IH; try assumption. apply (increasing_cons _ _ Hinc).
    + pose proof (ins_head b ts rest) as Hh.
      destruct (ins b ts rest) as [|q l]; [destruct Hh|]. simpl.
      destruct Hh as [->|(rest' & -> & _)]; [exact E|].
      simpl in Hinc. apply andb_true_iff in Hinc. tauto.
  - change (((b, ts) :: p :: rest).*2) with (ts :: (p :: rest).*2).
    apply increasing_intro; [assumption|]. simpl.
    apply ltb_total; try assumption. apply finite_not_nan, Hp.
Qed.

Lemma ins_perm b ts ps : Permutation (ins b ts ps) ((b, ts) :: ps).
Proof.
  induction ps as [|p rest IH]; simpl; [reflexivity|].
  destruct (ltb p.2 ts); [|reflexivity].
  rewrite IH. apply perm_swap.
Qed.

Lemma stored_ins b ts ps t : stored t (ins b ts ps) = eqb ts t || stored t ps.
Proof.
  unfold stored. induction ps as [|p rest IH]; simpl; [reflexivity|].
  destruct (ltb p.2 ts); simpl; [|reflexivity].
  rewrite IH. destruct (eqb p.2 t), (eqb ts t); reflexivity.
Qed.

Lemma finite_ins b ts ps :
  finite ts = true -> forallb finite ps.*2 = true ->
  forallb finite (ins b ts ps).*2 = true.
Proof.
  intros Hts. induction ps as [|p rest IH]; simpl; intros H.
  - rewrite Hts. reflexivity.
  - apply andb_true_iff in H as [Hp H].
    destruct (ltb p.2 ts); simpl; rewrite ?Hp, ?Hts; simpl; auto.
Qed.

Lemma forallb_finite_perm (l l' : list (string * float64)) :
  Permutation l l' -> forallb finite l.*2 = true -> forallb finite l'.*2 = true.
Proof.
  intros HP H. rewrite forallb_forall in H |- *. intros x Hx. apply H.
  apply in_map_iff in Hx as (p & <- & Hp). apply in_map_iff. exists p.
  split; [reflexivity|]. eapply Permutation_in; [symmetry; exact HP | exact Hp].
Qed.

(** [AddAll] from a sorted feed on: nothing panics, the stored list stays
    sorted and gains exactly the added posts. *)
Lemma AddAll_sorted adds : forall ps0,
  forallb finite ps0.*2 = true -> increasing ps0.*2 = true ->
  forallb finite adds.*2 = true -> distinct adds.*2 = true ->
  forallb (fun t => negb (stored t ps0)) adds.*2 = true ->
  exists ps,
    AddAll adds (feed_of ps0 end_sentinel) = Some (feed_of ps end_sentinel) /\
    forallb finite ps.*2 = true /\ increasing ps.*2 = true /\
    Permutation ps (adds ++ ps0).
Proof.
  induction adds as [|[b t] rest IH]; intros ps0 Hf0 Hi0 Hfa Hd Hfr.
  - exists ps0. simpl. auto.
  - simpl in Hfa, Hd, Hfr.
    apply andb_true_iff in Hfa as [Ht Hfa].
    apply andb_true_iff in Hd as [Hdt Hd].
    apply andb_true_iff in Hfr as [Hst Hfr].
    apply negb_true_iff in Hst.
    destruct (IH (ins b t ps0)) as (ps & Hrun & Hf & Hi & HP); try assumption.
    + apply finite_ins; assumption.
    + apply ins_increasing; try assumption. apply finite_not_nan, Ht.
    + rewrite forallb_forall in Hdt, Hfr |- *. intros u Hu.
      rewrite stored_ins.
      specialize (Hdt u Hu). apply negb_true_iff in Hdt.
      specialize (Hfr u Hu). apply negb_true_iff in Hfr.
      rewrite Hdt, Hfr. reflexivity.
    + exists ps. split; [|split; [|split]]; try assumption.
      * simpl. rewrite Add_feed_of. simpl. exact Hrun.
      * rewrite HP. rewrite (ins_perm b t ps0). simpl.
        symmetry. apply Permutation_middle.
Qed.

Lemma stored_cons_sorted p rest t :
  increasing (p :: rest).*2 = true -> ltb p.2 t = false ->
  stored t (p :: rest) = eqb p.2 t.
Proof.
  intros Hinc Hlt. unfold stored. simpl.
  destruct (eqb p.2 t) eqn:E; [reflexivity|]. simpl.
  change ((p :: rest).*2) with (p.2 :: rest.*2) in Hinc.
  apply increasing_cons in Hinc as [_ Hall].
  rewrite forallb_forall in Hall.
  destruct (existsb (fun q => eqb q.2 t) rest) eqn:Ex; [|reflexivity].
  apply existsb_exists in Ex as (q & Hq & Hqt).
  assert (ltb p.2 q.2 = true) as Hpq by (apply Hall, in_map, Hq).
  rewrite (eqb_ltb_r _ _ _ Hqt) in Hpq. congruence.
Qed.

(** On a sorted list the walk finds a timestamp exactly when it is stored. *)
Lemma found_stored ps t :
  increasing ps.*2 = true -> found t ps = stored t ps.
Proof.
  induction ps as [|p rest IH]; intros Hinc; [reflexivity|].
  simpl found. destruct (ltb p.2 t) eqn:E.
  - unfold stored. simpl. rewrite (ltb_not_eqb _ _ E). simpl.
    apply IH. change ((p :: rest).*2) with (p.2 :: rest.*2) in Hinc.
    apply (increasing_cons _ _ Hinc).
  - symmetry. apply stored_cons_sorted; assumption.
Qed.

(** Where [Add] puts a post whose timestamp is stored already. *)
Lemma ins_duplicate b t ps :
  increasing ps.*2 = true -> stored t ps = true ->
  exists pre b0 t0 suf,
    ps = pre ++ (b0, t0) :: suf /\ eqb t0 t = true /\
    ins b t ps = pre ++ (b, t) :: (b0, t0) :: suf.
Proof.
  induction ps as [|p rest IH]; intros Hinc Hst; [discriminate|].
  simpl ins. destruct (ltb p.2 t) eqn:E.
  - unfold stored in Hst. simpl in Hst. rewrite (ltb_not_eqb _ _ E) in Hst.
    change ((p :: rest).*2) with (p.2 :: rest.*2) in Hinc.
    destruct (IH (proj1 (increasing_cons _ _ Hinc)) Hst)
      as (pre & b0 & t0 & suf & -> & Heq & ->).
    exists (p :: pre), b0, t0, suf. auto.
  - rewrite (stored_cons_sorted _ _ _ Hinc E) in Hst.
    exists [], p.1, p.2, rest. destruct p; auto.
Qed.

Lemma increasing_middle (l1 l2 : list float64) x y :
  increasing (l1 ++ x :: y :: l2) = true -> ltb x y = true.
Proof.
  induction l1 as [|z l1 IH]; simpl.
  - intros H. apply andb_true_iff in H. tauto.
  - destruct (l1 ++ x :: y :: l2) eqn:E; [destruct l1; discriminate|].
    intros H. apply andb_true_iff in H as [_ H]. auto.
Qed.

Lemma link_inj ps ps' :
  forallb finite ps.*2 = true -> forallb finite ps'.*2 = true ->
  link ps end_sentinel = link ps' end_sentinel -> ps = ps'.
Proof.
  revert ps'. induction ps as [|[b t] rest IH]; intros [|[b' t'] rest'] Hf Hf' Heq;
    simpl in *; try reflexivity.
  - injection Heq as _ <- _. discriminate.
  - injection Heq as _ -> _. discriminate.
  - injection Heq as -> -> Heq.
    apply andb_true_iff in Hf as [_ Hf]. apply andb_true_iff in Hf' as [_ Hf'].
    f_equal. auto.
Qed.

(** ** Membership *)

Lemma above_head_not_stored p rest t :
  increasing (p :: rest).*2 = true -> ltb p.2 t = false ->
  stored t rest = false.
Proof.
  intros Hinc Hlt. unfold stored.
  change ((p :: rest).*2) with (p.2 :: rest.*2) in Hinc.
  apply increasing_cons in Hinc as [_ Hall].
  rewrite forallb_forall in Hall.
  destruct (existsb (fun q => eqb q.2 t) rest) eqn:Ex; [|reflexivity].
  apply existsb_exists in Ex as (q & Hq & Hqt).
  assert (ltb p.2 q.2 = true) as Hpq by (apply Hall, in_map, Hq).
  rewrite (eqb_ltb_r _ _ _ Hqt) in Hpq. congruence.
Qed.

Lemma eqb_eqb_r x y z : eqb x y = true -> eqb z x = eqb z y.
Proof. intros H. rewrite (eqb_sym z x), (eqb_sym z y). apply eqb_eqb_l, H. Qed.

Lemma stored_congr t u ps : eqb t u = true -> stored t ps = stored u ps.
Proof.
  intros H. unfold stored. induction ps as [|p rest IH]; simpl; [reflexivity|].
  rewrite IH, (eqb_eqb_r _ _ _ H). reflexivity.
Qed.

Lemma stored_del t u ps :
  increasing ps.*2 = true ->
  stored u (del t ps) = stored u ps && negb (eqb t u).
Proof.
  induction ps as [|p rest IH]; intros Hinc; [reflexivity|].
  pose proof Hinc as Hinc'.
  change ((p :: rest).*2) with (p.2 :: rest.*2) in Hinc'.
  apply increasing_cons in Hinc' as [Hrest _].
  simpl del. destruct (ltb p.2 t) eqn:Hlt; [|destruct (eqb p.2 t) eqn:Heq].
  - unfold stored at 1 2. simpl. fold (stored u (del t rest)). fold (stored u rest).
    rewrite (IH Hrest). destruct (eqb p.2 u) eqn:Hpu; simpl; [|reflexivity].
    rewrite (eqb_ltb_l _ _ _ Hpu) in Hlt.
    rewrite eqb_sym, (ltb_not_eqb _ _ Hlt). reflexivity.
  - destruct (eqb t u) eqn:Htu; cbn [negb].
    + rewrite andb_false_r. eapply above_head_not_stored; [exact Hinc|].
      apply eqb_not_ltb. rewrite (eqb_eqb_l _ _ _ Heq). exact Htu.
    + rewrite andb_true_r. unfold stored at 2. simpl.
      rewrite (eqb_eqb_l _ _ _ Heq), Htu. reflexivity.
  - destruct (eqb t u) eqn:Htu; cbn [negb]; [|rewrite andb_true_r; reflexivity].
    rewrite andb_false_r. rewrite <- (stored_congr _ _ _ Htu).
    rewrite (stored_cons_sorted _ _ _ Hinc Hlt). exact Heq.
Qed.

Lemma del_increasing t ps :
  increasing ps.*2 = true -> increasing (del t ps).*2 = true.
Proof.
  induction ps as [|p rest IH]; intros Hinc; [reflexivity|].
  pose proof Hinc as Hinc'.
  change ((p :: rest).*2) with (p.2 :: rest.*2) in Hinc'.
  apply increasing_cons in Hinc' as [Hrest Hall].
  simpl del. destruct (ltb p.2 t) eqn:Hlt; [|destruct (eqb p.2 t); assumption].
  change ((p :: del t rest).*2) with (p.2 :: (del t rest).*2).
  apply increasing_intro; [apply IH, Hrest|].
  destruct rest as [|q rest']; [exact I|].
  simpl in Hall. apply andb_true_iff in Hall as [Hpq Hall].
  simpl del. destruct (ltb q.2 t); [exact Hpq|].
  destruct (eqb q.2 t); [|exact Hpq].
  destruct rest' as [|q' rest'']; [exact I|].
  simpl in Hall. apply andb_true_iff in Hall. simpl. tauto.
Qed.

Lemma finite_del t ps :
  forallb finite ps.*2 = true -> forallb finite (del t ps).*2 = true.
Proof.
  induction ps as [|p rest IH]; simpl; intros H; [reflexivity|].
  apply andb_true_iff in H as [Hp H].
  destruct (ltb p.2 t); [simpl; rewrite Hp; auto|].
  destruct (eqb p.2 t); [exact H|]. simpl. rewrite Hp, H. reflexivity.
Qed.

Lemma del_not_found t ps : found t ps = false -> del t ps = ps.
Proof.
  induction ps as [|p rest IH]; simpl; [reflexivity|].
  destruct (ltb p.2 t); [intros H; rewrite (IH H); reflexivity|].
  intros ->. reflexivity.
Qed.

(** ** Traces *)

Lemma last_add_stands_add tr b u t :
  last_add_stands (tr ++ [(OpAdd b u, true)]) t
  <-> eqb u t = true \/ last_add_stands tr t.
Proof.
  split.
  - intros (pre & b' & u' & suf & Heq & Hu & Hq).
    induction suf as [|e suf' _] using rev_ind.
    + apply app_inj_tail in Heq as [_ Heq]. injection Heq as -> ->. left. exact Hu.
    + rewrite app_comm_cons, app_assoc in Heq.
      apply app_inj_tail in Heq as [-> _]. right.
      exists pre, b', u', suf'. split; [reflexivity|]. split; [exact Hu|].
      apply Forall_app in Hq. tauto.
  - destruct (eqb u t) eqn:E.
    + intros _. exists tr, b, u, []. auto.
    + intros [?|(pre & b' & u' & suf & -> & Hu & Hq)]; [discriminate|].
      exists pre, b', u', (suf ++ [(OpAdd b u, true)]).
      split; [rewrite <- app_assoc; reflexivity|]. split; [exact Hu|].
      apply Forall_app. split; [exact Hq|]. constructor; [exact E|constructor].
Qed.

Lemma last_add_stands_remove tr u r t :
  last_add_stands (tr ++ [(OpRemove u, r)]) t
  <-> last_add_stands tr t /\ (eqb u t = true -> r = false).
Proof.
  split.
  - intros (pre & b' & u' & suf & Heq & Hu & Hq).
    induction suf as [|e suf' _] using rev_ind.
    + apply app_inj_tail in Heq as [_ Heq]. discriminate.
    + rewrite app_comm_cons, app_assoc in Heq.
      apply app_inj_tail in Heq as [-> <-].
      apply Forall_app in Hq as [Hq He]. inversion_clear He as [|? ? He' _].
      split; [|exact He']. exists pre, b', u', suf'. auto.
  - intros [(pre & b' & u' & suf & -> & Hu & Hq) Hr].
    exists pre, b', u', (suf ++ [(OpRemove u, r)]).
    split; [rewrite <- app_assoc; reflexivity|]. split; [exact Hu|].
    apply Forall_app. split; [exact Hq|]. constructor; [exact Hr|constructor].
Qed.

(** ** Runs of [Add] and [Remove] *)

Lemma tracks_add present ps b u :
  tracks present ps -> tracks (u :: present) (ins b u ps).
Proof.
  intros H t. simpl. rewrite (H t), stored_ins.
  destruct (eqb u t), (stored t ps); reflexivity.
Qed.

Lemma tracks_remove present ps u :
  increasing ps.*2 = true ->
  tracks present ps ->
  tracks (List.filter (fun v => negb (eqb v u)) present) (del u ps).
Proof.
  intros Hinc H t. rewrite (stored_del _ _ _ Hinc), negb_andb, negb_involutive, <- (H t).
  clear H Hinc.
  induction present as [|v rest IH]; simpl.
  - reflexivity.
  - destruct (eqb v u) eqn:Evu; simpl; rewrite IH.
    + rewrite (eqb_eqb_l _ _ _ Evu).
      destruct (eqb u t); simpl; [apply orb_true_r|reflexivity].
    + destruct (eqb v t) eqn:Evt; simpl; [|reflexivity].
      rewrite <- (eqb_eqb_r _ _ _ Evt), (eqb_sym u v), Evu. reflexivity.
Qed.

Lemma feed_run_invariant ops : forall ps0 present tr0,
  forallb finite ps0.*2 = true -> increasing ps0.*2 = true ->
  tracks present ps0 ->
  forallb finite (map op_ts ops) = true ->
  no_duplicate_adds ops present = true ->
  (forall t, stored t ps0 = true <-> last_add_stands tr0 t) ->
  exists ps tr,
    run ops (feed_of ps0 end_sentinel) = Some (feed_of ps end_sentinel, tr) /\
    map fst tr = ops /\
    forallb finite ps.*2 = true /\ increasing ps.*2 = true /\
    (forall t, stored t ps = true <-> last_add_stands (tr0 ++ tr) t).
Proof.
  induction ops as [|[b u|u] rest IH]; intros ps0 present tr0 Hfin Hinc Htr Hops Hnd Hst.
  - exists ps0, []. rewrite app_nil_r. simpl. auto.
  - simpl in Hops, Hnd.
    apply andb_true_iff in Hops as [Hu Hops].
    apply andb_true_iff in Hnd as [Hfresh Hnd].
    rewrite (Htr u) in Hfresh. apply negb_true_iff in Hfresh.
    destruct (IH (ins b u ps0) (u :: present) (tr0 ++ [(OpAdd b u, true)]))
      as (ps & tr & Hrun & Hmap & Hf & Hi & Hlast); try assumption.
    + apply finite_ins; assumption.
    + apply ins_increasing; try assumption. apply finite_not_nan, Hu.
    + apply tracks_add, Htr.
    + intros t. rewrite last_add_stands_add, stored_ins, orb_true_iff, (Hst t). tauto.
    + exists ps, ((OpAdd b u, true) :: tr). simpl.
      rewrite Add_feed_of. simpl. rewrite Hrun. simpl.
      rewrite Hmap. repeat split; try assumption.
      * intros Hs. apply Hlast in Hs. rewrite <- app_assoc in Hs. exact Hs.
      * intros Hs. apply Hlast. rewrite <- app_assoc. exact Hs.
  - simpl in Hops, Hnd.
    apply andb_true_iff in Hops as [Hu Hops].
    destruct (IH (del u ps0) (List.filter (fun v => negb (eqb v u)) present)
                 (tr0 ++ [(OpRemove u, found u ps0)]))
      as (ps & tr & Hrun & Hmap & Hf & Hi & Hlast); try assumption.
    + apply finite_del; assumption.
    + apply del_increasing; assumption.
    + apply tracks_remove; assumption.
    + intros t. rewrite last_add_stands_remove, (stored_del _ _ _ Hinc), andb_true_iff.
      rewrite (Hst t), negb_true_iff, (found_stored _ _ Hinc). split.
      * intros [H1 H2]. split; [exact H1|]. congruence.
      * intros [H1 H2]. split; [exact H1|].
        destruct (eqb u t) eqn:E; [|reflexivity].
        rewrite (stored_congr _ _ _ E) in H2. apply Hst in H1.
        rewrite H1 in H2. specialize (H2 eq_refl). discriminate.
    + exists ps, ((OpRemove u, found u ps0) :: tr). simpl.
      rewrite (Remove_feed_of _ _ Hu). simpl. rewrite Hrun. simpl.
      rewrite Hmap. repeat split; try assumption.
      * intros Hs. apply Hlast in Hs. rewrite <- app_assoc in Hs. exact Hs.
      * intros Hs. apply Hlast. rewrite <- app_assoc. exact Hs.
Qed.

(** Pairwise distinct added timestamps are a special case of
    [no_duplicate_adds]. *)
Lemma distinct_no_duplicate_adds ops : forall present,
  (forall u t, In u present -> In t (added ops) -> eqb u t = false) ->
  distinct (added ops) = true ->
  no_duplicate_adds ops present = true.
Proof.
  induction ops as [|[b t|t] rest IH]; intros present Hp Hd; [reflexivity| |].
  - simpl in Hd |- *. apply andb_true_iff in Hd as [Ht Hd].
    apply andb_true_iff. split.
    + apply forallb_forall. intros u Hu. apply negb_true_iff.
      apply Hp; [exact Hu | left; reflexivity].
    + apply IH; [|exact Hd]. intros u t' [<-|Hu] Ht'.
      * rewrite forallb_forall in Ht. apply negb_true_iff, Ht, Ht'.
      * apply Hp; [exact Hu | right; exact Ht'].
  - simpl in Hd |- *. apply IH; [|exact Hd]. intros u t' Hu Ht'.
    apply filter_In in Hu as [Hu _]. auto.
Qed.

(** ** Snapshot *)

Section Snapshot.
Import Slices.
Local Open Scope nat_scope.
Variable Marshal : postBodyTimestamp -> bytes.
Variable growslice : nat -> nat -> nat.

Lemma show_from_link ps : forall h feedArray,
  valid h feedArray ->
  forallb finite ps.*2 = true ->
  exists h' feedArray',
    show_from Marshal growslice (link ps end_sentinel) h feedArray
    = Some (h', feedArray') /\
    valid h' feedArray' /\
    contents h' feedArray'
    = contents h feedArray
      ++ map (fun p => Marshal {| Body := p.1; Timestamp := p.2 |}) ps.
Proof.
  induction ps as [|p rest IH]; intros h fa Hv Hfin.
  - exists h, fa. simpl. rewrite app_nil_r. auto.
  - simpl in Hfin. apply andb_true_iff in Hfin as [Hp Hfin].
    destruct (append_spec growslice h fa (Marshal {| Body := p.1; Timestamp := p.2 |}) Hv)
      as (Hv1 & Hc1 & _).
    destruct (IH _ _ Hv1 Hfin) as (h' & fa' & Hrun & Hv' & Hc').
    exists h', fa'. simpl. change (Inf 1) with pinf.
    rewrite (finite_eqb_pinf _ Hp). cbn [negb].
    split; [exact Hrun|]. split; [exact Hv'|].
    rewrite Hc', Hc1, <- app_assoc. reflexivity.
Qed.

Lemma reverseFeed_S fuel h input :
  reverseFeed growslice (S fuel) h input
  = if Nat.eqb (len input) 0 then Some (h, input)
    else match reverseFeed growslice fuel h (from_1 input) with
         | None => None
         | Some (h1, r) =>
             match index_0 h1 input with
             | None => None
             | Some x => Some (append growslice h1 r x)
             end
         end.
Proof. reflexivity. Qed.

(** [reverseFeed] returns a slice that holds the elements of [input] in
    reverse.  All it writes lies behind the last element of [input] in
    its array, or in arrays allocated by the call: the elements of
    [input], and every other array there was, are as before. *)
Lemma reverseFeed_rev n : forall h input,
  valid h input -> len input = n ->
  exists h' r,
    reverseFeed growslice (S n) h input = Some (h', r) /\
    valid h' r /\
    contents h' r = rev (contents h input) /\
    (array r = array input /\ off r = off input + len input
     \/ length h <= array r) /\
    frame h h' (array input) (off input + len input).
Proof.
  induction n as [|m IH]; intros h input Hv Hn.
  - exists h, input. rewrite reverseFeed_S, Hn. cbn [Nat.eqb].
    split; [reflexivity|]. split; [exact Hv|].
    split; [unfold contents; rewrite Hn; reflexivity|].
    split; [left; lia|apply frame_refl].
  - destruct Hv as (cs & Hcs & Hcap & Hlen).
    pose proof (lookup_lt_Some _ _ _ Hcs) as Hlt.
    assert (valid h (from_1 input)) as Hvt.
    { exists cs. cbn [from_1 array off len cap]. split; [exact Hcs|]. lia. }
    destruct (IH h (from_1 input) Hvt) as (h1 & r1 & Hrun & Hv1 & Hc1 & Hloc1 & Hfr1).
    { cbn [from_1 len]. lia. }
    cbn [from_1 array off len] in Hloc1, Hfr1.
    replace (S (off input) + (len input - 1)) with (off input + len input)
      in Hloc1, Hfr1 by lia.
    destruct (lookup_lt_is_Some_2 cs (off input)) as [x0 Hx0]; [lia|].
    (* the first element of [input] after the call *)
    destruct (proj2 Hfr1 _ _ Hcs) as (cs1 & Hcs1 & Hl1 & _ & Htk1).
    assert (index_0 h1 input = Some x0) as Hidx.
    { unfold index_0, cells. rewrite Hn, Hcs1. cbn [Nat.eqb].
      rewrite <- (lookup_take_lt cs1 (off input + len input)) by lia.
      rewrite Htk1, lookup_take_lt by lia. exact Hx0. }
    destruct (append_spec growslice h1 r1 x0 Hv1) as (Hv2 & Hc2 & Hloc2).
    exists (append growslice h1 r1 x0).1, (append growslice h1 r1 x0).2.
    split; [|split; [exact Hv2|split; [|split]]].
    + rewrite reverseFeed_S, Hn. cbn [Nat.eqb].
      cbn [from_1 len] in Hrun. replace (S m - 1) with m in Hrun by lia.
      rewrite Hrun, Hidx.
      destruct (append growslice h1 r1 x0); reflexivity.
    + rewrite Hc2, Hc1.
      rewrite (contents_window h input cs Hcs), (contents_window h (from_1 input) cs Hcs).
      cbn [from_1 off len].
      replace (S (off input) + (len input - 1)) with (off input + len input) by lia.
      rewrite (drop_S _ x0 (off input)); [reflexivity|].
      rewrite lookup_take_lt by lia. exact Hx0.
    + destruct Hloc2 as [(Ha & Ho & _)|Hnew].
      * destruct Hloc1 as [[Ha1 Ho1]|Hnew1]; [left|right]; lia.
      * right. destruct Hfr1 as [Hle _]. lia.
    + apply append_frame; [exact Hfr1| |].
      * intros Ha. destruct Hloc1 as [[_ Ho1]|Hnew1]; lia.
      * intros Ha. destruct Hloc1 as [[Ha1 _]|Hnew1]; [congruence|lia].
Qed.

Lemma ShowFeed_feed_of ps :
  forallb finite ps.*2 = true ->
  ShowFeed Marshal growslice (feed_of ps end_sentinel)
  = Some (rev (map (fun p => Marshal {| Body := p.1; Timestamp := p.2 |}) ps)).
Proof.
  intros Hfin. unfold ShowFeed, ShowFeed_in. cbn [feed_of start].
  destruct (make0_valid []) as [Hv0 Hc0].
  destruct (show_from_link ps _ _ Hv0 Hfin) as (h1 & fa & Hrun & Hv1 & Hc1).
  rewrite Hrun.
  destruct (reverseFeed_rev (len fa) h1 fa Hv1 eq_refl) as (h2 & r & Hrev & _ & Hc2 & _).
  rewrite Hrev, Hc2, Hc1, Hc0. reflexivity.
Qed.

End Snapshot.

Lemma decreasing_rev_append (l acc : list float64) :
  increasing l = true -> decreasing acc = true ->
  match l, acc with x :: _, a :: _ => ltb a x = true | _, _ => True end ->
  decreasing (rev_append l acc) = true.
Proof.
  revert acc. induction l as [|x l IH]; intros acc Hl Hacc Hhead; [exact Hacc|].
  simpl. apply IH.
  - apply (increasing_cons _ _ Hl).
  - destruct acc as [|a acc']; [reflexivity|].
    change (ltb a x && decreasing (a :: acc') = true).
    rewrite Hhead, Hacc. reflexivity.
  - destruct l as [|y l']; [exact I|].
    change (ltb x y && increasing (y :: l') = true) in Hl.
    apply andb_true_iff in Hl. tauto.
Qed.

Lemma decreasing_rev (l : list float64) :
  increasing l = true -> decreasing (rev l) = true.
Proof.
  intros H. rewrite rev_alt. apply decreasing_rev_append; [exact H|reflexivity|].
  destruct l; exact I.
Qed.

(** ** The +inf sentinel *)

Lemma contains_from_pinf ps :
  forallb finite ps.*2 = true ->
  contains_from (link ps end_sentinel) pinf = Some true.
Proof.
  induction ps as [|p rest IH]; simpl; intros Hfin; [reflexivity|].
  apply andb_true_iff in Hfin as [Hp Hfin].
  rewrite (finite_ltb_pinf _ Hp). auto.
Qed.

Lemma remove_from_pinf ps :
  forallb finite ps.*2 = true ->
  remove_from (link ps end_sentinel) pinf = Some (link ps nil_post, true).
Proof.
  induction ps as [|p rest IH]; simpl; intros Hfin; [reflexivity|].
  apply andb_true_iff in Hfin as [Hp Hfin].
  rewrite (finite_ltb_pinf _ Hp), (IH Hfin). reflexivity.
Qed.

(** A walk over an unterminated chain for a timestamp above every stored
    one runs into nil. *)
Lemma add_from_unterminated ps b t :
  forallb (fun p => ltb p.2 t) ps = true ->
  add_from (link ps nil_post) b t = None.
Proof.
  induction ps as [|p rest IH]; simpl; intros H; [reflexivity|].
  apply andb_true_iff in H as [Hp H]. rewrite Hp, (IH H). reflexivity.
Qed.

Lemma contains_from_unterminated ps t :
  forallb (fun p => ltb p.2 t) ps = true ->
  contains_from (link ps nil_post) t = None.
Proof.
  induction ps as [|p rest IH]; simpl; intros H; [reflexivity|].
  apply andb_true_iff in H as [Hp H]. rewrite Hp. auto.
Qed.

End Feed_facts.

(* ===================================================================== *)
(** * Facts: the queue *)
(* ===================================================================== *)

Section Queue_facts.
Import Queue.

Lemma chain_last st a items last :
  chain st a items last ->
  exists b, st !! last = Some {| byteTask := b; next := None |}.
Proof.
  revert a. induction items as [|x rest IH]; simpl; intros a.
  - intros [-> H]. exact H.
  - intros (b & a' & _ & _ & H). eauto.
Qed.

(** Linking a new last task: the tasks that had a successor are as they
    were, the old last task points to the new one. *)
Lemma chain_snoc st st' a items last b x n :
  (forall i c i', st !! i = Some {| byteTask := c; next := Some i' |} ->
                  st' !! i = Some {| byteTask := c; next := Some i' |}) ->
  (forall i c n', st !! i = Some {| byteTask := c; next := n' |} ->
                  exists n'', st' !! i = Some {| byteTask := c; next := n'' |}) ->
  st !! last = Some {| byteTask := b; next := None |} ->
  st' !! last = Some {| byteTask := b; next := Some n |} ->
  st' !! n = Some {| byteTask := x; next := None |} ->
  chain st a items last ->
  chain st' a (items ++ [x]) n.
Proof.
  intros Hkeep Hpay Hlast Hlast' Hn. revert a.
  induction items as [|y rest IH]; simpl; intros a.
  - intros [-> _]. exists b, n. split; [exact Hlast'|]. split; [eauto|].
    split; [reflexivity|eauto].
  - intros (c & a' & Ha & (n' & Ha') & Hrest).
    exists c, a'. split; [apply Hkeep, Ha|]. split; [|apply IH, Hrest].
    eapply Hpay, Ha'.
Qed.

Lemma NewQueue_holds : holds NewQueue [].
Proof. split; [reflexivity|]. exists []. reflexivity. Qed.

Lemma Enqueue_holds q items x :
  holds q items ->
  exists q', Enqueue x q = Some q' /\ holds q' (items ++ [x]).
Proof.
  intros H. unfold holds in H.
  destruct (chain_last _ _ _ _ H) as [b Hlast].
  pose proof (lookup_lt_Some _ _ _ Hlast) as Hlt.
  unfold Enqueue. cbn [Enqueue_loop]. cbn [tail store head].
  rewrite (lookup_app_l_Some _ _ _ _ Hlast). cbn [mbind option_bind next].
  rewrite Nat.eqb_refl. cbn [negb].
  unfold CAS_next. cbn [tail store head].
  rewrite (lookup_app_l_Some _ _ _ _ Hlast). cbn [mbind option_bind next ptr_eqb byteTask].
  unfold CAS_tail. cbn [tail store head fst]. rewrite Nat.eqb_refl. cbn [fst].
  eexists. split; [reflexivity|]. unfold holds. cbn [tail store head].
  eapply (chain_snoc (store q)); try eassumption.
  - intros i c i' Hi.
    rewrite list_lookup_insert_ne; [apply lookup_app_l_Some, Hi|].
    intros <-. rewrite Hlast in Hi. discriminate.
  - intros i c n' Hi. destruct (decide (i = tail q)) as [->|Hne].
    + rewrite Hlast in Hi. injection Hi as <- <-. eexists.
      apply list_lookup_insert_eq. rewrite length_app. simpl. lia.
    + exists n'. rewrite list_lookup_insert_ne by congruence.
      apply lookup_app_l_Some, Hi.
  - apply list_lookup_insert_eq. rewrite length_app. simpl. lia.
  - rewrite list_lookup_insert_ne by lia. apply list_lookup_middle. reflexivity.
Qed.

Lemma Dequeue_holds_empty Marshal q :
  holds q [] -> Dequeue Marshal q = Some (sentinel Marshal, q).
Proof.
  intros [_ [b Hb]]. unfold Dequeue. cbn [Dequeue_loop].
  rewrite Hb. cbn [mbind option_bind next]. rewrite Nat.eqb_refl. reflexivity.
Qed.

Lemma Dequeue_holds_cons Marshal q x items :
  holds q (x :: items) ->
  exists q', Dequeue Marshal q = Some (x, q') /\ holds q' items.
Proof.
  intros H. unfold holds in H.
  destruct (chain_last _ _ _ _ H) as [bl Hlast].
  destruct H as (b & a' & Ha & (n' & Ha') & Hrest).
  unfold Dequeue. cbn [Dequeue_loop].
  rewrite Ha. cbn [mbind option_bind next]. rewrite Nat.eqb_refl. cbn [negb].
  destruct (Nat.eqb_spec (tail q) (head q)) as [E|_].
  { rewrite E, Ha in Hlast. discriminate. }
  rewrite Ha'. cbn [mbind option_bind byteTask].
  unfold CAS_head. rewrite Nat.eqb_refl. cbn [fst snd].
  eexists. split; [reflexivity|]. exact Hrest.
Qed.

(** Every run of calls on the queue returns, and returns what the
    functional FIFO returns. *)
Lemma run_fifo Marshal calls : forall q pending,
  holds q pending ->
  exists q',
    run Marshal calls q = Some (q', (fifo_run Marshal calls pending).2) /\
    holds q' (fifo_run Marshal calls pending).1.
Proof.
  induction calls as [|[p|] rest IH]; intros q pending H.
  - exists q. split; [reflexivity|exact H].
  - destruct (Enqueue_holds q pending p H) as (q1 & Hq1 & H1).
    destruct (IH q1 _ H1) as (q' & Hrun & H').
    exists q'. simpl. rewrite Hq1. simpl. split; [exact Hrun|exact H'].
  - destruct pending as [|x pending].
    + destruct (IH q [] H) as (q' & Hrun & H').
      exists q'. simpl. rewrite (Dequeue_holds_empty _ _ H). simpl.
      rewrite Hrun. simpl. split; [reflexivity|exact H'].
    + destruct (Dequeue_holds_cons Marshal q x pending H) as (q1 & Hq1 & H1).
      destruct (IH q1 pending H1) as (q' & Hrun & H').
      exists q'. simpl. rewrite Hq1. simpl.
      rewrite Hrun. simpl. split; [reflexivity|exact H'].
Qed.

Lemma served_fifo Marshal calls : forall pending,
  served calls pending ++ (fifo_run Marshal calls pending).1
  = pending ++ enqueued calls.
Proof.
  induction calls as [|[p|] rest IH]; intros pending; simpl.
  - rewrite app_nil_r. reflexivity.
  - unfold fifo_enqueue. rewrite IH, <- app_assoc. reflexivity.
  - destruct pending as [|x pending]; simpl; rewrite IH; reflexivity.
Qed.

Lemma bytes_eqb_eq a b : bytes_eqb a b = true <-> a = b.
Proof. unfold bytes_eqb. destruct (List.list_eq_dec _ a b); split; congruence. Qed.

(** Unless a payload equal to the empty marker is enqueued, the payloads
    handed out are the returned values other than the marker. *)
Lemma not_marker_served Marshal calls : forall pending,
  Forall (fun p => p <> sentinel Marshal) pending ->
  Forall (fun p => p <> sentinel Marshal) (enqueued calls) ->
  not_marker (sentinel Marshal) (fifo_run Marshal calls pending).2
  = served calls pending.
Proof.
  induction calls as [|[p|] rest IH]; intros pending Hp He; simpl.
  - reflexivity.
  - inversion_clear He as [|? ? Hne He']. apply IH; [|exact He'].
    apply Forall_app. split; [exact Hp|]. constructor; [exact Hne|constructor].
  - destruct pending as [|x pending]; simpl.
    + unfold not_marker in *. simpl.
      destruct (bytes_eqb (sentinel Marshal) (sentinel Marshal)) eqn:E.
      * simpl. apply IH; assumption.
      * assert (bytes_eqb (sentinel Marshal) (sentinel Marshal) = true) as E'
          by (apply bytes_eqb_eq; reflexivity).
        congruence.
    + inversion_clear Hp as [|? ? Hne Hp']. unfold not_marker in *. simpl.
      destruct (bytes_eqb x (sentinel Marshal)) eqn:E.
      * apply bytes_eqb_eq in E. contradiction.
      * simpl. f_equal. apply IH; assumption.
Qed.

(** Following the chain from an address reads back what the queue holds. *)
Lemma holds_unique q items items' : holds q items -> holds q items' -> items = items'.
Proof.
  unfold holds. generalize (head q) as a. revert items'.
  induction items as [|x rest IH]; intros [|y rest'] a H H'; simpl in *.
  - reflexivity.
  - destruct H as [_ [b Hb]]. destruct H' as (c & a' & Ha & _). congruence.
  - destruct H' as [_ [b Hb]]. destruct H as (c & a' & Ha & _). congruence.
  - destruct H as (b & a1 & Ha & (n1 & Ha1) & H).
    destruct H' as (b' & a1' & Ha' & (n1' & Ha1') & H').
    rewrite Ha in Ha'. injection Ha' as <- <-.
    rewrite Ha1 in Ha1'. injection Ha1' as <- <-.
    f_equal. eapply IH; eassumption.
Qed.

End Queue_facts.

(* ===================================================================== *)
(** * Facts: the lock *)
(* ===================================================================== *)

Section Lock_facts.
Import Lock.

Lemma wrap64_small z : - 2 ^ 63 <= z < 2 ^ 63 -> wrap64 z = z.
Proof. intros H. unfold wrap64. rewrite Z.mod_small; lia. Qed.

Lemma count_cons P x l : count P (x :: l) = Z.b2z (P x) + count P l.
Proof. unfold count. simpl. destruct (P x); simpl length; simpl Z.b2z; lia. Qed.

Lemma count_nonneg P l : 0 <= count P l.
Proof. unfold count. lia. Qed.

Lemma count_insert P l : forall g p p',
  l !! g = Some p ->
  count P (<[g := p']> l) = count P l - Z.b2z (P p) + Z.b2z (P p').
Proof.
  induction l as [|x l IH]; intros [|g] p p' H; try discriminate.
  - injection H as ->. change (<[0%nat := p']> (p :: l)) with (p' :: l).
    rewrite !count_cons. lia.
  - change (<[S g := p']> (x :: l)) with (x :: <[g := p']> l).
    rewrite !count_cons, (IH g p p' H). lia.
Qed.

Lemma count_lookup P l g p : l !! g = Some p -> Z.b2z (P p) <= count P l.
Proof.
  revert g. induction l as [|x l IH]; intros [|g] H; try discriminate.
  - injection H as ->. rewrite count_cons. pose proof (count_nonneg P l). lia.
  - rewrite count_cons. specialize (IH g H). destruct (P x); simpl Z.b2z; lia.
Qed.

Lemma count_split l :
  count holds_L l = count at_incr l + count holds_L_elsewhere l.
Proof.
  induction l as [|x l IH]; [reflexivity|].
  rewrite !count_cons, IH. destruct x; simpl; lia.
Qed.

Lemma count_replicate_Idle P n : P Idle = false -> count P (replicate n Idle) = 0.
Proof.
  intros H. induction n as [|n IH]; [reflexivity|].
  simpl replicate. rewrite count_cons, H, IH. reflexivity.
Qed.

(** [Signal] moves a parked goroutine to its woken statement and nothing
    else: no count over statements that are neither changes. *)
Lemma count_Signal P s :
  P Lock_parked = false -> P Lock_woken = false ->
  P RLock_parked = false -> P RLock_woken = false ->
  count P (gs (Signal s)) = count P (gs s).
Proof.
  intros H1 H2 H3 H4. unfold Signal. destruct (notify s) as [|w rest]; [reflexivity|].
  cbn [gs]. destruct (gs s !! w) as [p|] eqn:E; [|reflexivity].
  destruct p; try reflexivity; rewrite (count_insert P _ _ _ _ E), ?H1, ?H2, ?H3, ?H4;
    simpl; lia.
Qed.

Lemma Signal_L s : L (Signal s) = L s.
Proof. unfold Signal. destruct (notify s); reflexivity. Qed.

Lemma Signal_readCount s : readCount (Signal s) = readCount s.
Proof. unfold Signal. destruct (notify s); reflexivity. Qed.

Lemma Signal_lookup s g p :
  gs s !! g = Some p -> holds_L p = true -> gs (Signal s) !! g = Some p.
Proof.
  intros Hg Hp. unfold Signal. destruct (notify s) as [|w rest]; [exact Hg|].
  cbn [gs]. destruct (gs s !! w) as [q|] eqn:E; [|exact Hg].
  destruct (decide (w = g)) as [->|Hne].
  - rewrite Hg in E. injection E as <-. destruct p; try exact Hg; discriminate.
  - destruct q; try exact Hg; rewrite list_lookup_insert_ne by exact Hne; exact Hg.
Qed.

Lemma NewRWMutex_invariant n : invariant (NewRWMutex n).
Proof.
  split; cbn [NewRWMutex gs L readCount];
    rewrite ?count_replicate_Idle by reflexivity; try reflexivity; lia.
Qed.

(** The arithmetic facts about the counts of a state in which goroutine
    [g] is at statement [p]. *)
Ltac count_facts s Hg :=
  pose proof (count_lookup holds_L _ _ _ Hg);
  pose proof (count_lookup counted _ _ _ Hg);
  pose proof (count_lookup at_incr _ _ _ Hg);
  pose proof (count_lookup holds_L_elsewhere _ _ _ Hg);
  pose proof (count_split (gs s));
  pose proof (count_nonneg at_incr (gs s));
  pose proof (count_nonneg holds_L_elsewhere (gs s));
  pose proof (count_nonneg counted (gs s));
  simpl Z.b2z in *.

(** Close the four parts of the invariant after a move of goroutine [g];
    [Hg'] is its statement in the list the move updates. *)
Ltac invariant_after Hg' :=
  split; cbn [goto set_L set_readCount park gs L readCount];
  rewrite ?Signal_L, ?Signal_readCount;
  try match goal with EL : L _ = _ |- _ => rewrite ?EL end;
  rewrite ?(count_insert _ _ _ _ _ Hg');
  rewrite ?count_Signal by reflexivity;
  simpl Z.b2z; rewrite ?wrap64_small by lia; lia.

Lemma step_invariant e s s' : invariant s -> step e s = Some s' -> invariant s'.
Proof.
  intros [HL Hrc Hincr Hcap] Hstep.
  destruct e as [g m|g]; cbn [step] in Hstep;
    destruct (gs s !! g) as [p|] eqn:Hg; try discriminate.
  - destruct p, m; try discriminate; injection Hstep as <-;
      count_facts s Hg; destruct (L s) eqn:EL; invariant_after Hg.
  - destruct p; try discriminate.
    + (* Lock_L *)
      destruct (L s) eqn:EL; [discriminate|]. injection Hstep as <-.
      count_facts s Hg. invariant_after Hg.
    + (* Lock_test *)
      destruct (negb (readCount s =? 0)); injection Hstep as <-;
        count_facts s Hg; destruct (L s) eqn:EL; invariant_after Hg.
    + (* Lock_woken *)
      destruct (L s) eqn:EL; [discriminate|]. injection Hstep as <-.
      count_facts s Hg. invariant_after Hg.
    + (* Unlock_signal *)
      injection Hstep as <-.
      pose proof (Signal_lookup s g _ Hg eq_refl) as Hg'.
      count_facts s Hg. destruct (L s) eqn:EL; invariant_after Hg'.
    + (* Unlock_L *)
      injection Hstep as <-. count_facts s Hg. destruct (L s) eqn:EL; invariant_after Hg.
    + (* RLock_L *)
      destruct (L s) eqn:EL; [discriminate|]. injection Hstep as <-.
      count_facts s Hg. invariant_after Hg.
    + (* RLock_test *)
      destruct (Z.gtb_spec (readCount s) 64); injection Hstep as <-;
        count_facts s Hg; destruct (L s) eqn:EL; invariant_after Hg.
    + (* RLock_woken *)
      destruct (L s) eqn:EL; [discriminate|]. injection Hstep as <-.
      count_facts s Hg. invariant_after Hg.
    + (* RLock_incr *)
      injection Hstep as <-. count_facts s Hg. destruct (L s) eqn:EL; invariant_after Hg.
    + (* RLock_unlock *)
      injection Hstep as <-. count_facts s Hg. destruct (L s) eqn:EL; invariant_after Hg.
    + (* RUnlock_L *)
      destruct (L s) eqn:EL; [discriminate|]. injection Hstep as <-.
      count_facts s Hg. invariant_after Hg.
    + (* RUnlock_decr *)
      injection Hstep as <-. count_facts s Hg. destruct (L s) eqn:EL; invariant_after Hg.
    + (* RUnlock_if0 *)
      injection Hstep as <-.
      pose proof (Signal_lookup s g _ Hg eq_refl) as Hg'.
      count_facts s Hg.
      destruct (readCount s =? 0); destruct (L s) eqn:EL;
        first [invariant_after Hg' | invariant_after Hg].
    + (* RUnlock_if64 *)
      injection Hstep as <-.
      pose proof (Signal_lookup s g _ Hg eq_refl) as Hg'.
      count_facts s Hg.
      destruct (readCount s <=? 64); destruct (L s) eqn:EL;
        first [invariant_after Hg' | invariant_after Hg].
    + (* RUnlock_unlock *)
      injection Hstep as <-. count_facts s Hg. destruct (L s) eqn:EL; invariant_after Hg.
Qed.

Lemma lock_run_invariant evs : forall s s',
  invariant s -> run evs s = Some s' -> invariant s'.
Proof.
  induction evs as [|e rest IH]; intros s s' H; simpl.
  - intros [= <-]. exact H.
  - destruct (step e s) as [s1|] eqn:E; [|discriminate]. simpl.
    apply IH. eapply step_invariant; eassumption.
Qed.

Lemma count_le (P Q : pc -> bool) l :
  (forall p, P p = true -> Q p = true) -> count P l <= count Q l.
Proof.
  intros H. induction l as [|x l IH]; [reflexivity|].
  rewrite !count_cons. specialize (H x).
  destruct (P x), (Q x); simpl Z.b2z; first [lia | discriminate (H eq_refl)].
Qed.

(** The bound the code does keep: never more than 65 readers inside. *)
Lemma readers_inside_le_65 n s : reachable n s -> (readers_inside s <= 65)%nat.
Proof.
  intros [evs Hrun].
  destruct (lock_run_invariant evs _ _ (NewRWMutex_invariant n) Hrun) as [_ Hrc _ Hcap].
  pose proof (count_le is_Reading counted (gs s)) as Hle.
  unfold readers_inside. unfold count in Hle at 1.
  assert (forall p, is_Reading p = true -> counted p = true) as Himp
    by (intros []; simpl; congruence).
  specialize (Hle Himp). lia.
Qed.

End Lock_facts.

(* ===================================================================== *)
(** * Claims on the feed *)
(* ===================================================================== *)

Section Feed_claims.
Import F64 Feed.
Local Open Scope string_scope.
Local Open Scope list_scope.

(** Scenario 2 of the specification: add 5 and 7, remove 5; then 5 is
    not contained and 7 is. *)
Example add_remove_contains :
  (r ← run [OpAdd "a" (of_Z 5); OpAdd "b" (of_Z 7); OpRemove (of_Z 5)] NewFeed;
   c5 ← Contains r.1 (of_Z 5);
   c7 ← Contains r.1 (of_Z 7);
   Some (r.2.*2, c5, c7))
  = Some ([true; true; true], false, true).
Proof. vm_compute. reflexivity. Qed.

(** Scenario 3: removing a timestamp that is not stored returns false. *)
Example remove_missing :
  Remove NewFeed (of_Z 42) = Some (NewFeed, false).
Proof. vm_compute. reflexivity. Qed.

(** Scenario 4: after adding 1, 3, 2 the feed is shown as 3, 2, 1. *)
Example feed_order_3_2_1 :
  (f ← AddAll [("x", of_Z 1); ("z", of_Z 3); ("y", of_Z 2)] NewFeed;
   ShowFeed (fun p => list_byte_of_string (Body p)) (fun c _ => 2 * c)%nat f)
  = Some (map list_byte_of_string ["z"; "y"; "x"]).
Proof. vm_compute. reflexivity. Qed.

(** C5.  Any sequence of [Add] calls with finite, pairwise distinct
    timestamps on a new feed returns without a panic and leaves the -inf
    sentinel at the head, then exactly the added posts in strictly
    increasing timestamp order, then the +inf sentinel and nil. *)
Theorem adds_keep_feed_sorted (adds : list (string * float64)) :
  forallb finite adds.*2 = true ->
  distinct adds.*2 = true ->
  exists f ps,
    AddAll adds NewFeed = Some f /\
    start f = newPost "null" (Inf (-1)) (link ps (newPost "" (Inf 1) nil_post)) /\
    sorted_feed f ps /\
    Permutation ps adds.
Proof.
  intros Hfin Hdist.
  destruct (AddAll_sorted adds [] eq_refl eq_refl Hfin Hdist) as (ps & Hrun & Hf & Hi & HP).
  - apply forallb_forall. reflexivity.
  - exists (feed_of ps end_sentinel), ps. rewrite app_nil_r in HP.
    split; [exact Hrun|]. split; [reflexivity|]. split; [|exact HP].
    split; [reflexivity|]. split; assumption.
Qed.

Lemma adds_keep_feed_sorted_witness :
  exists f ps,
    AddAll [("a", of_Z 1); ("c", of_Z 3); ("b", of_Z 2)] NewFeed = Some f /\
    start f = newPost "null" (Inf (-1)) (link ps (newPost "" (Inf 1) nil_post)) /\
    sorted_feed f ps /\
    Permutation ps [("a", of_Z 1); ("c", of_Z 3); ("b", of_Z 2)].
Proof.
  apply (adds_keep_feed_sorted [("a", of_Z 1); ("c", of_Z 3); ("b", of_Z 2)]);
    vm_compute; reflexivity.
Defined.

(** C6.  On a feed that stores a post with timestamp [t], [Add b t]
    is not a no-op: it links a second post with timestamp [t] right in
    front of the stored one, and the resulting feed violates the
    strict-order invariant. *)
Theorem add_duplicate_breaks_order f ps (b : string) (t : float64) :
  sorted_feed f ps ->
  stored t ps = true ->
  exists pre b0 t0 suf f',
    ps = pre ++ (b0, t0) :: suf /\ eqb t0 t = true /\
    Add f b t = Some f' /\
    f' = feed_of (pre ++ (b, t) :: (b0, t0) :: suf) end_sentinel /\
    increasing (pre ++ (b, t) :: (b0, t0) :: suf).*2 = false /\
    forall ps', ~ sorted_feed f' ps'.
Proof.
  intros (-> & Hfin & Hinc) Hst.
  destruct (ins_duplicate b t ps Hinc Hst) as (pre & b0 & t0 & suf & Hps & Heq & Hins).
  exists pre, b0, t0, suf, (feed_of (pre ++ (b, t) :: (b0, t0) :: suf) end_sentinel).
  assert (increasing (pre ++ (b, t) :: (b0, t0) :: suf).*2 = false) as Hbad.
  { destruct (increasing (pre ++ (b, t) :: (b0, t0) :: suf).*2) eqn:E; [|reflexivity].
    rewrite fmap_app in E. simpl in E. apply increasing_middle in E.
    rewrite eqb_sym in Heq. rewrite (eqb_not_ltb _ _ Heq) in E. discriminate. }
  assert (finite t = true) as Ht.
  { subst ps. rewrite fmap_app, forallb_app in Hfin. simpl in Hfin.
    destruct t0, t; try discriminate; try reflexivity;
      try (destruct s; discriminate); try (destruct s, s0; discriminate);
      repeat (apply andb_true_iff in Hfin as [? Hfin]); discriminate. }
  repeat split; try assumption.
  - rewrite Add_feed_of, Hins. reflexivity.
  - intros ps' (Heq' & Hfin' & Hinc').
    injection Heq' as Heq'. apply link_inj in Heq'; try assumption.
    + subst ps'. congruence.
    + rewrite <- Hins. apply finite_ins; assumption.
Qed.

Lemma add_duplicate_breaks_order_witness :
  exists pre b0 t0 suf f',
    [("a", of_Z 1); ("b", of_Z 2)] = pre ++ (b0, t0) :: suf /\ eqb t0 (of_Z 2) = true /\
    Add (feed_of [("a", of_Z 1); ("b", of_Z 2)] end_sentinel) "again" (of_Z 2) = Some f' /\
    f' = feed_of (pre ++ ("again", of_Z 2) :: (b0, t0) :: suf) end_sentinel /\
    increasing (pre ++ ("again", of_Z 2) :: (b0, t0) :: suf).*2 = false /\
    forall ps', ~ sorted_feed f' ps'.
Proof.
  apply (add_duplicate_breaks_order _ [("a", of_Z 1); ("b", of_Z 2)]).
  - split; [reflexivity|]. split; vm_compute; reflexivity.
  - vm_compute; reflexivity.
Defined.

(** C8.  On a feed that satisfies the sorted-list invariant, [ShowFeed]
    returns without a panic a slice with one record per stored post and
    none for the sentinels, in the reverse of the stored order, that is by
    strictly decreasing timestamp, whatever capacities [append] picks.
    ([ShowFeed] only reads the feed: it has no assignment to a field of
    the feed or of a post.) *)
Theorem show_feed_newest_first
  (Marshal : postBodyTimestamp -> bytes) (growslice : nat -> nat -> nat) f ps :
  sorted_feed f ps ->
  ShowFeed Marshal growslice f
  = Some (map (fun p => Marshal {| Body := p.1; Timestamp := p.2 |}) (rev ps)) /\
  decreasing (rev ps).*2 = true.
Proof.
  intros (-> & Hfin & Hinc). split.
  - rewrite (ShowFeed_feed_of _ _ _ Hfin), map_rev. reflexivity.
  - change ((rev ps).*2) with (map snd (rev ps)). rewrite map_rev.
    apply decreasing_rev, Hinc.
Qed.

Lemma show_feed_newest_first_witness :
  ShowFeed (fun p => list_byte_of_string (Body p)) (fun oldcap _ => 2 * oldcap)%nat
    (feed_of [("a", of_Z 1); ("b", of_Z 2); ("c", of_Z 3)] end_sentinel)
  = Some (map (fun p => list_byte_of_string p.1)
            (rev [("a", of_Z 1); ("b", of_Z 2); ("c", of_Z 3)])) /\
  decreasing (rev [("a", of_Z 1); ("b", of_Z 2); ("c", of_Z 3)]).*2 = true.
Proof.
  apply (show_feed_newest_first (fun p => list_byte_of_string (Body p))
           (fun oldcap _ => 2 * oldcap)%nat
           _ [("a", of_Z 1); ("b", of_Z 2); ("c", of_Z 3)]).
  split; [reflexivity|]. split; vm_compute; reflexivity.
Defined.

(** C10.  On every feed that satisfies the invariant (the new feed
    included), [Contains(+inf)] returns true and [Remove(+inf)] returns true
    and unlinks the +inf sentinel: the chain then ends in nil.  On that
    feed the walk of [Add] and of [Contains] for +inf, and for any timestamp
    above all stored ones, dereferences nil. *)
Theorem pinf_sentinel_is_reachable f ps :
  sorted_feed f ps ->
  Contains f (Inf 1) = Some true /\
  Remove f (Inf 1) = Some (feed_of ps nil_post, true) /\
  (forall b, Add (feed_of ps nil_post) b (Inf 1) = None) /\
  Contains (feed_of ps nil_post) (Inf 1) = None /\
  (forall b t, forallb (fun p => ltb p.2 t) ps = true ->
     Add (feed_of ps nil_post) b t = None /\
     Contains (feed_of ps nil_post) t = None).
Proof.
  intros (-> & Hfin & Hinc). change (Inf 1) with pinf.
  assert (forallb (fun p : string * float64 => ltb p.2 pinf) ps = true) as Hall.
  { rewrite forallb_forall in Hfin |- *. intros p Hp.
    apply finite_ltb_pinf, Hfin, in_map, Hp. }
  assert (forall b t, forallb (fun p : string * float64 => ltb p.2 t) ps = true ->
     Add (feed_of ps nil_post) b t = None /\
     Contains (feed_of ps nil_post) t = None) as Hgen.
  { intros b t Ht. unfold Add, Contains, feed_of; simpl.
    rewrite (add_from_unterminated _ _ _ Ht), (contains_from_unterminated _ _ Ht).
    split; reflexivity. }
  split; [|split; [|split; [|split]]].
  - unfold Contains, feed_of; simpl. apply contains_from_pinf, Hfin.
  - unfold Remove, feed_of; simpl. rewrite (remove_from_pinf _ Hfin). reflexivity.
  - intros b. apply (Hgen b pinf Hall).
  - apply (Hgen "" pinf Hall).
  - exact Hgen.
Qed.

Lemma pinf_sentinel_is_reachable_witness :
  Contains NewFeed (Inf 1) = Some true /\
  Remove NewFeed (Inf 1) = Some (feed_of [] nil_post, true) /\
  (forall b, Add (feed_of [] nil_post) b (Inf 1) = None) /\
  Contains (feed_of [] nil_post) (Inf 1) = None /\
  (forall b t, forallb (fun p : string * float64 => ltb p.2 t) [] = true ->
     Add (feed_of [] nil_post) b t = None /\
     Contains (feed_of [] nil_post) t = None).
Proof.
  apply (pinf_sentinel_is_reachable NewFeed []).
  split; [reflexivity|]. split; reflexivity.
Defined.

(** C7.  Take any sequence of [Add] and [Remove] calls with finite
    timestamps on a new feed in which no [Add] is given a timestamp that is
    stored at that moment (so in particular any sequence whose added
    timestamps are pairwise distinct, [distinct_no_duplicate_adds]).  No
    call panics; afterwards [Contains t] returns true exactly when the last
    [Add] of [t] in the trace is followed by no [Remove] of [t] that
    returned true; [Remove t] returns true exactly when a post with
    timestamp [t] is stored, and leaves the feed as it is when it returns
    false. *)
Theorem contains_iff_last_add_stands (ops : list op) :
  forallb finite (map op_ts ops) = true ->
  no_duplicate_adds ops [] = true ->
  exists f ps trace,
    run ops NewFeed = Some (f, trace) /\ map fst trace = ops /\
    sorted_feed f ps /\
    (forall t, finite t = true ->
       exists c, Contains f t = Some c /\
                 (c = true <-> last_add_stands trace t)) /\
    (forall t, finite t = true ->
       exists f' r, Remove f t = Some (f', r) /\
                    (r = true <-> stored t ps = true) /\
                    (r = false -> f' = f)).
Proof.
  intros Hops Hnd.
  destruct (feed_run_invariant ops [] [] [] eq_refl eq_refl) as (ps & tr & Hrun & Hmap & Hf & Hi & Hlast);
    try assumption.
  - intros t. reflexivity.
  - intros t. split; [discriminate|].
    intros (pre & b & u & suf & Heq & _). destruct pre; discriminate.
  - exists (feed_of ps end_sentinel), ps, tr.
    split; [exact Hrun|]. split; [exact Hmap|].
    split; [split; [reflexivity|split; assumption]|]. split.
    + intros t Ht. exists (found t ps). split.
      * unfold Contains, feed_of; simpl. apply contains_from_link, Ht.
      * rewrite (found_stored _ _ Hi). apply Hlast.
    + intros t Ht. exists (feed_of (del t ps) end_sentinel), (found t ps).
      split; [apply Remove_feed_of, Ht|]. split.
      * rewrite (found_stored _ _ Hi). tauto.
      * intros Hnf. rewrite (del_not_found _ _ Hnf). reflexivity.
Qed.

Lemma contains_iff_last_add_stands_witness :
  exists f ps trace,
    run [OpAdd "a" (of_Z 5); OpAdd "b" (of_Z 7); OpRemove (of_Z 5);
         OpRemove (of_Z 42); OpAdd "c" (of_Z 5)] NewFeed = Some (f, trace) /\
    map fst trace = [OpAdd "a" (of_Z 5); OpAdd "b" (of_Z 7); OpRemove (of_Z 5);
                     OpRemove (of_Z 42); OpAdd "c" (of_Z 5)] /\
    sorted_feed f ps /\
    (forall t, finite t = true ->
       exists c, Contains f t = Some c /\
                 (c = true <-> last_add_stands trace t)) /\
    (forall t, finite t = true ->
       exists f' r, Remove f t = Some (f', r) /\
                    (r = true <-> stored t ps = true) /\
                    (r = false -> f' = f)).
Proof.
  apply (contains_iff_last_add_stands
           [OpAdd "a" (of_Z 5); OpAdd "b" (of_Z 7); OpRemove (of_Z 5);
            OpRemove (of_Z 42); OpAdd "c" (of_Z 5)]);
    vm_compute; reflexivity.
Defined.

End Feed_claims.


(* ===================================================================== *)
(** * Claims on the queue *)
(* ===================================================================== *)

Section Queue_claims.
Import Queue.

(** C9.  Run by one goroutine, the queue refines the functional FIFO.
    Every interleaved sequence of [Enqueue] and [Dequeue] calls on a new
    queue returns, and each [Dequeue] returns what the FIFO returns there:
    the oldest payload enqueued and not yet dequeued, or the empty marker
    when none is pending.  The queue is left holding the FIFO's pending
    payloads.  So the payloads handed out, in order, followed by the
    pending ones are the enqueued payloads in order: the former are a
    prefix of the enqueue order, and all of them once the queue is
    drained.  The payloads handed out are the returned values other than
    the marker, provided no payload equal to the marker is enqueued. *)
Theorem queue_refines_fifo (Marshal : Data -> bytes) (calls : list call) :
  exists q,
    run Marshal calls NewQueue = Some (q, (fifo_run Marshal calls []).2) /\
    holds q (fifo_run Marshal calls []).1 /\
    served calls [] ++ (fifo_run Marshal calls []).1 = enqueued calls /\
    ((fifo_run Marshal calls []).1 = [] -> served calls [] = enqueued calls) /\
    (Forall (fun p => p <> sentinel Marshal) (enqueued calls) ->
     not_marker (sentinel Marshal) (fifo_run Marshal calls []).2 = served calls []).
Proof.
  destruct (run_fifo Marshal calls NewQueue [] NewQueue_holds) as (q & Hrun & Hq).
  exists q. split; [exact Hrun|]. split; [exact Hq|].
  pose proof (served_fifo Marshal calls []) as Hs. simpl in Hs.
  split; [exact Hs|]. split.
  - intros E. rewrite E, app_nil_r in Hs. exact Hs.
  - intros He. apply not_marker_served; [constructor|exact He].
Qed.

(** Three payloads in, four [Dequeue]s: the payloads come back in the
    order they went in, then the empty marker. *)
Example queue_fifo_example :
  run Samples.MarshalData
    [Enq (list_byte_of_string "a"); Enq (list_byte_of_string "b"); Deq;
     Enq (list_byte_of_string "c"); Deq; Deq; Deq] NewQueue
  = Some ({| store :=
               [ {| byteTask := []; next := Some 1%nat |};
                 {| byteTask := list_byte_of_string "a"; next := Some 2%nat |};
                 {| byteTask := list_byte_of_string "b"; next := Some 3%nat |};
                 {| byteTask := list_byte_of_string "c"; next := None |} ];
             head := 3; tail := 3 |},
          [list_byte_of_string "a"; list_byte_of_string "b";
           list_byte_of_string "c"; list_byte_of_string Samples.sentinel_text]).
Proof. vm_compute. reflexivity. Qed.

End Queue_claims.


(* ===================================================================== *)
(** * Facts: the coordinator *)
(* ===================================================================== *)

Section Twitter_facts.
Import Twitter.

Variable UnmarshalClient : bytes -> ClientMessage * option error.
Variable UnmarshalPost : bytes -> PostData * option error.
Variable MarshalPost : Feed.postBodyTimestamp -> bytes.
Variable MarshalData : Queue.Data -> bytes.
Variable growslice : nat -> nat -> nat.

Lemma plain_Println l o : l <> usage_line -> plain o -> plain (Println l o).
Proof.
  intros Hl [He Hu]. split; [exact He|]. simpl. intros Hin.
  apply in_app_or in Hin as [Hin|[Hin|[]]]; [exact (Hu Hin)|]. congruence.
Qed.

Lemma plain_error o (err : option error) :
  plain o ->
  plain (match err with Some e => Println (error_line e) o | None => o end).
Proof. intros H. destruct err; [apply plain_Println; [discriminate|exact H]|exact H]. Qed.

Lemma plain_decode_posts arr : forall acc o,
  plain o -> plain (decode_posts UnmarshalPost arr acc o).2.
Proof.
  induction arr as [|post rest IH]; intros acc o H; [exact H|].
  simpl. destruct (UnmarshalPost post) as [pd err].
  apply IH, plain_error, H.
Qed.

Lemma plain_perform feed task o f o' :
  plain o -> perform UnmarshalPost MarshalPost growslice feed task o = Some (f, o') -> plain o'.
Proof.
  intros H. unfold perform, addPostTask, removePostTask, containsPostTask, showFeedTask.
  destruct (String.eqb (Command task) "ADD").
  { destruct (Feed.Add _ _ _); simpl; [|discriminate].
    intros [= <- <-]. apply plain_Println; [discriminate|exact H]. }
  destruct (String.eqb (Command task) "REMOVE").
  { destruct (Feed.Remove _ _) as [[f1 r]|]; [|discriminate].
    intros [= <- <-]. apply plain_Println; [discriminate|exact H]. }
  destruct (String.eqb (Command task) "CONTAINS").
  { destruct (Feed.Contains _ _); simpl; [|discriminate].
    intros [= <- <-]. apply plain_Println; [discriminate|exact H]. }
  destruct (String.eqb (Command task) "FEED").
  { destruct (Feed.ShowFeed _ _) as [arr|]; simpl; [|discriminate].
    pose proof (plain_decode_posts arr [] o H) as Hd.
    destruct (decode_posts UnmarshalPost arr [] o) as [fa o1].
    intros [= <- <-]. apply plain_Println; [discriminate|exact Hd]. }
  intros [= <- <-]. exact H.
Qed.

(** The loop of sequential mode handles every line alike: report a decode
    error if there is one, then dispatch on the decoded command. *)
Lemma sequential_step task rest feed o :
  sequential UnmarshalClient UnmarshalPost MarshalPost growslice (task :: rest) feed o
  = let '(cm, err) := UnmarshalClient (list_byte_of_string task) in
    let o1 := match err with Some e => Println (error_line e) o | None => o end in
    if String.eqb (Command cm) "DONE" then Some (feed, o1)
    else perform UnmarshalPost MarshalPost growslice feed cm o1
           ≫= (fun r => sequential UnmarshalClient UnmarshalPost MarshalPost growslice rest r.1 r.2).
Proof.
  simpl. destruct (UnmarshalClient _) as [cm err]. unfold perform.
  destruct (String.eqb_spec (Command cm) "DONE") as [E|_].
  - rewrite E. reflexivity.
  - destruct (String.eqb (Command cm) "ADD"); [reflexivity|].
    destruct (String.eqb (Command cm) "REMOVE"); [reflexivity|].
    destruct (String.eqb (Command cm) "CONTAINS"); [reflexivity|].
    destruct (String.eqb (Command cm) "FEED"); reflexivity.
Qed.

Lemma plain_sequential stdin : forall feed o f o',
  plain o ->
  sequential UnmarshalClient UnmarshalPost MarshalPost growslice stdin feed o = Some (f, o') ->
  plain o'.
Proof.
  induction stdin as [|task rest IH]; intros feed o f o' H.
  - intros [= <- <-]. exact H.
  - rewrite sequential_step. destruct (UnmarshalClient _) as [cm err].
    cbv beta iota zeta.
    pose proof (plain_error o err H) as H1.
    destruct (String.eqb (Command cm) "DONE"); [intros [= <- <-]; exact H1|].
    destruct (perform _ _ _ _ _) as [[f1 o1]|] eqn:E; [|discriminate].
    simpl. apply IH. eapply plain_perform; eassumption.
Qed.

Lemma plain_producer stdin : forall sh sh',
  plain (out sh) -> producer UnmarshalClient stdin sh = Some sh' -> plain (out sh').
Proof.
  induction stdin as [|task rest IH]; intros sh sh' H.
  - intros [= <-]. exact H.
  - simpl. destruct (UnmarshalClient _) as [cm err].
    assert (plain (out match err with
                       | Some e => set_out (Println (error_line e) (out sh)) sh
                       | None => sh
                       end)) as H1.
    { destruct err; [apply plain_Println; [discriminate|exact H]|exact H]. }
    destruct (negb _).
    + destruct (Queue.Enqueue _ _) as [q|]; [|discriminate]. simpl.
      apply IH. exact H1.
    + intros [= <-]. exact H1.
Qed.

Lemma plain_drain i : forall sh acc sh' blk,
  plain (out sh) ->
  drain UnmarshalClient MarshalData i sh acc = Some (sh', blk) -> plain (out sh').
Proof.
  induction i as [|i IH]; intros sh acc sh' blk H.
  - intros [= <- <-]. exact H.
  - simpl. destruct (Queue.Dequeue _ _) as [[d q]|]; [|discriminate].
    destruct (UnmarshalClient d) as [cm [e|]].
    + intros [= <- <-]. apply plain_Println; [discriminate|exact H].
    + destruct (String.eqb _ _); [intros [= <- <-]; exact H|].
      apply IH. exact H.
Qed.

Lemma plain_perform_all blk : forall sh sh',
  plain (out sh) ->
  perform_all UnmarshalPost MarshalPost growslice blk sh = Some sh' -> plain (out sh').
Proof.
  induction blk as [|task rest IH]; intros sh sh' H.
  - intros [= <-]. exact H.
  - simpl. destruct (perform _ _ _ _ _) as [[f o]|] eqn:E; [|discriminate].
    apply IH. simpl. eapply plain_perform; eassumption.
Qed.

Lemma plain_consumer_turn block sh sh' exit :
  plain (out sh) ->
  consumer_turn UnmarshalClient UnmarshalPost MarshalPost MarshalData growslice block sh
  = Some (sh', exit) ->
  plain (out sh').
Proof.
  intros H. unfold consumer_turn.
  destruct (drain _ _ _ _ _) as [[sh1 blk]|] eqn:Ed; [|discriminate].
  destruct (perform_all _ _ _ _) as [sh2|] eqn:Ep; [|discriminate].
  intros [= <- <-]. eapply plain_perform_all; [|exact Ep].
  eapply plain_drain; eassumption.
Qed.

(** What the producer does with one line that is not a DONE request. *)
Lemma producer_step task rest sh cm err items :
  UnmarshalClient (list_byte_of_string task) = (cm, err) ->
  String.eqb (Command cm) "DONE" = false ->
  Queue.holds (queue sh) items ->
  exists q',
    Queue.holds q' (items ++ [list_byte_of_string task]) /\
    producer UnmarshalClient (task :: rest) sh
    = producer UnmarshalClient rest
        (AddInt64 1 (set_queue q'
           match err with
           | Some e => set_out (Println (error_line e) (out sh)) sh
           | None => sh
           end)).
Proof.
  intros Hdec Hcmd Hq. simpl. rewrite Hdec, Hcmd. cbn [negb].
  assert (Queue.holds (queue match err with
                       | Some e => set_out (Println (error_line e) (out sh)) sh
                       | None => sh
                       end) items) as Hq1 by (destruct err; exact Hq).
  destruct (Enqueue_holds _ items (list_byte_of_string task) Hq1) as (q' & Henq & Hq').
  exists q'. split; [exact Hq'|]. rewrite Henq. reflexivity.
Qed.

(** What the drain loop does with a payload that decodes to a value
    field "sentinel": it ends, the payload is gone from the queue and is
    not in the block, [numOfTasks] is as before. *)
Lemma drain_value_sentinel i sh acc d items cm :
  Queue.holds (queue sh) (d :: items) ->
  UnmarshalClient d = (cm, None) ->
  Value cm = "sentinel"%string ->
  exists q',
    Queue.holds q' items /\
    drain UnmarshalClient MarshalData (S i) sh acc = Some (set_queue q' sh, acc).
Proof.
  intros Hq Hdec Hval.
  destruct (Dequeue_holds_cons MarshalData _ _ _ Hq) as (q' & Hdeq & Hq').
  exists q'. split; [exact Hq'|]. simpl. rewrite Hdeq, Hdec, Hval. reflexivity.
Qed.

(** What the drain loop does with a payload on which decoding reports an
    error: it prints the error and ends; the payload is gone from the
    queue and is not in the block, [numOfTasks] is as before. *)
Lemma drain_decode_error i sh acc d items cm e :
  Queue.holds (queue sh) (d :: items) ->
  UnmarshalClient d = (cm, Some e) ->
  exists q',
    Queue.holds q' items /\
    drain UnmarshalClient MarshalData (S i) sh acc
    = Some (set_out (Println (error_line e) (out sh)) (set_queue q' sh), acc).
Proof.
  intros Hq Hdec.
  destruct (Dequeue_holds_cons MarshalData _ _ _ Hq) as (q' & Hdeq & Hq').
  exists q'. split; [exact Hq'|]. simpl. rewrite Hdeq, Hdec. reflexivity.
Qed.

Lemma drain_empty i sh acc cm :
  Queue.holds (queue sh) [] ->
  UnmarshalClient (Queue.sentinel MarshalData) = (cm, None) ->
  Value cm = "sentinel"%string ->
  drain UnmarshalClient MarshalData (S i) sh acc = Some (set_queue (queue sh) sh, acc).
Proof.
  intros Hq Hdec Hval. simpl.
  rewrite (Dequeue_holds_empty MarshalData _ Hq), Hdec, Hval. reflexivity.
Qed.

End Twitter_facts.

(* ===================================================================== *)
(** * Claims on the coordinator *)
(* ===================================================================== *)

Section Twitter_claims.
Import F64 Twitter.
Local Open Scope string_scope.
Local Open Scope list_scope.

(** C2, as the code has it.  [main] has two branches.  With exactly two
    arguments after the program name it takes the concurrent branch, with
    the worker count and the block size parsed from them.  With any other
    number of arguments, none included, it runs the sequential loop over
    the input.  The usage text is printed in neither: not by the
    sequential loop, not by the producer, not by a consumer. *)
Theorem main_selects_mode
  (UnmarshalClient : bytes -> ClientMessage * option error)
  (UnmarshalPost : bytes -> PostData * option error)
  (MarshalPost : Feed.postBodyTimestamp -> bytes)
  (MarshalData : Queue.Data -> bytes)
  (ParseInt : string -> Z) (growslice : nat -> nat -> nat)
  (Args stdin : list string) :
  match main UnmarshalClient UnmarshalPost MarshalPost ParseInt growslice Args stdin with
  | Concurrent threads block st =>
      length Args = 3%nat /\
      threads = ParseInt (nth 1 Args "") /\ block = ParseInt (nth 2 Args "") /\
      plain (out st) /\
      (forall lines sh sh',
         plain (out sh) -> producer UnmarshalClient lines sh = Some sh' ->
         ~ In usage_line (Stdout (out sh'))) /\
      (forall sh sh' exit,
         plain (out sh) ->
         consumer_turn UnmarshalClient UnmarshalPost MarshalPost MarshalData growslice block sh
         = Some (sh', exit) ->
         ~ In usage_line (Stdout (out sh')))
  | Sequential r =>
      length Args <> 3%nat /\
      r = sequential UnmarshalClient UnmarshalPost MarshalPost growslice stdin Feed.NewFeed
            {| Stdout := []; Stderr := [] |} /\
      (forall f o, r = Some (f, o) -> ~ In usage_line (Stdout o))
  end.
Proof.
  unfold main. destruct (Nat.eqb_spec (length Args) 3) as [E|E]; cbn [negb].
  - split; [exact E|]. split; [reflexivity|]. split; [reflexivity|].
    split; [split; [reflexivity|intros []]|]. split.
    + intros lines sh sh' H Hp. eapply plain_producer; eassumption.
    + intros sh sh' exit H Hc. eapply plain_consumer_turn; eassumption.
  - split; [exact E|]. split; [reflexivity|]. intros f o Hr.
    eapply plain_sequential; [|exact Hr]. split; [reflexivity|intros []].
Qed.

(** C2, as stated, fails with one argument: the program runs the ADD
    request of the input and prints its response and nothing else. *)
Lemma one_argument_runs_sequential_mode :
  main Samples.UnmarshalClient Samples.UnmarshalPost Samples.MarshalPost
    Samples.ParseInt Samples.growslice ["twitter"; "4"] [Samples.line_add]
  = Sequential
      (Some (Feed.feed_of [("hi", of_Z 10)] Feed.end_sentinel,
             {| Stdout := [success_line true 1]; Stderr := [] |})) /\
  ~ In usage_line [success_line true 1].
Proof.
  split; [vm_compute; reflexivity|].
  intros [H|[]]. discriminate.
Qed.

(** C3, as the code has it.  Whatever the decoder reports on a line, the
    line is not skipped.  A decode error is printed to standard output;
    then, as for every other line, in concurrent mode the producer
    enqueues the raw bytes and counts the task unless the decoded command
    is DONE, and in sequential mode the line is dispatched on the decoded
    command; both loops go on with the next line.  No line is rejected for
    a missing field: nothing but the decoded command is inspected.  The
    worker that dequeues a line on which decoding reports an error prints
    the error to standard output as well and ends its drain: the line is
    off the queue, not in the block of tasks to run, and not counted. *)
Theorem decode_error_line_is_not_skipped
  (UnmarshalClient : bytes -> ClientMessage * option error)
  (UnmarshalPost : bytes -> PostData * option error)
  (MarshalPost : Feed.postBodyTimestamp -> bytes)
  (MarshalData : Queue.Data -> bytes)
  (growslice : nat -> nat -> nat)
  (task : string) (rest : list string) (cm : ClientMessage) (err : option error) :
  UnmarshalClient (list_byte_of_string task) = (cm, err) ->
  (forall sh items,
     String.eqb (Command cm) "DONE" = false ->
     Queue.holds (queue sh) items ->
     exists q',
       Queue.holds q' (items ++ [list_byte_of_string task]) /\
       producer UnmarshalClient (task :: rest) sh
       = producer UnmarshalClient rest
           (AddInt64 1 (set_queue q'
              match err with
              | Some e => set_out (Println (error_line e) (out sh)) sh
              | None => sh
              end))) /\
  (forall feed o,
     sequential UnmarshalClient UnmarshalPost MarshalPost growslice
       (task :: rest) feed o
     = let o1 := match err with
                 | Some e => Println (error_line e) o
                 | None => o
                 end in
       if String.eqb (Command cm) "DONE" then Some (feed, o1)
       else perform UnmarshalPost MarshalPost growslice feed cm o1
              ≫= (fun r => sequential UnmarshalClient UnmarshalPost MarshalPost
                             growslice rest r.1 r.2)) /\
  (forall e i sh acc items,
     err = Some e ->
     Queue.holds (queue sh) (list_byte_of_string task :: items) ->
     exists q',
       Queue.holds q' items /\
       drain UnmarshalClient MarshalData (S i) sh acc
       = Some (set_out (Println (error_line e) (out sh)) (set_queue q' sh), acc)) /\
  (forall o e, Stderr (Println (error_line e) o) = Stderr o /\
               Stdout (Println (error_line e) o) = Stdout o ++ [error_line e]).
Proof.
  intros Hdec. split; [|split; [|split]].
  - intros sh items Hcmd Hq. eapply producer_step; eassumption.
  - intros feed o. rewrite sequential_step, Hdec. reflexivity.
  - intros e i sh acc items -> Hq. eapply drain_decode_error; eassumption.
  - intros o e. split; reflexivity.
Qed.

Lemma decode_error_line_is_not_skipped_witness :
  (forall sh items,
     String.eqb (Command Samples.zero_message) "DONE" = false ->
     Queue.holds (queue sh) items ->
     exists q',
       Queue.holds q' (items ++ [list_byte_of_string Samples.line_truncated]) /\
       producer Samples.UnmarshalClient [Samples.line_truncated; Samples.line_done] sh
       = producer Samples.UnmarshalClient [Samples.line_done]
           (AddInt64 1 (set_queue q'
              (set_out (Println (error_line "unexpected end of JSON input") (out sh)) sh)))) /\
  (forall feed o,
     sequential Samples.UnmarshalClient Samples.UnmarshalPost Samples.MarshalPost
       Samples.growslice [Samples.line_truncated; Samples.line_done] feed o
     = let o1 := Println (error_line "unexpected end of JSON input") o in
       if String.eqb (Command Samples.zero_message) "DONE" then Some (feed, o1)
       else perform Samples.UnmarshalPost Samples.MarshalPost Samples.growslice
              feed Samples.zero_message o1
              ≫= (fun r => sequential Samples.UnmarshalClient Samples.UnmarshalPost
                             Samples.MarshalPost Samples.growslice
                             [Samples.line_done] r.1 r.2)) /\
  (forall e i sh acc items,
     Some "unexpected end of JSON input" = Some e ->
     Queue.holds (queue sh) (list_byte_of_string Samples.line_truncated :: items) ->
     exists q',
       Queue.holds q' items /\
       drain Samples.UnmarshalClient Samples.MarshalData (S i) sh acc
       = Some (set_out (Println (error_line e) (out sh)) (set_queue q' sh), acc)) /\
  (forall o e, Stderr (Println (error_line e) o) = Stderr o /\
               Stdout (Println (error_line e) o) = Stdout o ++ [error_line e]).
Proof.
  apply (decode_error_line_is_not_skipped Samples.UnmarshalClient
           Samples.UnmarshalPost Samples.MarshalPost Samples.MarshalData
           Samples.growslice Samples.line_truncated
           [Samples.line_done] Samples.zero_message
           (Some "unexpected end of JSON input")).
  vm_compute. reflexivity.
Defined.

(** C3, as stated, fails.  The producer enqueues a line that is not JSON
    and reports it on standard output, the error stream stays empty; and
    in sequential mode an ADD request without body and timestamp is run
    (a post with the zero values is added) and answered, with no
    diagnostic. *)
Lemma malformed_line_is_enqueued :
  producer Samples.UnmarshalClient [Samples.line_truncated; Samples.line_done]
    Samples.start
  = Some {| queue :=
              {| Queue.store :=
                   [ {| Queue.byteTask := []; Queue.next := Some 1%nat |};
                     {| Queue.byteTask := list_byte_of_string Samples.line_truncated;
                        Queue.next := None |} ];
                 Queue.head := 0; Queue.tail := 1 |};
            feed := Feed.NewFeed; numOfTasks := 1; doneBool := true;
            out := {| Stdout := [error_line "unexpected end of JSON input"];
                      Stderr := [] |} |} /\
  main Samples.UnmarshalClient Samples.UnmarshalPost Samples.MarshalPost
    Samples.ParseInt Samples.growslice ["twitter"] [Samples.line_no_fields]
  = Sequential
      (Some (Feed.feed_of [("", of_Z 0)] Feed.end_sentinel,
             {| Stdout := [success_line true 2]; Stderr := [] |})).
Proof. split; vm_compute; reflexivity. Qed.

(** C4, as the code has it.  [Dequeue] on an empty queue returns the
    marshalled [Data{Value: "sentinel"}]; provided that decodes to a value
    field "sentinel", the drain loop of a worker stops there.  The marker
    is in band: the worker takes every payload that decodes without error
    to a value field "sentinel" for it.  A client request with such a
    field (and a command other than DONE) is enqueued by the producer like
    any other, and when it is dequeued the drain loop ends: the request is
    gone from the queue, it is not in the block of tasks to run, and the
    task count is not decremented. *)
Theorem empty_marker_is_in_band
  (UnmarshalClient : bytes -> ClientMessage * option error)
  (MarshalData : Queue.Data -> bytes)
  (task : string) (cm cm0 : ClientMessage) :
  UnmarshalClient (Queue.sentinel MarshalData) = (cm0, None) ->
  Value cm0 = "sentinel" ->
  UnmarshalClient (list_byte_of_string task) = (cm, None) ->
  Value cm = "sentinel" ->
  String.eqb (Command cm) "DONE" = false ->
  (forall q, Queue.holds q [] ->
     Queue.Dequeue MarshalData q
     = Some (MarshalData {| Queue.Command := ""; Queue.Id := 0; Queue.Body := "";
                            Queue.Timestamp := of_Z 0; Queue.Value := "sentinel" |}, q)) /\
  (forall i sh acc, Queue.holds (queue sh) [] ->
     drain UnmarshalClient MarshalData (S i) sh acc
     = Some (set_queue (queue sh) sh, acc)) /\
  (forall rest sh items, Queue.holds (queue sh) items ->
     exists q',
       Queue.holds q' (items ++ [list_byte_of_string task]) /\
       producer UnmarshalClient (task :: rest) sh
       = producer UnmarshalClient rest (AddInt64 1 (set_queue q' sh))) /\
  (forall i sh acc items,
     Queue.holds (queue sh) (list_byte_of_string task :: items) ->
     exists q',
       Queue.holds q' items /\
       drain UnmarshalClient MarshalData (S i) sh acc = Some (set_queue q' sh, acc)).
Proof.
  intros Hdec0 Hval0 Hdec Hval Hcmd. split; [|split; [|split]].
  - intros q Hq. apply Dequeue_holds_empty, Hq.
  - intros i sh acc Hq. eapply drain_empty; eassumption.
  - intros rest sh items Hq.
    apply (producer_step UnmarshalClient task rest sh cm None items Hdec Hcmd Hq).
  - intros i sh acc items Hq. eapply drain_value_sentinel; eassumption.
Qed.

Lemma empty_marker_is_in_band_witness :
  (forall q, Queue.holds q [] ->
     Queue.Dequeue Samples.MarshalData q
     = Some (Samples.MarshalData
               {| Queue.Command := ""; Queue.Id := 0; Queue.Body := "";
                  Queue.Timestamp := of_Z 0; Queue.Value := "sentinel" |}, q)) /\
  (forall i sh acc, Queue.holds (queue sh) [] ->
     drain Samples.UnmarshalClient Samples.MarshalData (S i) sh acc
     = Some (set_queue (queue sh) sh, acc)) /\
  (forall rest sh items, Queue.holds (queue sh) items ->
     exists q',
       Queue.holds q' (items ++ [list_byte_of_string Samples.line_spoof]) /\
       producer Samples.UnmarshalClient (Samples.line_spoof :: rest) sh
       = producer Samples.UnmarshalClient rest (AddInt64 1 (set_queue q' sh))) /\
  (forall i sh acc items,
     Queue.holds (queue sh) (list_byte_of_string Samples.line_spoof :: items) ->
     exists q',
       Queue.holds q' items /\
       drain Samples.UnmarshalClient Samples.MarshalData (S i) sh acc
       = Some (set_queue q' sh, acc)).
Proof.
  apply (empty_marker_is_in_band Samples.UnmarshalClient Samples.MarshalData
           Samples.line_spoof
           {| Command := "ADD"; Id := 3; Body := "x"; Timestamp := of_Z 5;
              Value := "sentinel" |}
           {| Command := ""; Id := 0; Body := ""; Timestamp := of_Z 0;
              Value := "sentinel" |});
    vm_compute; reflexivity.
Defined.

(** C4, as stated, fails.  The producer has enqueued a client request with
    a value field "sentinel" and a plain one; a worker draining up to
    three tasks takes the first for the empty marker: it leaves with an
    empty block, the first request is dequeued ([head] has moved to it),
    nothing was run or printed, and the task count is still 2. *)
Lemma client_request_taken_for_empty_marker :
  (producer Samples.UnmarshalClient
     [Samples.line_spoof; Samples.line_add; Samples.line_done] Samples.start
   ≫= fun sh => drain Samples.UnmarshalClient Samples.MarshalData 3 sh [])
  = Some ({| queue :=
               {| Queue.store :=
                    [ {| Queue.byteTask := []; Queue.next := Some 1%nat |};
                      {| Queue.byteTask := list_byte_of_string Samples.line_spoof;
                         Queue.next := Some 2%nat |};
                      {| Queue.byteTask := list_byte_of_string Samples.line_add;
                         Queue.next := None |} ];
                  Queue.head := 1; Queue.tail := 2 |};
             feed := Feed.NewFeed; numOfTasks := 2; doneBool := true;
             out := {| Stdout := []; Stderr := [] |} |}, []).
Proof. vm_compute. reflexivity. Qed.

End Twitter_claims.

(* ===================================================================== *)
(** * Claims on the lock *)
(* ===================================================================== *)

Section Lock_claims.
Import Lock.

(** C1, what the code does at the cap.  [RLock] waits while
    [readCount > 64], so a reader that finds 64 readers inside enters as
    well.  Goroutines 0 to 64 call [RLock] one after the other and none
    calls [RUnlock]: all 65 calls return, 65 goroutines are between the
    return of [RLock] and their [RUnlock].  Only the next reader,
    goroutine 65, parks on the condition variable.  And 65 is the bound
    the code keeps: under every schedule of the calls of any number of
    goroutines, never more than 65 are inside. *)
Theorem rlock_admits_65_readers :
  (exists s,
     run (flat_map rlock_alone (seq 0 65) ++ [Call 65 MRLock; Run 65; Run 65])
         (NewRWMutex 66) = Some s /\
     readers_inside s = 65%nat /\
     readCount s = 65 /\
     gs s !! 65%nat = Some RLock_parked /\
     notify s = [65%nat]) /\
  (forall n s, reachable n s -> (readers_inside s <= 65)%nat).
Proof.
  split.
  - eexists. split; [vm_compute; reflexivity|].
    repeat split; vm_compute; reflexivity.
  - apply readers_inside_le_65.
Qed.

End Lock_claims.

(* ===================================================================== *)
(** * More on the feed *)
(* ===================================================================== *)

Section Feed_more.
Import F64 Feed.
Local Open Scope string_scope.
Local Open Scope list_scope.

Lemma del_ins b t ps : is_nan t = false -> del t (ins b t ps) = ps.
Proof.
  intros Ht. induction ps as [|p rest IH]; simpl.
  - rewrite ltb_irrefl, (eqb_refl _ Ht). reflexivity.
  - destruct (ltb p.2 t) eqn:E; simpl.
    + rewrite E, IH. reflexivity.
    + rewrite ltb_irrefl, (eqb_refl _ Ht). reflexivity.
Qed.

Lemma found_ins b t ps : is_nan t = false -> found t (ins b t ps) = true.
Proof.
  intros Ht. induction ps as [|p rest IH]; simpl.
  - rewrite ltb_irrefl. apply eqb_refl, Ht.
  - destruct (ltb p.2 t) eqn:E; simpl.
    + rewrite E. exact IH.
    + rewrite ltb_irrefl. apply eqb_refl, Ht.
Qed.

(** X1.  [Remove] undoes [Add]: on every feed that ends in the +inf
    sentinel (sorted or not, with or without a post of that timestamp),
    [Add b t] with a finite [t] followed by [Remove t] returns true and
    gives back the very feed there was before. *)
Theorem remove_undoes_add f ps (b : string) (t : float64) :
  f = feed_of ps end_sentinel ->
  finite t = true ->
  exists f', Add f b t = Some f' /\ Remove f' t = Some (f, true).
Proof.
  intros -> Ht. exists (feed_of (ins b t ps) end_sentinel).
  split; [apply Add_feed_of|].
  rewrite (Remove_feed_of _ _ Ht), (del_ins _ _ _ (finite_not_nan _ Ht)),
    (found_ins _ _ _ (finite_not_nan _ Ht)).
  reflexivity.
Qed.

Lemma remove_undoes_add_witness :
  exists f',
    Add (feed_of [("a", of_Z 1); ("c", of_Z 3)] end_sentinel) "b" (of_Z 2) = Some f' /\
    Remove f' (of_Z 2)
    = Some (feed_of [("a", of_Z 1); ("c", of_Z 3)] end_sentinel, true).
Proof.
  apply (remove_undoes_add _ [("a", of_Z 1); ("c", of_Z 3)] "b" (of_Z 2));
    reflexivity.
Defined.

(** X2.  On a feed that satisfies the invariant, [Add b t] with a finite
    timestamp that is not stored keeps the invariant, and afterwards
    [Contains] finds [t] and exactly the timestamps it found before. *)
Theorem add_then_contains f ps (b : string) (t : float64) :
  sorted_feed f ps ->
  finite t = true ->
  stored t ps = false ->
  exists f',
    Add f b t = Some f' /\
    sorted_feed f' (ins b t ps) /\
    Contains f' t = Some true /\
    forall u, finite u = true ->
      Contains f u = Some (stored u ps) /\
      Contains f' u = Some (eqb t u || stored u ps).
Proof.
  intros (-> & Hfin & Hinc) Ht Hfresh.
  pose proof (finite_not_nan _ Ht) as Hnan.
  pose proof (ins_increasing b t ps Hnan Hfin Hfresh Hinc) as Hinc'.
  exists (feed_of (ins b t ps) end_sentinel).
  split; [apply Add_feed_of|].
  split; [split; [reflexivity|split; [apply finite_ins; assumption|exact Hinc']]|].
  split.
  - unfold Contains, feed_of; simpl. rewrite (contains_from_link _ _ Ht).
    rewrite (found_ins _ _ _ Hnan). reflexivity.
  - intros u Hu. unfold Contains, feed_of; simpl.
    rewrite !(contains_from_link _ _ Hu).
    rewrite (found_stored _ _ Hinc), (found_stored _ _ Hinc'), stored_ins.
    split; reflexivity.
Qed.

Lemma add_then_contains_witness :
  exists f',
    Add (feed_of [("a", of_Z 1); ("c", of_Z 3)] end_sentinel) "b" (of_Z 2) = Some f' /\
    sorted_feed f' (ins "b" (of_Z 2) [("a", of_Z 1); ("c", of_Z 3)]) /\
    Contains f' (of_Z 2) = Some true /\
    forall u, finite u = true ->
      Contains (feed_of [("a", of_Z 1); ("c", of_Z 3)] end_sentinel) u
      = Some (stored u [("a", of_Z 1); ("c", of_Z 3)]) /\
      Contains f' u = Some (eqb (of_Z 2) u || stored u [("a", of_Z 1); ("c", of_Z 3)]).
Proof.
  apply (add_then_contains _ [("a", of_Z 1); ("c", of_Z 3)] "b" (of_Z 2)).
  - split; [reflexivity|]. split; vm_compute; reflexivity.
  - reflexivity.
  - vm_compute; reflexivity.
Defined.

Lemma filter_not_stored t (ps : list (string * float64)) :
  stored t ps = false ->
  List.filter (fun p => negb (eqb p.2 t)) ps = ps.
Proof.
  unfold stored. induction ps as [|p rest IH]; simpl; [reflexivity|].
  intros H. apply orb_false_iff in H as [Hp Hrest].
  rewrite Hp. simpl. rewrite (IH Hrest). reflexivity.
Qed.

Lemma del_filter t ps :
  increasing ps.*2 = true ->
  del t ps = List.filter (fun p => negb (eqb p.2 t)) ps.
Proof.
  induction ps as [|p rest IH]; intros Hinc; [reflexivity|].
  pose proof Hinc as Hinc'.
  change ((p :: rest).*2) with (p.2 :: rest.*2) in Hinc'.
  apply increasing_cons in Hinc' as [Hrest _].
  simpl. destruct (ltb p.2 t) eqn:Hlt.
  - rewrite (ltb_not_eqb _ _ Hlt). simpl. rewrite (IH Hrest). reflexivity.
  - pose proof (above_head_not_stored _ _ _ Hinc Hlt) as Hns.
    rewrite (filter_not_stored _ _ Hns).
    destruct (eqb p.2 t); reflexivity.
Qed.

(** X3.  On a feed that satisfies the invariant, [Remove t] with a finite
    [t] returns whether a post with timestamp [t] is stored, keeps the
    invariant, and leaves exactly the posts whose timestamp is not [==]
    to [t], in their order. *)
Theorem remove_drops_exactly_the_post f ps (t : float64) :
  sorted_feed f ps ->
  finite t = true ->
  exists f',
    Remove f t = Some (f', stored t ps) /\
    sorted_feed f' (List.filter (fun p => negb (eqb p.2 t)) ps) /\
    forall u, stored u (List.filter (fun p => negb (eqb p.2 t)) ps)
              = stored u ps && negb (eqb t u).
Proof.
  intros (-> & Hfin & Hinc) Ht.
  exists (feed_of (del t ps) end_sentinel).
  rewrite <- (del_filter _ _ Hinc).
  split; [rewrite (Remove_feed_of _ _ Ht), (found_stored _ _ Hinc); reflexivity|].
  split.
  - split; [reflexivity|]. split; [apply finite_del, Hfin|apply del_increasing, Hinc].
  - intros u. apply stored_del, Hinc.
Qed.

Lemma remove_drops_exactly_the_post_witness :
  exists f',
    Remove (feed_of [("a", of_Z 1); ("b", of_Z 2); ("c", of_Z 3)] end_sentinel) (of_Z 2)
    = Some (f', stored (of_Z 2) [("a", of_Z 1); ("b", of_Z 2); ("c", of_Z 3)]) /\
    sorted_feed f'
      (List.filter (fun p => negb (eqb p.2 (of_Z 2)))
         [("a", of_Z 1); ("b", of_Z 2); ("c", of_Z 3)]) /\
    forall u,
      stored u (List.filter (fun p => negb (eqb p.2 (of_Z 2)))
                  [("a", of_Z 1); ("b", of_Z 2); ("c", of_Z 3)])
      = stored u [("a", of_Z 1); ("b", of_Z 2); ("c", of_Z 3)] && negb (eqb (of_Z 2) u).
Proof.
  apply (remove_drops_exactly_the_post _ [("a", of_Z 1); ("b", of_Z 2); ("c", of_Z 3)]).
  - split; [reflexivity|]. split; vm_compute; reflexivity.
  - reflexivity.
Defined.



(** X5.  The head sentinel cannot be reached: on a feed that satisfies the
    invariant [Contains(-inf)] returns false, and [Remove(-inf)] returns
    false and leaves the feed as it is. *)
Theorem ninf_sentinel_is_not_reachable f ps :
  sorted_feed f ps ->
  Contains f (Inf (-1)) = Some false /\
  Remove f (Inf (-1)) = Some (f, false).
Proof.
  intros (-> & Hfin & _). change (Inf (-1)) with ninf.
  unfold Contains, Remove, feed_of; simpl.
  destruct ps as [|p rest]; simpl; [split; reflexivity|].
  simpl in Hfin. apply andb_true_iff in Hfin as [Hp _].
  assert (ltb p.2 ninf = false) as E1 by (destruct p.2 as [|[|]| |]; try discriminate; reflexivity).
  assert (eqb p.2 ninf = false) as E2 by (destruct p.2 as [|[|]| |]; try discriminate; reflexivity).
  rewrite E1, E2. split; reflexivity.
Qed.

Lemma ninf_sentinel_is_not_reachable_witness :
  Contains (feed_of [("a", of_Z 1)] end_sentinel) (Inf (-1)) = Some false /\
  Remove (feed_of [("a", of_Z 1)] end_sentinel) (Inf (-1))
  = Some (feed_of [("a", of_Z 1)] end_sentinel, false).
Proof.
  apply (ninf_sentinel_is_not_reachable _ [("a", of_Z 1)]).
  split; [reflexivity|]. split; reflexivity.
Defined.

Lemma show_from_unterminated Marshal growslice ps : forall h feedArray,
  forallb finite ps.*2 = true ->
  show_from Marshal growslice (link ps nil_post) h feedArray = None.
Proof.
  induction ps as [|p rest IH]; intros h fa Hfin; [reflexivity|].
  simpl in Hfin. apply andb_true_iff in Hfin as [Hp Hfin].
  simpl. change (Inf 1) with pinf. rewrite (finite_eqb_pinf _ Hp). simpl.
  apply IH, Hfin.
Qed.

(** X6.  Once [Remove(+inf)] has unlinked the end sentinel, [ShowFeed]
    panics: its loop looks for the +inf timestamp and runs into nil. *)
Theorem show_feed_panics_without_end_sentinel
  (Marshal : postBodyTimestamp -> bytes) (growslice : nat -> nat -> nat) f ps :
  sorted_feed f ps ->
  exists f',
    Remove f (Inf 1) = Some (f', true) /\
    ShowFeed Marshal growslice f' = None.
Proof.
  intros (-> & Hfin & _). exists (feed_of ps nil_post). split.
  - unfold Remove, feed_of; simpl. change (Inf 1) with pinf.
    rewrite (remove_from_pinf _ Hfin). reflexivity.
  - unfold ShowFeed, ShowFeed_in, feed_of; simpl.
    rewrite (show_from_unterminated _ _ _ _ _ Hfin). reflexivity.
Qed.

Lemma show_feed_panics_without_end_sentinel_witness :
  exists f',
    Remove (feed_of [("a", of_Z 1)] end_sentinel) (Inf 1) = Some (f', true) /\
    ShowFeed (fun p => list_byte_of_string (Body p)) (fun c _ => 2 * c)%nat f' = None.
Proof.
  apply (show_feed_panics_without_end_sentinel _ _ _ [("a", of_Z 1)]).
  split; [reflexivity|]. split; reflexivity.
Defined.

End Feed_more.

(* ===================================================================== *)
(** * More on [reverseFeed] *)
(* ===================================================================== *)

Section ReverseFeed_more.
Import Feed Slices.
Local Open Scope nat_scope.

(** X7.  [reverseFeed] on any slice, whatever its capacity and whatever
    shares its backing array: the call returns a slice holding the
    elements of [input] in reverse order, and it does not clobber its
    argument: [input] holds the same elements afterwards, and so does
    every slice on another array. *)
Theorem reverseFeed_keeps_its_input
  (growslice : nat -> nat -> nat) (h : heap) (input : slice) :
  valid h input ->
  exists h' r,
    reverseFeed growslice (S (len input)) h input = Some (h', r) /\
    contents h' r = rev (contents h input) /\
    contents h' input = contents h input /\
    forall s, valid h s -> array s <> array input ->
              contents h' s = contents h s.
Proof.
  intros Hv.
  destruct (reverseFeed_rev growslice (len input) h input Hv eq_refl)
    as (h' & r & Hrun & _ & Hc & _ & [_ Hfr]).
  exists h', r. split; [exact Hrun|]. split; [exact Hc|]. split.
  - destruct Hv as (cs & Hcs & _).
    destruct (Hfr _ _ Hcs) as (cs' & Hcs' & _ & _ & Htk).
    rewrite (contents_window h' input cs' Hcs'), (contents_window h input cs Hcs), Htk.
    reflexivity.
  - intros s (cs & Hcs & _) Hne.
    destruct (Hfr _ _ Hcs) as (cs' & Hcs' & _ & Hsame & _).
    rewrite (Hsame Hne) in Hcs'.
    unfold contents, cells. rewrite Hcs, Hcs'. reflexivity.
Qed.

(** A slice of three elements with room for a fourth: the first [append]
    of the recursion writes into the array of [input]. *)
Lemma reverseFeed_keeps_its_input_witness :
  exists h' r,
    reverseFeed (fun c _ => 2 * c) 4
      [[list_byte_of_string "a"; list_byte_of_string "b";
        list_byte_of_string "c"; []]]
      {| array := 0; off := 0; len := 3; cap := 4 |} = Some (h', r) /\
    contents h' r
    = rev (contents [[list_byte_of_string "a"; list_byte_of_string "b";
                      list_byte_of_string "c"; []]]
             {| array := 0; off := 0; len := 3; cap := 4 |}) /\
    contents h' {| array := 0; off := 0; len := 3; cap := 4 |}
    = contents [[list_byte_of_string "a"; list_byte_of_string "b";
                 list_byte_of_string "c"; []]]
        {| array := 0; off := 0; len := 3; cap := 4 |} /\
    forall s,
      valid [[list_byte_of_string "a"; list_byte_of_string "b";
              list_byte_of_string "c"; []]] s ->
      array s <> 0 ->
      contents h' s
      = contents [[list_byte_of_string "a"; list_byte_of_string "b";
                   list_byte_of_string "c"; []]] s.
Proof.
  apply (reverseFeed_keeps_its_input (fun c _ => 2 * c)
           [[list_byte_of_string "a"; list_byte_of_string "b";
             list_byte_of_string "c"; []]]
           {| array := 0; off := 0; len := 3; cap := 4 |}).
  exists [list_byte_of_string "a"; list_byte_of_string "b";
          list_byte_of_string "c"; []].
  split; [reflexivity|]. simpl. lia.
Defined.

End ReverseFeed_more.

(* ===================================================================== *)
(** * More on the lock *)
(* ===================================================================== *)

Section Lock_more.
Import Lock.

(** While a goroutine is between [Lock] and the end of [Unlock], no
    reader is counted. *)
Definition no_reader_while_writing (s : state) : Prop :=
  0 < count in_write (gs s) -> readCount s = 0.

Lemma count_split_write l :
  count holds_L l = count in_write l + count holds_L_reading l.
Proof.
  induction l as [|x l IH]; [reflexivity|].
  rewrite !count_cons, IH. destruct x; simpl; lia.
Qed.

Ltac write_facts s Hg :=
  pose proof (count_lookup holds_L _ _ _ Hg);
  pose proof (count_lookup in_write _ _ _ Hg);
  pose proof (count_lookup holds_L_reading _ _ _ Hg);
  pose proof (count_split_write (gs s));
  pose proof (count_nonneg in_write (gs s));
  pose proof (count_nonneg holds_L_reading (gs s));
  simpl Z.b2z in *.

Ltac write_after Hg' :=
  unfold no_reader_while_writing in *;
  cbn [goto set_L set_readCount park gs L readCount];
  rewrite ?Signal_L, ?Signal_readCount;
  rewrite ?(count_insert _ _ _ _ _ Hg');
  rewrite ?count_Signal by reflexivity;
  simpl Z.b2z; lia.

Lemma step_no_reader_while_writing e s s' :
  invariant s -> no_reader_while_writing s -> step e s = Some s' ->
  no_reader_while_writing s'.
Proof.
  intros [HL Hrc Hincr Hcap] Hw Hstep.
  destruct e as [g m|g]; cbn [step] in Hstep;
    destruct (gs s !! g) as [p|] eqn:Hg; try discriminate.
  - destruct p, m; try discriminate; injection Hstep as <-;
      write_facts s Hg; destruct (L s) eqn:EL; write_after Hg.
  - destruct p; try discriminate.
    + destruct (L s) eqn:EL; [discriminate|]. injection Hstep as <-.
      write_facts s Hg. write_after Hg.
    + destruct (Z.eqb_spec (readCount s) 0); cbn [negb] in Hstep;
        injection Hstep as <-; write_facts s Hg; destruct (L s) eqn:EL; write_after Hg.
    + destruct (L s) eqn:EL; [discriminate|]. injection Hstep as <-.
      write_facts s Hg. write_after Hg.
    + injection Hstep as <-.
      pose proof (Signal_lookup s g _ Hg eq_refl) as Hg'.
      write_facts s Hg. destruct (L s) eqn:EL; write_after Hg'.
    + injection Hstep as <-. write_facts s Hg. destruct (L s) eqn:EL; write_after Hg.
    + destruct (L s) eqn:EL; [discriminate|]. injection Hstep as <-.
      write_facts s Hg. write_after Hg.
    + destruct (readCount s >? 64); injection Hstep as <-;
        write_facts s Hg; destruct (L s) eqn:EL; write_after Hg.
    + destruct (L s) eqn:EL; [discriminate|]. injection Hstep as <-.
      write_facts s Hg. write_after Hg.
    + injection Hstep as <-. write_facts s Hg. destruct (L s) eqn:EL; write_after Hg.
    + injection Hstep as <-. write_facts s Hg. destruct (L s) eqn:EL; write_after Hg.
    + destruct (L s) eqn:EL; [discriminate|]. injection Hstep as <-.
      write_facts s Hg. write_after Hg.
    + injection Hstep as <-. write_facts s Hg. destruct (L s) eqn:EL; write_after Hg.
    + injection Hstep as <-.
      pose proof (Signal_lookup s g _ Hg eq_refl) as Hg'.
      write_facts s Hg.
      destruct (readCount s =? 0); destruct (L s) eqn:EL;
        first [write_after Hg' | write_after Hg].
    + injection Hstep as <-.
      pose proof (Signal_lookup s g _ Hg eq_refl) as Hg'.
      write_facts s Hg.
      destruct (readCount s <=? 64); destruct (L s) eqn:EL;
        first [write_after Hg' | write_after Hg].
    + injection Hstep as <-. write_facts s Hg. destruct (L s) eqn:EL; write_after Hg.
Qed.

Lemma run_no_reader_while_writing evs : forall s s',
  invariant s -> no_reader_while_writing s -> run evs s = Some s' ->
  invariant s' /\ no_reader_while_writing s'.
Proof.
  induction evs as [|e rest IH]; intros s s' Hi Hw; simpl.
  - intros [= <-]. split; assumption.
  - destruct (step e s) as [s1|] eqn:E; [|discriminate]. simpl.
    apply IH.
    + eapply step_invariant; eassumption.
    + eapply step_no_reader_while_writing; eassumption.
Qed.

(** X8.  Mutual exclusion.  Under every schedule of the calls of any
    number of goroutines: at most one goroutine is between the return of
    [Lock] and its [Unlock]; while one is, no goroutine is between the
    return of [RLock] and its [RUnlock], and the mutex [L] stays locked. *)
Theorem writer_excludes_readers_and_writers n s :
  reachable n s ->
  (writers_inside s <= 1)%nat /\
  ((0 < writers_inside s)%nat -> readers_inside s = 0%nat /\ L s = true).
Proof.
  intros [evs Hrun].
  destruct (run_no_reader_while_writing evs (NewRWMutex n) s) as [[HL Hrc _ _] Hw];
    [apply NewRWMutex_invariant| |exact Hrun|].
  { intros H. cbn [NewRWMutex gs] in H.
    rewrite count_replicate_Idle in H by reflexivity. lia. }
  pose proof (count_le is_Writing in_write (gs s)) as H1.
  pose proof (count_le in_write holds_L (gs s)) as H2.
  pose proof (count_le is_Reading counted (gs s)) as H3.
  assert (forall p, is_Writing p = true -> in_write p = true) as I1
    by (intros []; simpl; congruence).
  assert (forall p, in_write p = true -> holds_L p = true) as I2
    by (intros []; simpl; congruence).
  assert (forall p, is_Reading p = true -> counted p = true) as I3
    by (intros []; simpl; congruence).
  specialize (H1 I1). specialize (H2 I2). specialize (H3 I3).
  pose proof (count_nonneg is_Reading (gs s)).
  unfold writers_inside, readers_inside, no_reader_while_writing in *.
  unfold count in H1 at 1. unfold count in H3 at 1. unfold count in H at 1.
  destruct (L s) eqn:EL; split; try lia; intros Hpos; split; try reflexivity; lia.
Qed.

(** A writer is inside after goroutine 0 has run [Lock] alone. *)
Lemma writer_excludes_readers_and_writers_witness :
  exists s,
    run [Call 0 MLock; Run 0; Run 0] (NewRWMutex 2) = Some s /\
    (writers_inside s <= 1)%nat /\
    ((0 < writers_inside s)%nat -> readers_inside s = 0%nat /\ L s = true).
Proof.
  eexists. split; [reflexivity|].
  apply (writer_excludes_readers_and_writers 2).
  exists [Call 0%nat MLock; Run 0%nat; Run 0%nat]. reflexivity.
Defined.

(** X9.  The bookkeeping of the lock.  Under every schedule,
    [readCount] is the number of goroutines that have executed the
    increment of [RLock] and not yet the decrement of [RUnlock]; it is
    never negative, so [readCount--] never takes it below zero.  The mutex
    [L] is locked exactly when one goroutine is in a locked region, and
    never are two. *)
Theorem rwmutex_bookkeeping n s :
  reachable n s ->
  readCount s = count counted (gs s) /\
  0 <= readCount s <= 65 /\
  count holds_L (gs s) = (if L s then 1 else 0).
Proof.
  intros [evs Hrun].
  destruct (lock_run_invariant evs _ _ (NewRWMutex_invariant n) Hrun) as [HL Hrc _ Hcap].
  pose proof (count_nonneg counted (gs s)).
  split; [exact Hrc|]. split; [lia|exact HL].
Qed.

Lemma rwmutex_bookkeeping_witness :
  exists s,
    run (rlock_alone 0 ++ rlock_alone 1) (NewRWMutex 2) = Some s /\
    readCount s = count counted (gs s) /\
    0 <= readCount s <= 65 /\
    count holds_L (gs s) = (if L s then 1 else 0).
Proof.
  eexists. split; [reflexivity|].
  apply (rwmutex_bookkeeping 2).
  exists (rlock_alone 0 ++ rlock_alone 1). reflexivity.
Defined.

End Lock_more.

(* ===================================================================== *)
(** * More on the queue *)
(* ===================================================================== *)

Section Queue_more.
Import Queue.

Lemma Enqueue_loop_S fuel n q :
  Enqueue_loop (S fuel) n q
  = (t ← store q !! tail q;
     if negb (Nat.eqb (tail q) (tail q)) then Enqueue_loop fuel n q
     else
       match next t with
       | Some tn => Enqueue_loop fuel n (CAS_tail (tail q) tn q).1
       | None =>
           match CAS_next (tail q) (next t) (Some n) q with
           | None => None
           | Some (q', success) =>
               if success then Some (CAS_tail (tail q) n q').1
               else Enqueue_loop fuel n q'
           end
       end).
Proof. reflexivity. Qed.

(** The loop of [Enqueue] on a queue whose [tail] is the last task, the
    new task being allocated already. *)
Lemma Enqueue_loop_exact fuel st hd tl items x :
  chain st hd items tl ->
  exists q',
    Enqueue_loop (S fuel) (length st)
      {| store := st ++ [{| byteTask := x; next := None |}]; head := hd; tail := tl |}
    = Some q' /\
    holds q' (items ++ [x]) /\
    map byteTask (store q') = map byteTask st ++ [x] /\
    head q' = hd.
Proof.
  intros H. destruct (chain_last _ _ _ _ H) as [b Hlast].
  pose proof (lookup_lt_Some _ _ _ Hlast) as Hlt.
  rewrite Enqueue_loop_S. cbn [tail store head].
  rewrite (lookup_app_l_Some _ _ _ _ Hlast). cbn [mbind option_bind next].
  rewrite Nat.eqb_refl. cbn [negb].
  unfold CAS_next. cbn [tail store head].
  rewrite (lookup_app_l_Some _ _ _ _ Hlast). cbn [mbind option_bind next ptr_eqb byteTask].
  unfold CAS_tail. cbn [tail store head fst]. rewrite Nat.eqb_refl. cbn [fst].
  eexists. split; [reflexivity|]. split; [|split; [|reflexivity]].
  - unfold holds. cbn [tail store head].
    eapply (chain_snoc st); try eassumption.
    + intros i c i' Hi.
      rewrite list_lookup_insert_ne; [apply lookup_app_l_Some, Hi|].
      intros <-. rewrite Hlast in Hi. discriminate.
    + intros i c n' Hi. destruct (decide (i = tl)) as [->|Hne].
      * rewrite Hlast in Hi. injection Hi as <- <-. eexists.
        apply list_lookup_insert_eq. rewrite length_app. simpl. lia.
      * exists n'. rewrite list_lookup_insert_ne by congruence.
        apply lookup_app_l_Some, Hi.
    + apply list_lookup_insert_eq. rewrite length_app. simpl. lia.
    + rewrite list_lookup_insert_ne by lia. apply list_lookup_middle. reflexivity.
  - cbn [store].
    change (map byteTask ?l) with (byteTask <$> l).
    rewrite list_fmap_insert. cbn [byteTask].
    rewrite fmap_app. cbn [fmap list_fmap].
    apply list_insert_id. apply lookup_app_l_Some.
    rewrite list_lookup_fmap, Hlast. reflexivity.
Qed.

(** X10.  [Enqueue] repairs a lagging tail.  On a queue whose [tail] is
    one task behind the last, [Enqueue] first moves [tail] ahead, then
    links the new task: it returns, and the queue holds the old payloads
    followed by the new one, with [tail] at the last task. *)
Theorem enqueue_helps_lagging_tail q items (x : bytes) :
  lagging q items ->
  exists q', Enqueue x q = Some q' /\ holds q' (items ++ [x]).
Proof.
  intros (last & b & Hchain & Htail).
  pose proof (lookup_lt_Some _ _ _ Htail) as Hlt.
  unfold Enqueue. cbv zeta. cbn [store head tail]. rewrite length_app. cbn [length].
  replace (length (store q) + 1)%nat with (S (length (store q))) by lia.
  rewrite Enqueue_loop_S. cbn [tail store head].
  rewrite (lookup_app_l_Some _ _ _ _ Htail). cbn [mbind option_bind next].
  rewrite Nat.eqb_refl. cbn [negb].
  unfold CAS_tail at 1. cbn [tail store head]. rewrite Nat.eqb_refl. cbn [fst].
  destruct (Enqueue_loop_exact (length (store q)) (store q) (head q) last items x Hchain)
    as (q' & Hrun & Hq' & _).
  exists q'. split; [exact Hrun|exact Hq'].
Qed.

(** The state between the two compare-and-swaps of the first [Enqueue]. *)
Lemma enqueue_helps_lagging_tail_witness :
  exists q',
    Enqueue (list_byte_of_string "b")
      {| store := [ {| byteTask := []; next := Some 1%nat |};
                    {| byteTask := list_byte_of_string "a"; next := None |} ];
         head := 0; tail := 0 |} = Some q' /\
    holds q' ([list_byte_of_string "a"] ++ [list_byte_of_string "b"]).
Proof.
  apply (enqueue_helps_lagging_tail _ [list_byte_of_string "a"]).
  exists 1%nat, []. split; [|reflexivity].
  exists [], 1%nat. split; [reflexivity|]. split; [eexists; reflexivity|].
  split; [reflexivity|]. eexists; reflexivity.
Defined.

Lemma Dequeue_loop_S Marshal fuel q :
  Dequeue_loop Marshal (S fuel) q
  = (s ← store q !! head q;
     if negb (Nat.eqb (head q) (head q)) then Dequeue_loop Marshal fuel q
     else
       match next s with
       | None => Some (sentinel Marshal, q)
       | Some r =>
           if Nat.eqb (tail q) (head q)
           then Dequeue_loop Marshal fuel (CAS_tail (tail q) r q).1
           else
             removed ← store q !! r;
             if (CAS_head (head q) r q).2
             then Some (byteTask removed, (CAS_head (head q) r q).1)
             else Dequeue_loop Marshal fuel (CAS_head (head q) r q).1
       end).
Proof. reflexivity. Qed.

(** X11.  [Dequeue] with a lagging tail.  It returns the oldest payload
    all the same; if [tail] is the sentinel [head] points to, it first
    moves [tail] ahead (so that [head] never passes [tail]), otherwise it
    leaves [tail] alone.  On an empty queue it returns the empty marker
    and changes nothing. *)
Theorem dequeue_helps_lagging_tail (Marshal : Data -> bytes) q items :
  lagging q items ->
  match items with
  | [] => Dequeue Marshal q = Some (sentinel Marshal, q)
  | x :: rest =>
      exists q',
        Dequeue Marshal q = Some (x, q') /\
        store q' = store q /\
        (if Nat.eqb (tail q) (head q) then holds q' rest else lagging q' rest)
  end.
Proof.
  intros (last & bt & Hchain & Htail).
  destruct items as [|x rest].
  - destruct Hchain as [_ [b Hb]]. unfold Dequeue.
    rewrite Dequeue_loop_S, Hb. cbn [mbind option_bind next].
    rewrite Nat.eqb_refl. reflexivity.
  - destruct (chain_last _ _ _ _ Hchain) as [bl Hlast].
    destruct Hchain as (b & a' & Ha & (n' & Ha') & Hrest).
    pose proof (lookup_lt_Some _ _ _ Ha) as Hlt.
    pose proof (lookup_lt_Some _ _ _ Ha') as Hlt'.
    assert (a' <> head q) as Hne.
    { intros E. rewrite E in Hrest. destruct rest as [|y rest'].
      - destruct Hrest as [E' _]. rewrite <- E', Ha in Hlast. discriminate.
      - (* the chain would run in a circle *)
        clear Ha'. revert Hlast. generalize dependent (y :: rest').
        intros l Hl Hlast.
        assert (forall l a, chain (store q) a l last ->
                store q !! a = Some {| byteTask := b; next := Some a |} -> False) as Hcirc.
        { clear. intros l. induction l as [|z l IH]; intros a Hc Ha.
          - destruct Hc as [-> [c Hc]]. rewrite Hc in Ha. discriminate.
          - destruct Hc as (c & a1 & Ha1 & _ & Hc). pose proof Ha1 as Ha2.
            rewrite Ha in Ha2. injection Ha2 as <- <-. apply (IH a Hc Ha). }
        apply (Hcirc l (head q) Hl). rewrite <- E at 2. exact Ha. }
    assert (2 <= length (store q))%nat as Hlen by lia.
    unfold Dequeue.
    destruct (length (store q)) as [|[|k]] eqn:El; try lia.
    rewrite Dequeue_loop_S, Ha. cbn [mbind option_bind next].
    rewrite Nat.eqb_refl. cbn [negb].
    destruct (Nat.eqb_spec (tail q) (head q)) as [E|E].
    + (* tail is the sentinel: help, then dequeue *)
      rewrite E, Ha in Htail. injection Htail as _ <-.
      assert (rest = []) as ->.
      { destruct rest as [|y rest']; [reflexivity|].
        destruct Hrest as (c & a1 & Hc & _). rewrite Hc in Hlast. discriminate. }
      unfold CAS_tail. rewrite E, Nat.eqb_refl. cbn [fst].
      rewrite Dequeue_loop_S. cbn [store head tail].
      rewrite Ha. cbn [mbind option_bind next].
      rewrite Nat.eqb_refl. cbn [negb].
      destruct (Nat.eqb_spec a' (head q)) as [E'|_]; [contradiction|].
      rewrite Ha'. cbn [mbind option_bind byteTask].
      unfold CAS_head. cbn [store head tail]. rewrite Nat.eqb_refl. cbn [fst snd].
      eexists. split; [reflexivity|]. split; [reflexivity|]. exact Hrest.
    + rewrite Ha'. cbn [mbind option_bind byteTask].
      unfold CAS_head. rewrite Nat.eqb_refl. cbn [fst snd].
      eexists. split; [reflexivity|]. split; [reflexivity|].
      exists last, bt. split; [exact Hrest|exact Htail].
Qed.

Lemma dequeue_helps_lagging_tail_witness :
  exists q',
    Dequeue Samples.MarshalData
      {| store := [ {| byteTask := []; next := Some 1%nat |};
                    {| byteTask := list_byte_of_string "a"; next := None |} ];
         head := 0; tail := 0 |} = Some (list_byte_of_string "a", q') /\
    store q' = [ {| byteTask := []; next := Some 1%nat |};
                 {| byteTask := list_byte_of_string "a"; next := None |} ] /\
    holds q' [].
Proof.
  apply (dequeue_helps_lagging_tail Samples.MarshalData
           {| store := [ {| byteTask := []; next := Some 1%nat |};
                         {| byteTask := list_byte_of_string "a"; next := None |} ];
              head := 0; tail := 0 |} [list_byte_of_string "a"]).
  exists 1%nat, []. split; [|reflexivity].
  exists [], 1%nat. split; [reflexivity|]. split; [eexists; reflexivity|].
  split; [reflexivity|]. eexists; reflexivity.
Defined.




End Queue_more.

(* ===================================================================== *)
(** * More on the coordinator *)
(* ===================================================================== *)

Section Twitter_more.
Import F64 Twitter.
Local Open Scope string_scope.
Local Open Scope list_scope.

Variable UnmarshalClient : bytes -> ClientMessage * option error.
Variable UnmarshalPost : bytes -> PostData * option error.
Variable MarshalPost : Feed.postBodyTimestamp -> bytes.
Variable MarshalData : Queue.Data -> bytes.
Variable growslice : nat -> nat -> nat.

Lemma decode_posts_spec arr : forall acc o,
  exists errs,
    decode_posts UnmarshalPost arr acc o
    = (acc ++ map (fun d => (UnmarshalPost d).1) arr,
       {| Stdout := Stdout o ++ errs; Stderr := Stderr o |}) /\
    Forall (fun l => exists e, l = error_line e) errs /\
    (Forall (fun d => (UnmarshalPost d).2 = None) arr -> errs = []).
Proof.
  induction arr as [|d rest IH]; intros acc o.
  - exists []. simpl. rewrite !app_nil_r. destruct o. auto.
  - simpl. destruct (UnmarshalPost d) as [pd [e|]] eqn:E.
    + destruct (IH (acc ++ [pd]) (Println (error_line e) o)) as (errs & Hrun & Herr & _).
      exists (error_line e :: errs). rewrite Hrun. simpl.
      rewrite <- !app_assoc. simpl. split; [reflexivity|]. split.
      * constructor; [eauto|exact Herr].
      * intros Hall. inversion_clear Hall as [|? ? Hd _].
        rewrite E in Hd. discriminate.
    + destruct (IH (acc ++ [pd]) o) as (errs & Hrun & Herr & Hnone).
      exists errs. rewrite Hrun. simpl. rewrite <- !app_assoc. simpl.
      split; [reflexivity|]. split; [exact Herr|].
      intros Hall. inversion_clear Hall. auto.
Qed.

(** X13.  What a task prints.  A task of one of the four commands whose
    feed call returns prints one response, after everything printed
    before, with the id of the request: for ADD the flag true, for REMOVE
    and CONTAINS the flag the feed returned; CONTAINS and FEED leave the
    feed as it is, and FEED may print decode errors of posts before its
    response.  A task of any other command prints nothing and changes
    nothing.  Nothing goes to the error stream. *)
Theorem perform_answers_with_the_id feed task o f o' :
  perform UnmarshalPost MarshalPost growslice feed task o = Some (f, o') ->
  Stderr o' = Stderr o /\
  (Command task = "ADD" ->
     Feed.Add feed (Body task) (Timestamp task) = Some f /\
     Stdout o' = Stdout o ++ [success_line true (Id task)]) /\
  (Command task = "REMOVE" ->
     exists removed,
       Feed.Remove feed (Timestamp task) = Some (f, removed) /\
       Stdout o' = Stdout o ++ [success_line removed (Id task)]) /\
  (Command task = "CONTAINS" ->
     exists contained,
       Feed.Contains feed (Timestamp task) = Some contained /\ f = feed /\
       Stdout o' = Stdout o ++ [success_line contained (Id task)]) /\
  (Command task = "FEED" ->
     exists errs posts,
       f = feed /\
       Stdout o' = Stdout o ++ errs ++ [feed_line (Id task) posts] /\
       Forall (fun l => exists e, l = error_line e) errs) /\
  (Command task <> "ADD" -> Command task <> "REMOVE" ->
   Command task <> "CONTAINS" -> Command task <> "FEED" ->
     f = feed /\ o' = o).
Proof.
  unfold perform, addPostTask, removePostTask, containsPostTask, showFeedTask.
  destruct (String.eqb_spec (Command task) "ADD") as [E1|N1].
  { destruct (Feed.Add _ _ _) as [f1|]; simpl; [|discriminate].
    intros [= <- <-]. rewrite E1.
    repeat split; try discriminate; try reflexivity; try (intros; congruence). }
  destruct (String.eqb_spec (Command task) "REMOVE") as [E2|N2].
  { destruct (Feed.Remove _ _) as [[f1 r]|]; [|discriminate].
    intros [= <- <-]. rewrite E2.
    repeat split; try discriminate; try (intros; congruence).
    intros _. exists r. split; reflexivity. }
  destruct (String.eqb_spec (Command task) "CONTAINS") as [E3|N3].
  { destruct (Feed.Contains _ _) as [c|]; simpl; [|discriminate].
    intros [= <- <-]. rewrite E3.
    repeat split; try discriminate; try (intros; congruence).
    intros _. exists c. repeat split; reflexivity. }
  destruct (String.eqb_spec (Command task) "FEED") as [E4|N4].
  { destruct (Feed.ShowFeed _ _ _) as [arr|]; simpl; [|discriminate].
    destruct (decode_posts_spec arr [] o) as (errs & Hrun & Herr & _).
    rewrite Hrun. intros [= <- <-]. rewrite E4.
    repeat split; try discriminate; try (intros; congruence).
    intros _. exists errs. eexists. split; [reflexivity|].
    split; [|exact Herr]. simpl. rewrite <- app_assoc. reflexivity. }
  intros [= <- <-].
  repeat split; try contradiction; try reflexivity; intros; congruence.
Qed.

(** X18.  The FEED response.  On a feed that satisfies the invariant, and
    provided each stored post survives the round trip through
    [json.Marshal] and [json.Unmarshal], [showFeedTask] prints one line:
    the id of the request and the stored posts, newest first.  The feed is
    as before. *)
Theorem show_feed_task_lists_newest_first feed ps task o :
  Feed.sorted_feed feed ps ->
  Forall (fun p => UnmarshalPost (MarshalPost {| Feed.Body := p.1; Feed.Timestamp := p.2 |})
                   = ({| PostBody := p.1; PostTimestamp := p.2 |}, None)) ps ->
  showFeedTask UnmarshalPost MarshalPost growslice feed task o
  = Some (feed,
          Println (feed_line (Id task)
                     (map (fun p => {| PostBody := p.1; PostTimestamp := p.2 |}) (rev ps)))
                  o).
Proof.
  intros (-> & Hfin & _) Hrt. unfold showFeedTask. destruct o as [so se].
  rewrite (ShowFeed_feed_of MarshalPost growslice _ Hfin), <- map_rev. cbn [mbind option_bind].
  assert (Forall (fun p => UnmarshalPost
                     (MarshalPost {| Feed.Body := p.1; Feed.Timestamp := p.2 |})
                   = ({| PostBody := p.1; PostTimestamp := p.2 |}, None)) (rev ps)) as Hrt'.
  { apply Forall_forall. intros p Hp. rewrite Forall_forall in Hrt.
    apply Hrt. apply list_elem_of_In. apply list_elem_of_In in Hp.
    apply in_rev. exact Hp. }
  set (arr := map (fun p : string * float64 =>
                     MarshalPost {| Feed.Body := p.1; Feed.Timestamp := p.2 |}) (rev ps)).
  assert (map (fun d => (UnmarshalPost d).1) arr
          = map (fun p : string * float64 => {| PostBody := p.1; PostTimestamp := p.2 |})
              (rev ps)) as Hposts.
  { unfold arr. clear - Hrt'. induction Hrt' as [|p l Hp _ IH]; simpl.
    - reflexivity.
    - rewrite Hp, IH. reflexivity. }
  assert (Forall (fun d => (UnmarshalPost d).2 = None) arr) as Hok.
  { unfold arr. clear - Hrt'. induction Hrt' as [|p l Hp _ IH]; simpl; constructor.
    - rewrite Hp. reflexivity.
    - exact IH. }
  destruct (decode_posts_spec arr [] {| Stdout := so; Stderr := se |})
    as (errs & Hrun & _ & Hnone).
  rewrite Hrun, (Hnone Hok), Hposts. cbn [Stdout Stderr]. rewrite app_nil_r.
  reflexivity.
Qed.

(** X14.  Nothing is read after DONE.  Whatever precedes and whatever
    follows a line that decodes to the command DONE, the sequential loop
    and the producer behave as if the input ended with that line. *)
Theorem input_after_done_is_ignored (done : string) cm err :
  UnmarshalClient (list_byte_of_string done) = (cm, err) ->
  Command cm = "DONE" ->
  forall pre rest,
    (forall feed o,
       sequential UnmarshalClient UnmarshalPost MarshalPost growslice
         (pre ++ done :: rest) feed o
       = sequential UnmarshalClient UnmarshalPost MarshalPost growslice
           (pre ++ [done]) feed o) /\
    (forall sh,
       producer UnmarshalClient (pre ++ done :: rest) sh
       = producer UnmarshalClient (pre ++ [done]) sh).
Proof.
  intros Hdec Hcmd pre rest. split.
  - induction pre as [|l pre IH]; intros feed o.
    + simpl. rewrite Hdec, Hcmd. reflexivity.
    + rewrite <- !app_comm_cons, !sequential_step.
      destruct (UnmarshalClient (list_byte_of_string l)) as [cm1 err1].
      cbv beta iota zeta.
      destruct (String.eqb (Command cm1) "DONE"); [reflexivity|].
      destruct (perform _ _ _ _ _ _) as [[f1 o1]|]; [|reflexivity].
      simpl. apply IH.
  - induction pre as [|l pre IH]; intros sh.
    + simpl. rewrite Hdec, Hcmd. reflexivity.
    + rewrite <- !app_comm_cons. simpl.
      destruct (UnmarshalClient (list_byte_of_string l)) as [cm1 err1].
      destruct (negb _); [|reflexivity].
      destruct (Queue.Enqueue _ _) as [q|]; [|reflexivity].
      simpl. apply IH.
Qed.

(** The producer's loop up to the DONE line. *)
Lemma producer_run lines (done : string) rest sh items :
  Forall (fun l => String.eqb (Command (UnmarshalClient (list_byte_of_string l)).1) "DONE"
                   = false) lines ->
  Command (UnmarshalClient (list_byte_of_string done)).1 = "DONE" ->
  Queue.holds (queue sh) items ->
  - 2 ^ 63 <= numOfTasks sh ->
  numOfTasks sh + Z.of_nat (length lines) < 2 ^ 63 ->
  exists sh',
    producer UnmarshalClient (lines ++ done :: rest) sh = Some sh' /\
    Queue.holds (queue sh') (items ++ map list_byte_of_string lines) /\
    numOfTasks sh' = numOfTasks sh + Z.of_nat (length lines) /\
    doneBool sh' = true /\
    feed sh' = feed sh /\
    Stdout (out sh') = Stdout (out sh) ++ decode_errors UnmarshalClient (lines ++ [done]) /\
    Stderr (out sh') = Stderr (out sh).
Proof.
  intros Hlines Hdone. revert sh items.
  induction Hlines as [|l lines Hl _ IH]; intros sh items Hq Hlo Hhi.
  - simpl. unfold decode_errors. simpl.
    destruct (UnmarshalClient (list_byte_of_string done)) as [cm err].
    simpl in Hdone. rewrite Hdone. simpl.
    eexists. split; [reflexivity|]. rewrite !app_nil_r, Z.add_0_r.
    destruct err; simpl; rewrite ?app_nil_r; auto 10.
  - cbn [length] in Hhi.
    destruct (UnmarshalClient (list_byte_of_string l)) as [cm err] eqn:Hdec.
    simpl in Hl.
    destruct (producer_step UnmarshalClient l (lines ++ done :: rest) sh cm err items
                Hdec Hl Hq) as (q' & Hq' & Hstep).
    rewrite <- app_comm_cons, Hstep.
    destruct (IH (AddInt64 1 (set_queue q'
                   match err with
                   | Some e => set_out (Println (error_line e) (out sh)) sh
                   | None => sh
                   end)) (items ++ [list_byte_of_string l]))
      as (sh' & Hrun & Hq2 & Hn & Hd & Hf & Ho & He).
    + exact Hq'.
    + cbn [AddInt64 numOfTasks]. destruct err; cbn [set_queue set_out numOfTasks];
        rewrite wrap64_small; lia.
    + cbn [AddInt64 numOfTasks]. destruct err; cbn [set_queue set_out numOfTasks];
        rewrite wrap64_small; lia.
    + exists sh'. split; [exact Hrun|].
      split; [rewrite <- app_assoc in Hq2; exact Hq2|].
      split.
      { rewrite Hn. cbn [AddInt64 numOfTasks length].
        destruct err; cbn [set_queue set_out numOfTasks]; rewrite wrap64_small; lia. }
      split; [exact Hd|].
      split; [rewrite Hf; destruct err; reflexivity|].
      split.
      { rewrite Ho. unfold decode_errors. simpl. rewrite Hdec. simpl.
        destruct err; simpl; [rewrite <- app_assoc|]; reflexivity. }
      rewrite He. destruct err; reflexivity.
Qed.

(** X15.  The producer enqueues in input order and counts.  For input
    lines none of which decodes to DONE, followed by a DONE line: the
    producer returns; the queue holds what it held followed by the raw
    bytes of the lines, in input order; [numOfTasks] has grown by their
    number (short of the wrap-around of [int64]); [doneBool] is set; the
    decode errors of the lines, in order, are what was printed; the feed
    is not touched. *)
Theorem producer_enqueues_in_order lines (done : string) rest sh items :
  Forall (fun l => String.eqb (Command (UnmarshalClient (list_byte_of_string l)).1) "DONE"
                   = false) lines ->
  Command (UnmarshalClient (list_byte_of_string done)).1 = "DONE" ->
  Queue.holds (queue sh) items ->
  - 2 ^ 63 <= numOfTasks sh ->
  numOfTasks sh + Z.of_nat (length lines) < 2 ^ 63 ->
  exists sh',
    producer UnmarshalClient (lines ++ done :: rest) sh = Some sh' /\
    Queue.holds (queue sh') (items ++ map list_byte_of_string lines) /\
    numOfTasks sh' = numOfTasks sh + Z.of_nat (length lines) /\
    doneBool sh' = true /\
    feed sh' = feed sh /\
    Stdout (out sh') = Stdout (out sh) ++ decode_errors UnmarshalClient (lines ++ [done]) /\
    Stderr (out sh') = Stderr (out sh).
Proof. apply producer_run. Qed.

Lemma stops_drain_false d :
  stops_drain UnmarshalClient d = false ->
  exists cm, UnmarshalClient d = (cm, None) /\ String.eqb (Value cm) "sentinel" = false.
Proof.
  unfold stops_drain. destruct (UnmarshalClient d) as [cm [e|]]; simpl; [discriminate|].
  intros H. exists cm. auto.
Qed.

Lemma drain_takes i : forall sh items acc cm0,
  UnmarshalClient (Queue.sentinel MarshalData) = (cm0, None) ->
  Value cm0 = "sentinel" ->
  Queue.holds (queue sh) items ->
  Forall (fun d => stops_drain UnmarshalClient d = false) items ->
  - 2 ^ 63 + Z.of_nat (length items) <= numOfTasks sh < 2 ^ 63 ->
  exists sh',
    drain UnmarshalClient MarshalData i sh acc
    = Some (sh', acc ++ map (fun d => (UnmarshalClient d).1) (take i items)) /\
    Queue.holds (queue sh') (drop i items) /\
    numOfTasks sh' = numOfTasks sh - Z.of_nat (length (take i items)) /\
    feed sh' = feed sh /\ out sh' = out sh /\ doneBool sh' = doneBool sh.
Proof.
  induction i as [|i IH]; intros sh items acc cm0 Hm Hv Hq Hgood Hn.
  - exists sh. simpl. rewrite app_nil_r, Z.sub_0_r. auto 10.
  - destruct items as [|d rest].
    + exists (set_queue (queue sh) sh).
      rewrite (drain_empty UnmarshalClient MarshalData i sh acc cm0 Hq Hm Hv).
      simpl. rewrite app_nil_r, Z.sub_0_r. auto 10.
    + inversion_clear Hgood as [|? ? Hd Hrest].
      destruct (stops_drain_false d Hd) as (cm & Hdec & Hval).
      destruct (Dequeue_holds_cons MarshalData _ _ _ Hq) as (q' & Hdeq & Hq').
      cbn [length] in Hn.
      destruct (IH (AddInt64 (-1) (set_queue q' sh)) rest (acc ++ [cm]) cm0 Hm Hv Hq' Hrest)
        as (sh' & Hrun & Hq2 & Hn2 & Hf & Ho & Hdb).
      { cbn [AddInt64 set_queue numOfTasks]. rewrite wrap64_small; lia. }
      exists sh'. cbn [drain]. rewrite Hdeq, Hdec, Hval, Hrun.
      cbn [take drop map length]. rewrite Hdec. cbn [fst].
      rewrite <- app_assoc. split; [reflexivity|]. split; [exact Hq2|].
      split.
      { rewrite Hn2. cbn [AddInt64 set_queue numOfTasks].
        rewrite wrap64_small by lia. lia. }
      auto.
Qed.

(** X16.  A worker drains at most a block, oldest first.  On a queue
    whose payloads all decode without error to a value field other than
    "sentinel", the drain loop with [i] iterations takes the [i] oldest
    payloads, or all if there are fewer, into its block in queue order,
    decoded; it leaves the others in the queue and takes that many off
    [numOfTasks]; it prints nothing. *)
Theorem drain_takes_a_block_in_order (i : nat) sh items cm0 :
  UnmarshalClient (Queue.sentinel MarshalData) = (cm0, None) ->
  Value cm0 = "sentinel" ->
  Queue.holds (queue sh) items ->
  Forall (fun d => stops_drain UnmarshalClient d = false) items ->
  - 2 ^ 63 + Z.of_nat (length items) <= numOfTasks sh < 2 ^ 63 ->
  exists sh',
    drain UnmarshalClient MarshalData i sh []
    = Some (sh', map (fun d => (UnmarshalClient d).1) (take i items)) /\
    (length (take i items) <= i)%nat /\
    Queue.holds (queue sh') (drop i items) /\
    numOfTasks sh' = numOfTasks sh - Z.of_nat (Nat.min i (length items)) /\
    feed sh' = feed sh /\ out sh' = out sh /\ doneBool sh' = doneBool sh.
Proof.
  intros Hm Hv Hq Hgood Hn.
  destruct (drain_takes i sh items [] cm0 Hm Hv Hq Hgood Hn)
    as (sh' & Hrun & Hq' & Hn' & Hrest).
  exists sh'. split; [exact Hrun|].
  split; [rewrite length_take; lia|]. split; [exact Hq'|].
  split; [rewrite Hn', length_take; reflexivity|exact Hrest].
Qed.

Lemma perform_all_each blk : forall sh,
  perform_all UnmarshalPost MarshalPost growslice blk sh
  = (fun fo => set_out fo.2 (set_feed fo.1 sh))
      <$> perform_each UnmarshalPost MarshalPost growslice blk (feed sh, out sh).
Proof.
  induction blk as [|task rest IH]; intros sh.
  - destruct sh; reflexivity.
  - cbn [perform_all perform_each fst snd].
    destruct (perform _ _ _ _ _ _) as [[f o]|]; [|reflexivity].
    rewrite IH. cbn [set_out set_feed feed out fst snd].
    destruct (perform_each _ _ _ rest (f, o)); reflexivity.
Qed.

Lemma perform_each_app a : forall b fo,
  perform_each UnmarshalPost MarshalPost growslice (a ++ b) fo
  = perform_each UnmarshalPost MarshalPost growslice a fo
      ≫= perform_each UnmarshalPost MarshalPost growslice b.
Proof.
  induction a as [|task rest IH]; intros b fo; [reflexivity|].
  simpl. destruct (perform _ _ _ _ _ _) as [fo1|]; [apply IH|reflexivity].
Qed.

Lemma sequential_each lines (done : string) rest cmd : forall feed o,
  Forall (fun l => stops_drain UnmarshalClient (list_byte_of_string l) = false /\
                   String.eqb (Command (UnmarshalClient (list_byte_of_string l)).1) "DONE"
                   = false) lines ->
  UnmarshalClient (list_byte_of_string done) = (cmd, None) ->
  Command cmd = "DONE" ->
  sequential UnmarshalClient UnmarshalPost MarshalPost growslice
    (lines ++ done :: rest) feed o
  = perform_each UnmarshalPost MarshalPost growslice
      (map (fun l => (UnmarshalClient (list_byte_of_string l)).1) lines) (feed, o).
Proof.
  intros feed o Hlines Hdone Hcmd. revert feed o.
  induction Hlines as [|l lines [Hl Hnd] _ IH]; intros feed o.
  - simpl. rewrite Hdone, Hcmd. reflexivity.
  - rewrite <- app_comm_cons, sequential_step.
    destruct (stops_drain_false _ Hl) as (cm & Hdec & _).
    rewrite Hdec in Hnd |- *. cbn [fst] in Hnd. cbv beta iota zeta. rewrite Hnd.
    cbn [map perform_each fst snd]. rewrite Hdec. cbn [fst].
    destruct (perform _ _ _ _ _ _) as [[f1 o1]|]; [|reflexivity].
    simpl. apply IH.
Qed.

Lemma consumer_S fuel block sh :
  consumer UnmarshalClient UnmarshalPost MarshalPost MarshalData growslice (S fuel) block sh
  = if (numOfTasks sh =? 0)%Z && negb (doneBool sh) then None
    else
      match consumer_turn UnmarshalClient UnmarshalPost MarshalPost MarshalData growslice
              block sh with
      | None => None
      | Some (sh1, exit) =>
          if exit then Some sh1
          else consumer UnmarshalClient UnmarshalPost MarshalPost MarshalData growslice
                 fuel block sh1
      end.
Proof. reflexivity. Qed.

(** One turn of a worker alone, after DONE, with the count equal to the
    number of payloads in the queue. *)
Lemma consumer_turn_alone block cm0 sh items :
  UnmarshalClient (Queue.sentinel MarshalData) = (cm0, None) ->
  Value cm0 = "sentinel" ->
  Queue.holds (queue sh) items ->
  Forall (fun d => stops_drain UnmarshalClient d = false) items ->
  doneBool sh = true ->
  numOfTasks sh = Z.of_nat (length items) ->
  Z.of_nat (length items) < 2 ^ 63 ->
  exists sh1,
    Queue.holds (queue sh1) (drop (Z.to_nat block) items) /\
    numOfTasks sh1 = Z.of_nat (length (drop (Z.to_nat block) items)) /\
    doneBool sh1 = true /\
    consumer_turn UnmarshalClient UnmarshalPost MarshalPost MarshalData growslice block sh
    = (fun fo => (set_out fo.2 (set_feed fo.1 sh1),
                  (Z.of_nat (length (drop (Z.to_nat block) items)) =? 0)%Z))
        <$> perform_each UnmarshalPost MarshalPost growslice
              (map (fun d => (UnmarshalClient d).1) (take (Z.to_nat block) items))
              (feed sh, out sh).
Proof.
  intros Hm Hv Hq Hgood Hdone Hn Hbound.
  destruct (drain_takes (Z.to_nat block) sh items [] cm0 Hm Hv Hq Hgood)
    as (sh1 & Hrun & Hq1 & Hn1 & Hf1 & Ho1 & Hd1); [lia|].
  assert (numOfTasks sh1 = Z.of_nat (length (drop (Z.to_nat block) items))) as Hn1'.
  { rewrite Hn1, Hn, length_take, length_drop. lia. }
  exists sh1. split; [exact Hq1|]. split; [exact Hn1'|].
  split; [congruence|].
  unfold consumer_turn. rewrite Hrun. cbn [app].
  rewrite perform_all_each, Hf1, Ho1, Hd1, Hdone, Hn1'. cbn [andb].
  destruct (perform_each _ _ _ _ _) as [fo|]; reflexivity.
Qed.

(** A worker alone, after DONE, with the count equal to the number of
    payloads in the queue: it runs them all, in order, and leaves. *)
Lemma consumer_alone block cm0 fuel : forall sh items,
  UnmarshalClient (Queue.sentinel MarshalData) = (cm0, None) ->
  Value cm0 = "sentinel" ->
  1 <= block ->
  Queue.holds (queue sh) items ->
  Forall (fun d => stops_drain UnmarshalClient d = false) items ->
  doneBool sh = true ->
  numOfTasks sh = Z.of_nat (length items) ->
  (length items <= fuel)%nat ->
  Z.of_nat (length items) < 2 ^ 63 ->
  match perform_each UnmarshalPost MarshalPost growslice
          (map (fun d => (UnmarshalClient d).1) items) (feed sh, out sh) with
  | None =>
      consumer UnmarshalClient UnmarshalPost MarshalPost MarshalData growslice
        (S fuel) block sh = None
  | Some fo =>
      exists sh',
        consumer UnmarshalClient UnmarshalPost MarshalPost MarshalData growslice
          (S fuel) block sh = Some sh' /\
        feed sh' = fo.1 /\ out sh' = fo.2 /\ numOfTasks sh' = 0 /\
        Queue.holds (queue sh') [] /\ doneBool sh' = true
  end.
Proof.
  induction fuel as [|fuel IH]; intros sh items Hm Hv Hb Hq Hgood Hdone Hn Hfuel Hbound.
  all: destruct (consumer_turn_alone block cm0 sh items Hm Hv Hq Hgood Hdone Hn Hbound)
         as (sh1 & Hq1 & Hn1 & Hd1 & Hturn).
  all: rewrite consumer_S, Hdone; cbn [negb]; rewrite andb_false_r, Hturn.
  all: assert (perform_each UnmarshalPost MarshalPost growslice
                 (map (fun d => (UnmarshalClient d).1) items) (feed sh, out sh)
               = perform_each UnmarshalPost MarshalPost growslice
                   (map (fun d => (UnmarshalClient d).1) (take (Z.to_nat block) items))
                   (feed sh, out sh)
                 ≫= perform_each UnmarshalPost MarshalPost growslice
                      (map (fun d => (UnmarshalClient d).1) (drop (Z.to_nat block) items)))
         as Hsplit
         by (rewrite <- perform_each_app, <- map_app, take_drop; reflexivity).
  all: rewrite Hsplit; clear Hsplit Hturn.
  all: pose proof (length_drop items (Z.to_nat block)) as Hld.
  all: destruct (perform_each UnmarshalPost MarshalPost growslice
                   (map (fun d => (UnmarshalClient d).1) (take (Z.to_nat block) items))
                   (feed sh, out sh)) as [[f1 o1]|];
         cbn [mbind option_bind fmap option_fmap option_map fst snd];
         [|reflexivity].
  - assert (items = []) as -> by (destruct items; [reflexivity|simpl in Hfuel; lia]).
    rewrite drop_nil in *. cbn [map perform_each length Z.of_nat Z.eqb].
    eexists. split; [reflexivity|].
    cbn [set_out set_feed feed out numOfTasks queue doneBool fst snd].
    cbn [length Z.of_nat] in Hn1. auto.
  - destruct (drop (Z.to_nat block) items) as [|d rest] eqn:Hdrop.
    + cbn [map perform_each length Z.of_nat Z.eqb].
      eexists. split; [reflexivity|].
      cbn [set_out set_feed feed out numOfTasks queue doneBool fst snd].
      cbn [length Z.of_nat] in Hn1. auto.
    + assert ((Z.of_nat (length (d :: rest)) =? 0)%Z = false) as ->
        by (apply Z.eqb_neq; simpl; lia).
      assert (Forall (fun d => stops_drain UnmarshalClient d = false) (d :: rest)) as Hgood'
        by (rewrite <- Hdrop; apply Forall_drop; exact Hgood).
      specialize (IH (set_out o1 (set_feed f1 sh1)) (d :: rest) Hm Hv Hb).
      cbn [set_out set_feed feed out numOfTasks queue doneBool] in IH.
      apply IH; try assumption.
      * simpl in Hld |- *. lia.
      * simpl in Hld |- *. lia.
Qed.

(** X17.  One worker after the producer does what sequential mode does.
    Take input lines that decode without error, to a command other than
    DONE and a value field other than "sentinel", followed by a DONE line.
    The producer returns; a worker that then runs alone, with any block
    size of at least 1, leaves its loop with the feed and the output
    sequential mode ends with, the queue empty and the count at 0; where
    sequential mode panics in a task, the worker does not return either. *)
Theorem one_worker_equals_sequential_mode
  lines (done : string) rest block cm0 cmd feed0 o0 :
  UnmarshalClient (Queue.sentinel MarshalData) = (cm0, None) ->
  Value cm0 = "sentinel" ->
  Forall (fun l => stops_drain UnmarshalClient (list_byte_of_string l) = false /\
                   String.eqb (Command (UnmarshalClient (list_byte_of_string l)).1) "DONE"
                   = false) lines ->
  UnmarshalClient (list_byte_of_string done) = (cmd, None) ->
  Command cmd = "DONE" ->
  1 <= block ->
  Z.of_nat (length lines) < 2 ^ 63 ->
  exists sh1,
    producer UnmarshalClient (lines ++ done :: rest)
      {| queue := Queue.NewQueue; feed := feed0; numOfTasks := 0; doneBool := false;
         out := o0 |} = Some sh1 /\
    match sequential UnmarshalClient UnmarshalPost MarshalPost growslice
            (lines ++ done :: rest) feed0 o0 with
    | Some fo =>
        exists sh2,
          consumer UnmarshalClient UnmarshalPost MarshalPost MarshalData growslice
            (S (length lines)) block sh1 = Some sh2 /\
          feed sh2 = fo.1 /\ out sh2 = fo.2 /\ numOfTasks sh2 = 0 /\
          Queue.holds (queue sh2) []
    | None =>
        consumer UnmarshalClient UnmarshalPost MarshalPost MarshalData growslice
          (S (length lines)) block sh1 = None
    end.
Proof.
  intros Hm Hv Hlines Hdone Hcmd Hb Hbound.
  destruct (producer_run lines done rest
              {| queue := Queue.NewQueue; feed := feed0; numOfTasks := 0;
                 doneBool := false; out := o0 |} [])
    as (sh1 & Hrun & Hq & Hn & Hd & Hf & Ho & He).
  { eapply Forall_impl; [exact Hlines|]. intros l [_ H]. exact H. }
  { rewrite Hdone. exact Hcmd. }
  { apply NewQueue_holds. }
  { simpl. lia. }
  { simpl. lia. }
  cbn [numOfTasks feed out app] in Hn, Hf, Ho, He, Hq.
  assert (out sh1 = o0) as Ho'.
  { assert (decode_errors UnmarshalClient (lines ++ [done]) = []) as Hnone.
    { unfold decode_errors. clear - Hlines Hdone.
      induction Hlines as [|l lines [Hl _] _ IH]; simpl.
      - rewrite Hdone. reflexivity.
      - destruct (stops_drain_false _ Hl) as (cm & -> & _). simpl. exact IH. }
    rewrite Hnone, app_nil_r in Ho. destruct (out sh1), o0. simpl in *. congruence. }
  exists sh1. split; [exact Hrun|].
  rewrite (sequential_each lines done rest cmd feed0 o0 Hlines Hdone Hcmd).
  pose proof (consumer_alone block cm0 (length lines) sh1
                (map list_byte_of_string lines) Hm Hv Hb Hq) as Hc.
  rewrite length_map, map_map, Hf, Ho' in Hc.
  assert (Forall (fun d => stops_drain UnmarshalClient d = false)
            (map list_byte_of_string lines)) as Hgood.
  { apply Forall_map. eapply Forall_impl; [exact Hlines|]. intros l [H _]. exact H. }
  specialize (Hc Hgood Hd). rewrite Z.add_0_l in Hn.
  specialize (Hc Hn (le_n _) Hbound).
  destruct (perform_each _ _ _ _ _) as [fo|]; [|exact Hc].
  destruct Hc as (sh2 & H1 & H2 & H3 & H4 & H5 & _).
  exists sh2. auto.
Qed.

(** What a drain leaves when the count is ahead of the queue, or the queue
    has a payload the drain stops at: the same again. *)
Lemma drain_keeps_ahead i : forall sh items acc sh' blk,
  stops_drain UnmarshalClient (Queue.sentinel MarshalData) = true ->
  Queue.holds (queue sh) items ->
  Z.of_nat (length items) <= numOfTasks sh < 2 ^ 63 ->
  (Z.of_nat (length items) < numOfTasks sh \/
   Exists (fun d => stops_drain UnmarshalClient d = true) items) ->
  drain UnmarshalClient MarshalData i sh acc = Some (sh', blk) ->
  doneBool sh' = doneBool sh /\
  exists items',
    Queue.holds (queue sh') items' /\
    Z.of_nat (length items') <= numOfTasks sh' < 2 ^ 63 /\
    (Z.of_nat (length items') < numOfTasks sh' \/
     Exists (fun d => stops_drain UnmarshalClient d = true) items').
Proof.
  induction i as [|i IH]; intros sh items acc sh' blk Hm Hq Hn Hahead.
  - intros [= <- <-]. split; [reflexivity|]. exists items. auto.
  - cbn [drain]. destruct items as [|d rest].
    + rewrite (Dequeue_holds_empty MarshalData _ Hq).
      assert (Z.of_nat (length (@nil bytes)) < numOfTasks sh) as Hstrict.
      { destruct Hahead as [H|H]; [exact H|]. inversion H. }
      unfold stops_drain in Hm.
      destruct (UnmarshalClient (Queue.sentinel MarshalData)) as [cm [e|]]; cbn [fst snd] in Hm.
      * intros [= <- <-]. split; [reflexivity|]. exists []. auto.
      * rewrite Hm. intros [= <- <-]. split; [reflexivity|]. exists []. auto.
    + destruct (Dequeue_holds_cons MarshalData _ _ _ Hq) as (q' & Hdeq & Hq').
      rewrite Hdeq. cbn [length] in Hn, Hahead.
      destruct (stops_drain UnmarshalClient d) eqn:Hd.
      * unfold stops_drain in Hd.
        destruct (UnmarshalClient d) as [cm [e|]]; cbn [fst snd] in Hd.
        -- intros [= <- <-]. split; [reflexivity|]. exists rest.
           cbn [set_out set_queue queue numOfTasks]. split; [exact Hq'|]. lia.
        -- rewrite Hd. intros [= <- <-]. split; [reflexivity|]. exists rest.
           cbn [set_queue queue numOfTasks]. split; [exact Hq'|]. lia.
      * destruct (stops_drain_false d Hd) as (cm & Hdec & Hval).
        rewrite Hdec, Hval. intros Hrun.
        refine (IH (AddInt64 (-1) (set_queue q' sh)) rest _ _ _ Hm Hq' _ _ Hrun).
        -- cbn [AddInt64 set_queue numOfTasks]. rewrite wrap64_small; lia.
        -- cbn [AddInt64 set_queue numOfTasks]. rewrite wrap64_small by lia.
           destruct Hahead as [H|H]; [left; lia|].
           inversion_clear H as [? ? Hbad|? ? Hbad]; [congruence|right; exact Hbad].
Qed.

(** X19.  A stopped drain leaves the count behind, and a worker that
    then runs alone never leaves its loop.  When the queue holds a payload
    at which the drain stops (decoding reports an error, or the value
    field is "sentinel"), or [numOfTasks] is already above the number of
    payloads in the queue, [numOfTasks] never comes down to 0: whatever
    the block size and however many turns it is given, the worker does not
    return (it goes round its loop, unless a task panics). *)
Theorem lone_worker_never_leaves_after_a_stop (fuel : nat) (block : Z) sh items :
  stops_drain UnmarshalClient (Queue.sentinel MarshalData) = true ->
  Queue.holds (queue sh) items ->
  Z.of_nat (length items) <= numOfTasks sh < 2 ^ 63 ->
  (Z.of_nat (length items) < numOfTasks sh \/
   Exists (fun d => stops_drain UnmarshalClient d = true) items) ->
  consumer UnmarshalClient UnmarshalPost MarshalPost MarshalData growslice fuel block sh
  = None.
Proof.
  intros Hm. revert sh items.
  induction fuel as [|fuel IH]; intros sh items Hq Hn Hahead; [reflexivity|].
  rewrite consumer_S.
  destruct ((numOfTasks sh =? 0)%Z && negb (doneBool sh)); [reflexivity|].
  unfold consumer_turn.
  destruct (drain _ _ _ _ _) as [[sh1 blk]|] eqn:Hdrain; [|reflexivity].
  destruct (drain_keeps_ahead _ _ _ _ _ _ Hm Hq Hn Hahead Hdrain)
    as (Hd1 & items1 & Hq1 & Hn1 & Hahead1).
  rewrite perform_all_each.
  destruct (perform_each _ _ _ _ _) as [fo|];
    cbn [mbind option_bind fmap option_fmap option_map]; [|reflexivity].
  assert ((numOfTasks sh1 =? 0)%Z = false) as ->.
  { apply Z.eqb_neq. destruct Hahead1 as [H|H]; [lia|].
    destruct items1; [inversion H|]. simpl in Hn1. lia. }
  rewrite andb_false_r.
  apply (IH _ items1); assumption.
Qed.

End Twitter_more.

Section Twitter_more_examples.
Import F64 Twitter.
Local Open Scope string_scope.
Local Open Scope list_scope.

Lemma queue_of_one_holds payload :
  Queue.holds (Samples.queue_of_one payload) [list_byte_of_string payload].
Proof.
  exists [], 1%nat. split; [reflexivity|]. split; [eexists; reflexivity|].
  split; [reflexivity|]. eexists; reflexivity.
Qed.

Lemma perform_answers_with_the_id_witness :
  Stderr (Println (success_line true 1) Samples.silent) = Stderr Samples.silent /\
  (Command Samples.add_message = "ADD" ->
     Feed.Add Feed.NewFeed (Body Samples.add_message) (Timestamp Samples.add_message)
     = Some (Feed.feed_of [("hi", of_Z 10)] Feed.end_sentinel) /\
     Stdout (Println (success_line true 1) Samples.silent)
     = Stdout Samples.silent ++ [success_line true (Id Samples.add_message)]) /\
  (Command Samples.add_message = "REMOVE" ->
     exists removed,
       Feed.Remove Feed.NewFeed (Timestamp Samples.add_message)
       = Some (Feed.feed_of [("hi", of_Z 10)] Feed.end_sentinel, removed) /\
       Stdout (Println (success_line true 1) Samples.silent)
       = Stdout Samples.silent ++ [success_line removed (Id Samples.add_message)]) /\
  (Command Samples.add_message = "CONTAINS" ->
     exists contained,
       Feed.Contains Feed.NewFeed (Timestamp Samples.add_message) = Some contained /\
       Feed.feed_of [("hi", of_Z 10)] Feed.end_sentinel = Feed.NewFeed /\
       Stdout (Println (success_line true 1) Samples.silent)
       = Stdout Samples.silent ++ [success_line contained (Id Samples.add_message)]) /\
  (Command Samples.add_message = "FEED" ->
     exists errs posts,
       Feed.feed_of [("hi", of_Z 10)] Feed.end_sentinel = Feed.NewFeed /\
       Stdout (Println (success_line true 1) Samples.silent)
       = Stdout Samples.silent ++ errs ++ [feed_line (Id Samples.add_message) posts] /\
       Forall (fun l => exists e, l = error_line e) errs) /\
  (Command Samples.add_message <> "ADD" -> Command Samples.add_message <> "REMOVE" ->
   Command Samples.add_message <> "CONTAINS" -> Command Samples.add_message <> "FEED" ->
     Feed.feed_of [("hi", of_Z 10)] Feed.end_sentinel = Feed.NewFeed /\
     Println (success_line true 1) Samples.silent = Samples.silent).
Proof.
  apply (perform_answers_with_the_id Samples.UnmarshalPost Samples.MarshalPost
           Samples.growslice Feed.NewFeed Samples.add_message Samples.silent).
  vm_compute. reflexivity.
Defined.

Lemma show_feed_task_lists_newest_first_witness :
  showFeedTask Samples.UnmarshalPost_hi Samples.MarshalPost_hi Samples.growslice
    (Feed.feed_of [("hi", of_Z 10)] Feed.end_sentinel) Samples.feed_message Samples.silent
  = Some (Feed.feed_of [("hi", of_Z 10)] Feed.end_sentinel,
          Println (feed_line (Id Samples.feed_message)
                     (map (fun p : string * float64 =>
                             {| PostBody := p.1; PostTimestamp := p.2 |})
                        (rev [("hi", of_Z 10)])))
                  Samples.silent).
Proof.
  apply (show_feed_task_lists_newest_first Samples.UnmarshalPost_hi
           Samples.MarshalPost_hi Samples.growslice).
  - split; [reflexivity|]. split; vm_compute; reflexivity.
  - constructor; [vm_compute; reflexivity|constructor].
Defined.

Lemma input_after_done_is_ignored_witness :
  (forall feed o,
     sequential Samples.UnmarshalClient Samples.UnmarshalPost Samples.MarshalPost
       Samples.growslice
       ([Samples.line_add] ++ Samples.line_done :: [Samples.line_no_fields]) feed o
     = sequential Samples.UnmarshalClient Samples.UnmarshalPost Samples.MarshalPost
         Samples.growslice ([Samples.line_add] ++ [Samples.line_done]) feed o) /\
  (forall sh,
     producer Samples.UnmarshalClient
       ([Samples.line_add] ++ Samples.line_done :: [Samples.line_no_fields]) sh
     = producer Samples.UnmarshalClient ([Samples.line_add] ++ [Samples.line_done]) sh).
Proof.
  apply (input_after_done_is_ignored Samples.UnmarshalClient Samples.UnmarshalPost
           Samples.MarshalPost Samples.growslice Samples.line_done
           Samples.done_message None).
  - vm_compute. reflexivity.
  - reflexivity.
Defined.

Lemma producer_enqueues_in_order_witness :
  exists sh',
    producer Samples.UnmarshalClient
      ([Samples.line_add; Samples.line_truncated] ++ Samples.line_done :: [Samples.line_add])
      Samples.start = Some sh' /\
    Queue.holds (queue sh')
      ([] ++ map list_byte_of_string [Samples.line_add; Samples.line_truncated]) /\
    numOfTasks sh'
    = numOfTasks Samples.start
      + Z.of_nat (length [Samples.line_add; Samples.line_truncated]) /\
    doneBool sh' = true /\
    feed sh' = feed Samples.start /\
    Stdout (out sh')
    = Stdout (out Samples.start)
      ++ decode_errors Samples.UnmarshalClient
           ([Samples.line_add; Samples.line_truncated] ++ [Samples.line_done]) /\
    Stderr (out sh') = Stderr (out Samples.start).
Proof.
  apply (producer_enqueues_in_order Samples.UnmarshalClient
           [Samples.line_add; Samples.line_truncated] Samples.line_done
           [Samples.line_add] Samples.start []).
  - repeat constructor.
  - vm_compute. reflexivity.
  - apply NewQueue_holds.
  - vm_compute. discriminate.
  - vm_compute. reflexivity.
Defined.

Lemma drain_takes_a_block_in_order_witness :
  exists sh',
    drain Samples.UnmarshalClient Samples.MarshalData 2
      (Samples.after_producer Samples.line_add) []
    = Some (sh', map (fun d => (Samples.UnmarshalClient d).1)
                   (take 2 [list_byte_of_string Samples.line_add])) /\
    (length (take 2 [list_byte_of_string Samples.line_add]) <= 2)%nat /\
    Queue.holds (queue sh') (drop 2 [list_byte_of_string Samples.line_add]) /\
    numOfTasks sh'
    = numOfTasks (Samples.after_producer Samples.line_add)
      - Z.of_nat (Nat.min 2 (length [list_byte_of_string Samples.line_add])) /\
    feed sh' = feed (Samples.after_producer Samples.line_add) /\
    out sh' = out (Samples.after_producer Samples.line_add) /\
    doneBool sh' = doneBool (Samples.after_producer Samples.line_add).
Proof.
  apply (drain_takes_a_block_in_order Samples.UnmarshalClient Samples.MarshalData
           2 (Samples.after_producer Samples.line_add)
           [list_byte_of_string Samples.line_add] Samples.marker_message).
  - vm_compute. reflexivity.
  - reflexivity.
  - apply queue_of_one_holds.
  - constructor; [vm_compute; reflexivity|constructor].
  - split; vm_compute; [discriminate|reflexivity].
Defined.

Lemma one_worker_equals_sequential_mode_witness :
  exists sh1,
    producer Samples.UnmarshalClient
      ([Samples.line_add; Samples.line_no_fields] ++ Samples.line_done :: [Samples.line_add])
      {| queue := Queue.NewQueue; feed := Feed.NewFeed; numOfTasks := 0;
         doneBool := false; out := Samples.silent |} = Some sh1 /\
    match sequential Samples.UnmarshalClient Samples.UnmarshalPost Samples.MarshalPost
            Samples.growslice
            ([Samples.line_add; Samples.line_no_fields]
             ++ Samples.line_done :: [Samples.line_add])
            Feed.NewFeed Samples.silent with
    | Some fo =>
        exists sh2,
          consumer Samples.UnmarshalClient Samples.UnmarshalPost Samples.MarshalPost
            Samples.MarshalData Samples.growslice
            (S (length [Samples.line_add; Samples.line_no_fields])) 1 sh1 = Some sh2 /\
          feed sh2 = fo.1 /\ out sh2 = fo.2 /\ numOfTasks sh2 = 0 /\
          Queue.holds (queue sh2) []
    | None =>
        consumer Samples.UnmarshalClient Samples.UnmarshalPost Samples.MarshalPost
          Samples.MarshalData Samples.growslice
          (S (length [Samples.line_add; Samples.line_no_fields])) 1 sh1 = None
    end.
Proof.
  apply (one_worker_equals_sequential_mode Samples.UnmarshalClient
           Samples.UnmarshalPost Samples.MarshalPost Samples.MarshalData
           Samples.growslice [Samples.line_add; Samples.line_no_fields]
           Samples.line_done [Samples.line_add] 1 Samples.marker_message
           Samples.done_message Feed.NewFeed Samples.silent).
  - vm_compute. reflexivity.
  - reflexivity.
  - repeat constructor.
  - vm_compute. reflexivity.
  - reflexivity.
  - vm_compute. discriminate.
  - vm_compute. reflexivity.
Defined.

Lemma lone_worker_never_leaves_after_a_stop_witness :
  consumer Samples.UnmarshalClient Samples.UnmarshalPost Samples.MarshalPost
    Samples.MarshalData Samples.growslice 5 2
    (Samples.after_producer Samples.line_spoof)
  = None.
Proof.
  apply (lone_worker_never_leaves_after_a_stop Samples.UnmarshalClient
           Samples.UnmarshalPost Samples.MarshalPost Samples.MarshalData
           Samples.growslice 5 2 (Samples.after_producer Samples.line_spoof)
           [list_byte_of_string Samples.line_spoof]).
  - vm_compute. reflexivity.
  - apply queue_of_one_holds.
  - split; vm_compute; [discriminate|reflexivity].
  - right. constructor. vm_compute. reflexivity.
Defined.

End Twitter_more_examples.
